(** * FlatbufferWriter (lullaby/util/flatbuffer_writer.h)

    A shallow embedding of Lullaby's [FlatbufferWriter] and of the part of
    [InwardBuffer] it drives.  Memory is a list of bytes, integers are [Z]
    with the wrap-around of their C++ type written out, and every writer
    method is an action of a state-and-fault monad over the buffer. *)

From Stdlib Require Import Strings.String Strings.Byte.
From Stdlib Require Import ZArith List Lia Bool.
Import ListNotations.
Open Scope Z_scope.

(** ** Machine integers and their little-endian object representation *)

Module Bytes.

(** A value of an unsigned [w]-bit type. *)
Definition wrap (w : Z) (z : Z) : Z := z mod 2 ^ w.

Definition byte_of_Z (z : Z) : byte :=
  match Byte.of_N (Z.to_N (z mod 256)) with
  | Some b => b
  | None => x00
  end.

Definition Z_of_byte (b : byte) : Z := Z.of_N (Byte.to_N b).

(** The [n] bytes of [z] as a little-endian host stores them. *)
Fixpoint le_bytes (n : nat) (z : Z) : list byte :=
  match n with
  | O => []
  | S k => byte_of_Z z :: le_bytes k (z / 256)
  end.

(** The unsigned integer a run of bytes holds. *)
Fixpoint le_value (l : list byte) : Z :=
  match l with
  | [] => 0
  | b :: t => Z_of_byte b + 256 * le_value t
  end.

(** The length of a memory region, as a [size_t]. *)
Definition len {A} (l : list A) : Z := Z.of_nat (length l).

(** Bytes [pos, pos+n) of a memory region, when they exist. *)
Definition read_bytes (mem : list byte) (pos : Z) (n : nat) : option (list byte) :=
  if (0 <=? pos) && (pos + Z.of_nat n <=? len mem)
  then Some (firstn n (skipn (Z.to_nat pos) mem))
  else None.

(** The region with bytes [pos, pos + len bs) overwritten by [bs]. *)
Definition write_bytes (mem : list byte) (pos : Z) (bs : list byte) : option (list byte) :=
  if (0 <=? pos) && (pos + len bs <=? len mem)
  then Some (firstn (Z.to_nat pos) mem ++ bs
             ++ skipn (Z.to_nat pos + length bs) mem)
  else None.

End Bytes.
Import Bytes.

(** ** The state-and-fault monad of the writer *)

(** Modelled from the spec: the dual-growth buffer (lullaby/util/inward_buffer.h
    is not part of the sources at hand).  The front extent [0, frontSize) is
    kept in address order; the back extent is kept in forward read order, so
    its head is the byte written last, the one at [BackAt(BackSize())].
    Growth of the backing store is not observable at this level. *)
Record InwardBuffer := mkBuffer {
  front : list byte;
  back : list byte
}.

Inductive fault :=
| CheckFailed      (* a CHECK of the writer failed: the process aborts *)
| OutOfBounds      (* an access outside the extent it addresses *)
| DivisionByZero
| OutOfFuel.

Inductive result (A : Type) :=
| Ok (a : A) (b : InwardBuffer)
| Fault (f : fault).
Arguments Ok {A} a b.
Arguments Fault {A} f.

Definition M (A : Type) := InwardBuffer -> result A.

Definition ret {A} (a : A) : M A := fun b => Ok a b.

Definition bind {A B} (m : M A) (k : A -> M B) : M B :=
  fun b => match m b with
           | Ok a b' => k a b'
           | Fault f => Fault f
           end.

Definition fail {A} (f : fault) : M A := fun _ => Fault f.

Declare Scope writer_scope.
Delimit Scope writer_scope with writer.
Notation "x <- m ;; k" := (bind m (fun x => k))
  (at level 61, m at next level, right associativity) : writer_scope.
Notation "m ;; k" := (bind m (fun _ => k))
  (at level 61, right associativity) : writer_scope.
Open Scope writer_scope.

(** ** InwardBuffer operations *)

Module Buffer.

(** Modelled from the spec: [InwardBuffer::FrontSize] (inward_buffer.h is
    missing), the current front size. *)
Definition FrontSize : M Z := fun b => Ok (len (front b)) b.

(** Modelled from the spec: [InwardBuffer::BackSize] (inward_buffer.h is
    missing), the current back size. *)
Definition BackSize : M Z := fun b => Ok (len (back b)) b.

(** Modelled from the spec: [InwardBuffer::WriteFront] (inward_buffer.h is
    missing), write-at-front(value). *)
Definition WriteFront (bs : list byte) : M unit :=
  fun b => Ok tt (mkBuffer (front b ++ bs) (back b)).

(** Modelled from the spec: [InwardBuffer::WriteBack] (inward_buffer.h is
    missing), write-at-back(value | raw bytes); the back extent grows towards
    lower addresses. *)
Definition WriteBack (bs : list byte) : M unit :=
  fun b => Ok tt (mkBuffer (front b) (bs ++ back b)).

(** Modelled from the spec: [InwardBuffer::AllocBack] (inward_buffer.h is
    missing), allocate-at-back(size).  The reserved bytes read as zero until
    they are written. *)
Definition AllocBack (n : Z) : M unit :=
  fun b => Ok tt (mkBuffer (front b) (repeat x00 (Z.to_nat n) ++ back b)).

(** Modelled from the spec: [InwardBuffer::EraseFront] (inward_buffer.h is
    missing), erase-from-front(n bytes); erasing more than the front extent
    holds is outside the buffer's contract. *)
Definition EraseFront (n : Z) : M unit :=
  fun b => if (0 <=? n) && (n <=? len (front b))
           then Ok tt (mkBuffer (firstn (length (front b) - Z.to_nat n) (front b)) (back b))
           else Fault OutOfBounds.

(** Modelled from the spec: [InwardBuffer::FrontAt] (inward_buffer.h is
    missing), address-of(front position), here a load of [n] bytes at
    [FrontAt(pos)]. *)
Definition LoadFront (pos : Z) (n : nat) : M (list byte) :=
  fun b => match read_bytes (front b) pos n with
           | Some bs => Ok bs b
           | None => Fault OutOfBounds
           end.

(** Modelled from the spec: [InwardBuffer::FrontAt] again, here a store of
    [bs] at [FrontAt(pos)]. *)
Definition StoreFront (pos : Z) (bs : list byte) : M unit :=
  fun b => match write_bytes (front b) pos bs with
           | Some f => Ok tt (mkBuffer f (back b))
           | None => Fault OutOfBounds
           end.

(** Modelled from the spec: [InwardBuffer::BackAt] (inward_buffer.h is
    missing), address-of(back position).  [BackAt(pos)] is the address [pos]
    bytes below the end of the buffer; [off] is a byte displacement from it.
    A store of [bs] there. *)
Definition StoreBack (pos : Z) (off : Z) (bs : list byte) : M unit :=
  fun b => match write_bytes (back b) (len (back b) - pos + off) bs with
           | Some k => Ok tt (mkBuffer (front b) k)
           | None => Fault OutOfBounds
           end.

End Buffer.
Import Buffer.

(** ** The writer *)

(** [size_t] arithmetic.  Sums of sizes of live memory regions stay below
    2^64 and are written plainly; differences can wrap and are written with
    [size_t]. *)
Definition size_t (z : Z) : Z := wrap 64 z.

(** A C++ value as the writer sees it: the alignment of its type and its
    object representation, whose length is [sizeof]. *)
Record object := mkObject {
  alignof : Z;
  bytes : list byte
}.

Definition sizeof (v : object) : Z := len (bytes v).

(** A scalar of [w] bytes; its natural alignment is its size. *)
Definition scalar (w : nat) (z : Z) : object := mkObject (Z.of_nat w) (le_bytes w z).

(** [struct Field]: two bytes of index, one of size, one of align, four of
    offset, eight bytes in all. *)
Record Field := mkField {
  index : Z;    (* uint16_t *)
  size : Z;     (* uint8_t *)
  align : Z;    (* uint8_t *)
  offset : Z    (* uint32_t *)
}.

Definition sizeof_Field : Z := 8.

Definition Field_bytes (f : Field) : list byte :=
  le_bytes 2 (index f) ++ le_bytes 1 (size f) ++ le_bytes 1 (align f)
  ++ le_bytes 4 (offset f).

Definition Field_of_bytes (l : list byte) : Field :=
  mkField (le_value (firstn 2 l))
          (le_value (firstn 1 (skipn 2 l)))
          (le_value (firstn 1 (skipn 3 l)))
          (le_value (firstn 4 (skipn 4 l))).

(** [*reinterpret_cast<Field*>(buffer_->FrontAt(iter))] *)
Definition LoadField (iter : Z) : M Field :=
  bs <- LoadFront iter 8;;
  ret (Field_of_bytes bs).

(** A [for (iter = first; iter < last; iter += step)] loop threading [s]. *)
Fixpoint for_range {St : Type} (fuel : nat) (iter last step : Z)
    (body : Z -> St -> M St) (s : St) : M St :=
  if iter <? last then
    match fuel with
    | O => fail OutOfFuel
    | S k =>
        s' <- body iter s;;
        for_range k (iter + step) last step body s'
    end
  else ret s.

(** A range-for over a container. *)
Fixpoint for_each {A : Type} (l : list A) (body : A -> M unit) : M unit :=
  match l with
  | [] => ret tt
  | x :: r => body x;; for_each r body
  end.

Module FlatbufferWriter.

Fixpoint Prealign_loop (fuel : nat) (alignment : Z) : M unit :=
  if alignment =? 0 then fail DivisionByZero
  else
    bs <- BackSize;;
    if negb (bs mod alignment =? 0) then
      match fuel with
      | O => fail OutOfFuel
      | S k => WriteBack (le_bytes 1 0);; Prealign_loop k alignment
      end
    else ret tt.

Definition Prealign (alignment : Z) : M unit :=
  Prealign_loop (Z.to_nat alignment) alignment.

(** [template <typename T> void AddValueField(uint16_t index, const T& value)] *)
Definition AddValueField (index : Z) (value : object) : M unit :=
  Prealign (alignof value);;
  WriteBack (bytes value);;
  bs <- BackSize;;
  WriteFront (Field_bytes (mkField (wrap 16 index)
                                   (wrap 8 (sizeof value))
                                   (wrap 8 (alignof value))
                                   (wrap 32 bs))).

(** [void* AddValueField(uint16_t index, size_t size, size_t align)]; the
    pointer returned is [BackAt(BackSize())], given here as that back size. *)
Definition AddValueField_sized (index : Z) (size align : Z) : M Z :=
  Prealign align;;
  AllocBack size;;
  bs <- BackSize;;
  WriteFront (Field_bytes (mkField (wrap 16 index) (wrap 8 size) (wrap 8 align)
                                   (wrap 32 bs)));;
  BackSize.

Definition AddReferenceField (index : Z) (reference : Z) : M unit :=
  WriteFront (Field_bytes (mkField (wrap 16 index) 0 0 (wrap 32 reference))).

Definition WriteReference (reference : Z) : M unit :=
  bs <- BackSize;;
  let end_ := bs + 4 in
  let offset := wrap 32 (size_t (end_ - reference)) in
  WriteBack (le_bytes 4 offset).

(** [str] is the byte content of the [std::string]. *)
Definition CreateString (str : String.string) : M Z :=
  if (String.length str =? 0)%nat then ret 0
  else
    WriteBack (le_bytes 1 0);;
    WriteBack (String.list_byte_of_string str);;
    WriteBack (le_bytes 4 (wrap 32 (Z.of_nat (String.length str))));;
    BackSize.

(** The two accumulators of the loop of [WriteTable]. *)
Record TableSizes := mkSizes {
  max_field : Z;
  object_size : Z
}.

Definition WriteTable_body (iter : Z) (acc : TableSizes) : M TableSizes :=
  field <- LoadField iter;;
  let max_field' := Z.max (max_field acc) (index field) in
  if (size field =? 0) && (offset field =? 0) then
    (* Null reference, do nothing. *)
    ret (mkSizes max_field' (object_size acc))
  else if size field =? 0 then
    WriteReference (offset field);;
    (* field->offset = static_cast<uint32_t>(buffer_->BackSize()) *)
    bs <- BackSize;;
    StoreFront (iter + 4) (le_bytes 4 (wrap 32 bs));;
    ret (mkSizes max_field' (object_size acc + 4))
  else
    ret (mkSizes max_field' (object_size acc + size field)).

(** Returns the root offset with [*object_size] and [*vtable_size]. *)
Definition WriteTable (start end_ : Z) : M (Z * Z * Z) :=
  acc <- for_range (Z.to_nat (end_ - start)) start end_ sizeof_Field
           WriteTable_body (mkSizes 2 0);;
  let vtable_size := (max_field acc + 1) * 2 in
  let offset_to_vtable := wrap 32 vtable_size in
  WriteBack (le_bytes 4 offset_to_vtable);;
  root <- BackSize;;
  ret (root, object_size acc, vtable_size).

Definition CreateVTable (vtable_size object_size : Z) : M Z :=
  let offsets_size := size_t (vtable_size - 2 * 2) in
  (* memset(buffer_->AllocBack(offsets_size), 0, offsets_size) *)
  AllocBack offsets_size;;
  bs <- BackSize;;
  StoreBack bs 0 (repeat x00 (Z.to_nat offsets_size));;
  vtable_offset <- BackSize;;
  WriteBack (le_bytes 2 (wrap 16 object_size));;
  WriteBack (le_bytes 2 (wrap 16 vtable_size));;
  ret vtable_offset.

Definition UpdateVTable_body (root_offset vtable_offset : Z) (iter : Z) (_ : unit)
  : M unit :=
  field <- LoadField iter;;
  if offset field =? 0 then ret tt
  else
    let offset16 := wrap 16 (size_t (root_offset - offset field)) in
    (* offsets[field->index - 2] = offset, with offsets = BackAt(vtable_offset) *)
    StoreBack vtable_offset (2 * (index field - 2)) (le_bytes 2 offset16).

Definition UpdateVTable (start end_ root_offset vtable_offset : Z) : M unit :=
  for_range (Z.to_nat (end_ - start)) start end_ sizeof_Field
    (UpdateVTable_body root_offset vtable_offset) tt.

Definition StartTable : M Z := FrontSize.

Definition EndTable (start : Z) : M Z :=
  end_ <- FrontSize;;
  r <- WriteTable start end_;;
  let '(root_offset, object_size, vtable_size) := r in
  vtable_offset <- CreateVTable vtable_size object_size;;
  UpdateVTable start end_ root_offset vtable_offset;;
  EraseFront (size_t (end_ - start));;
  ret root_offset.

Definition StartVector : M Z := FrontSize.

Definition AddVectorValue (value : object) : M unit :=
  WriteBack (bytes value).

Definition AddVectorReference (reference : Z) : M unit :=
  WriteFront (le_bytes 4 (wrap 32 reference)).

(** The [for (size_t i = 0; i < num; ++i)] loop of [EndVector]. *)
Fixpoint EndVector_loop (num : nat) : M unit :=
  match num with
  | O => ret tt
  | S k =>
      sz <- FrontSize;;
      (* *(ptr - 1) with ptr = FrontAt(size) as uint32_t* *)
      w <- LoadFront (sz - 4) 4;;
      WriteReference (le_value w);;
      EraseFront 4;;
      EndVector_loop k
  end.

Definition EndVector (start num : Z) : M Z :=
  end_ <- FrontSize;;
  (if negb (start =? end_) then EndVector_loop (Z.to_nat num) else ret tt);;
  if num =? 0 then ret 0
  else
    WriteBack (le_bytes 4 (wrap 32 num));;
    BackSize.

(** The pointer returned is [BackAt(BackSize())], given as that back size. *)
Definition Finish (root : Z) : M Z :=
  WriteReference root;;
  BackSize.

(** ** Public methods *)

(** [Scalar(T* value, uint16_t offset, U default_value)] *)
Definition Scalar (value : object) (offset : Z) (default_value : Z) : M unit :=
  AddValueField (offset / 2) value.

(** Modelled from the spec: the macro [CHECK_LE] of lullaby/util/logging.h,
    which is missing; a failed check fails fast. *)
Definition CHECK_LE (x y : Z) : M unit :=
  if x <=? y then ret tt else fail CheckFailed.

(** [Reference(size_t reference, uint16_t offset)] *)
Definition Reference (reference : Z) (offset : Z) : M unit :=
  bs <- BackSize;;
  CHECK_LE reference bs;;
  AddReferenceField (offset / 2) reference.

(** [String(std::string* value, uint16_t offset)] *)
Definition String (value : String.string) (offset : Z) : M unit :=
  reference <- CreateString value;;
  AddReferenceField (offset / 2) reference.

Definition Struct (value : object) (offset : Z) : M unit :=
  AddValueField (offset / 2) value.

(** [Struct(lull::Optional<T>* value, uint16_t offset)] *)
Definition Struct_optional (value : option object) (offset : Z) : M unit :=
  match value with
  | Some v => Struct v offset
  | None => ret tt
  end.

(** [FlatbufferNativeType<T>::Write] stores the representation of the value
    at the pointer [AddValueField] returned. *)
Definition NativeStruct (value : object) (offset : Z) : M unit :=
  ptr <- AddValueField_sized (offset / 2) (sizeof value) (alignof value);;
  StoreBack ptr 0 (bytes value).

Definition NativeStruct_optional (value : option object) (offset : Z) : M unit :=
  match value with
  | Some v => NativeStruct v offset
  | None => ret tt
  end.

(** [Table(T* value, uint16_t offset)]; the hook [SerializeFlatbuffer] of the
    value writes its fields into this writer. *)
Definition Table (SerializeFlatbuffer : M unit) (offset : Z) : M unit :=
  start <- StartTable;;
  SerializeFlatbuffer;;
  reference <- EndTable start;;
  AddReferenceField (offset / 2) reference.

(** [Table(lull::Optional<T>*, ...)] and [Table(std::shared_ptr<T>*, ...)] *)
Definition Table_optional (value : option (M unit)) (offset : Z) : M unit :=
  match value with
  | Some hook => Table hook offset
  | None => ret tt
  end.

(** [Union(T* value, uint16_t offset, U default_type_value)]; [type] is
    [value->type()] and the hook is [value->SerializeFlatbuffer(type, *this)]. *)
Definition Union (type : object) (SerializeFlatbuffer : Z -> M unit)
    (offset : Z) (default_type_value : Z) : M unit :=
  let type_offset := wrap 16 (offset - 2) in
  AddValueField (type_offset / 2) type;;
  if le_value (bytes type) =? 0 then
    AddReferenceField (offset / 2) 0
  else
    start <- StartTable;;
    SerializeFlatbuffer (le_value (bytes type));;
    reference <- EndTable start;;
    AddReferenceField (offset / 2) reference.

(** [VectorOfScalars<T, U>]: every element is converted to the [w]-byte
    scalar type [U] before it is written. *)
Definition VectorOfScalars (w : nat) (value : list Z) (offset : Z) : M unit :=
  start <- StartVector;;
  for_each (rev value) (fun x => let u := scalar w x in AddVectorValue u);;
  reference <- EndVector start (len value);;
  AddReferenceField (offset / 2) reference.

Definition VectorOfStrings (value : list String.string) (offset : Z) : M unit :=
  start <- StartVector;;
  for_each value (fun str => r <- CreateString str;; AddVectorReference r);;
  reference <- EndVector start (len value);;
  AddReferenceField (offset / 2) reference.

Definition VectorOfStructs (value : list object) (offset : Z) : M unit :=
  start <- StartVector;;
  for_each (rev value) (fun t => AddVectorValue t);;
  reference <- EndVector start (len value);;
  AddReferenceField (offset / 2) reference.

Definition VectorOfNativeStructs (value : list object) (offset : Z) : M unit :=
  start <- StartVector;;
  for_each (rev value)
    (fun t => AllocBack (sizeof t);;
              ptr <- BackSize;;
              StoreBack ptr 0 (bytes t));;
  reference <- EndVector start (len value);;
  AddReferenceField (offset / 2) reference.

Definition VectorOfTables (value : list (M unit)) (offset : Z) : M unit :=
  start <- StartVector;;
  for_each value
    (fun SerializeFlatbuffer =>
       table_start <- StartTable;;
       SerializeFlatbuffer;;
       table_end <- EndTable table_start;;
       AddVectorReference table_end);;
  reference <- EndVector start (len value);;
  AddReferenceField (offset / 2) reference.

(** Modelled from the spec: the macro [LOG(DFATAL)] of
    lullaby/util/logging.h, which is missing; it reports a diagnostic and is
    not fatal.  The diagnostics of a call are returned next to its result. *)
Definition LOG_DFATAL (msg : String.string) : list String.string := [msg].

(** [SerializeObject(T* obj, InwardBuffer* buffer)]; the pointer returned is
    [BackAt(BackSize())], given as that back size. *)
Definition SerializeObject (SerializeFlatbuffer : M unit)
  : M (Z * list String.string) :=
  start <- FrontSize;;
  table_start <- StartTable;;
  SerializeFlatbuffer;;
  table_end <- EndTable table_start;;
  Finish table_end;;
  end_ <- FrontSize;;
  let log := if negb (start =? end_)
             then LOG_DFATAL "Unexpected temporary memory left behind."%string
             else [] in
  ptr <- BackSize;;
  ret (ptr, log).

End FlatbufferWriter.
Import FlatbufferWriter.

(** * Views of a run *)

(** An action that leaves the size of front memory as it found it. *)
Definition keeps_front {A} (m : M A) : Prop :=
  forall b a b', m b = Ok a b' -> len (front b') = len (front b).

(** An action that leaves the first [s] bytes of front memory as they are. *)
Definition keeps_below {A} (s : Z) (m : M A) : Prop :=
  forall b a b', m b = Ok a b' ->
                 firstn (Z.to_nat s) (front b') = firstn (Z.to_nat s) (front b).

(** An action that never shrinks back memory. *)
Definition grows_back {A} (m : M A) : Prop :=
  forall b a b', m b = Ok a b' -> len (back b) <= len (back b').

(** An action that never stops for lack of loop fuel. *)
Definition no_fuel_fault {A} (m : M A) : Prop :=
  forall b, m b <> Fault OutOfFuel.

(** * What a reader finds in back memory *)

(** Element [i] of a run of [w]-byte elements. *)
Definition vector_element (w i : nat) (data : list byte) : list byte :=
  firstn w (skipn (i * w) data).

(** The 16-bit entry [slot] of a vtable that starts with [vt]. *)
Definition vtable_entry (slot : Z) (vt : list byte) : Z :=
  le_value (firstn 2 (skipn (Z.to_nat (2 * slot)) vt)).

(** * Ledger-level view *)

(** The members of a record are within the range of their C++ types. *)
Definition Field_ok (f : Field) : Prop :=
  0 <= index f < 2 ^ 16 /\ 0 <= size f < 2 ^ 8 /\ 0 <= align f < 2 ^ 8
  /\ 0 <= offset f < 2 ^ 32.

(** The bytes of a run of records in front memory. *)
Definition ledger_bytes (fs : list Field) : list byte :=
  concat (map Field_bytes fs).

(** A reference record that [WriteTable] skips. *)
Definition absent (f : Field) : bool := (size f =? 0) && (offset f =? 0).

(** What one turn of the loop of [WriteTable] makes of a record and of back
    memory. *)
Definition finalize_field (f : Field) (bk : list byte) : Field * list byte :=
  if absent f then (f, bk)
  else if size f =? 0 then
    let bk1 := le_bytes 4 (len bk + 4 - offset f) ++ bk in
    (mkField (index f) (size f) (align f) (wrap 32 (len bk1)), bk1)
  else (f, bk).

(** The whole loop: the records and the back memory it leaves. *)
Fixpoint finalize (fs : list Field) (bk : list byte) : list Field * list byte :=
  match fs with
  | [] => ([], bk)
  | f :: r =>
      let '(f', bk1) := finalize_field f bk in
      let '(r', bk') := finalize r bk1 in
      (f' :: r', bk')
  end.

(** The bytes a record adds to the object size. *)
Definition object_bytes (f : Field) : Z :=
  if absent f then 0 else if size f =? 0 then 4 else size f.

Definition table_object_size (fs : list Field) : Z :=
  fold_left (fun a f => a + object_bytes f) fs 0.

(** The largest slot index of a ledger, 2 at least. *)
Definition table_max_field (fs : list Field) : Z :=
  fold_left (fun a f => Z.max a (index f)) fs 2.

(** A vtable as its 16-bit entries. *)
Definition entries_bytes (vt : list Z) : list byte :=
  concat (map (le_bytes 2) vt).

Definition set_entry (k : nat) (v : Z) (vt : list Z) : list Z :=
  firstn k vt ++ v :: skipn (S k) vt.

(** The vtable [CreateVTable] writes: two lengths, then zeroed offsets. *)
Definition initial_vtable (vtable_size object_size : Z) : list Z :=
  wrap 16 vtable_size :: wrap 16 object_size
  :: repeat 0 (Z.to_nat ((vtable_size - 4) / 2)).

(** The entries after the loop of [UpdateVTable] over the records [fs]. *)
Fixpoint vtable_updates (root : Z) (fs : list Field) (vt : list Z) : list Z :=
  match fs with
  | [] => vt
  | f :: r =>
      vtable_updates root r
        (if offset f =? 0 then vt
         else set_entry (Z.to_nat (index f)) (wrap 16 (root - offset f)) vt)
  end.

(** Every record of the ledger addresses an entry of an [n]-entry vtable. *)
Definition slots_within (n : Z) (fs : list Field) : Prop :=
  Forall (fun f => 0 <= index f < n) fs.


(** A buffer holding the string ab at position 7 and, in front memory, the
    pending reference to it at slot 2. *)
Definition pending_ab : InwardBuffer :=
  mkBuffer [x02; x00; x00; x00; x07; x00; x00; x00]
           [x02; x00; x00; x00; x61; x62; x00].

(** * Views used by the layout properties *)

(** Modelled from the spec: [InwardBuffer::BackAt] (inward_buffer.h is
    missing); the [n] bytes a reader finds at [BackAt(pos)], the address
    [pos] bytes below the end of the buffer. *)
Definition back_at (pos : Z) (n : nat) (bk : list byte) : list byte :=
  firstn n (skipn (Z.to_nat (len bk - pos)) bk).

(** A reference record that the loop of [WriteTable] finalizes. *)
Definition pending (f : Field) : bool :=
  (size f =? 0) && negb (offset f =? 0).

(** What the loop of [EndVector] leaves in back memory; [rrefs] are the
    pending references in the order the loop reads them, last to first. *)
Fixpoint write_refs (rrefs : list Z) (bk : list byte) : list byte :=
  match rrefs with
  | [] => bk
  | r :: t => write_refs t (le_bytes 4 (len bk + 4 - r) ++ bk)
  end.

(** The pending references of a vector as [AddVectorReference] leaves them
    in front memory. *)
Definition refs_bytes (refs : list Z) : list byte :=
  concat (map (le_bytes 4) refs).

(** The slots the loop of [EndVector] writes for the pending references
    [refs], in forward read order, in front of a back memory of [L] bytes. *)
Fixpoint ref_slots (refs : list Z) (L : Z) : list byte :=
  match refs with
  | [] => []
  | r :: t => le_bytes 4 (L + 4 * len refs - r) ++ ref_slots t L
  end.

(** A hook that appends [n] well-typed records to front memory and only
    prepends to back memory. *)
Definition writes_fields (n : nat) (m : M unit) : Prop :=
  forall b, exists fs new,
    length fs = n /\ Forall Field_ok fs /\
    m b = Ok tt (mkBuffer (front b ++ ledger_bytes fs) (new ++ back b)).

(** The hook of a table all of whose fields are inline values: one [Struct]
    call (equally, one [Scalar] call) per field, given as the pair of the
    field's offset and its value. *)
Definition inline_fields (fields : list (Z * object)) : M unit :=
  for_each fields (fun f => Struct (snd f) (fst f)).

(** The positions [CreateString] returns for a run of strings written one
    after the other, and the back memory they leave. *)
Fixpoint write_strings (strs : list string) (bk : list byte)
  : list Z * list byte :=
  match strs with
  | [] => ([], bk)
  | s :: t =>
      let bk1 := if (String.length s =? 0)%nat then bk
                 else le_bytes 4 (Z.of_nat (String.length s))
                      ++ list_byte_of_string s ++ [x00] ++ bk in
      let p := if (String.length s =? 0)%nat then 0 else len bk1 in
      let '(ps, bk') := write_strings t bk1 in
      (p :: ps, bk')
  end.

(** * Properties *)

(** ** Bytes and little-endian representations *)

Section ByteFacts.

Lemma Z_of_byte_range (b : byte) : 0 <= Z_of_byte b < 256.
Proof.
  unfold Z_of_byte. pose proof (Byte.to_N_bounded b) as H. lia.
Qed.

Lemma Z_of_byte_of_Z (z : Z) : Z_of_byte (byte_of_Z z) = z mod 256.
Proof.
  unfold Z_of_byte, byte_of_Z.
  assert (Hr : 0 <= z mod 256 < 256) by (apply Z.mod_pos_bound; lia).
  destruct (Byte.of_N (Z.to_N (z mod 256))) as [c|] eqn:E.
  - apply Byte.to_of_N in E. rewrite E. lia.
  - apply Byte.of_N_None_iff in E. lia.
Qed.

Lemma byte_of_Z_of_byte (b : byte) : byte_of_Z (Z_of_byte b) = b.
Proof.
  unfold byte_of_Z, Z_of_byte.
  pose proof (Byte.to_N_bounded b) as H.
  rewrite Z.mod_small by lia.
  rewrite N2Z.id, Byte.of_to_N. reflexivity.
Qed.

Lemma byte_of_Z_mod (z : Z) : byte_of_Z (z mod 256) = byte_of_Z z.
Proof.
  unfold byte_of_Z. rewrite Z.mod_mod by lia. reflexivity.
Qed.

Lemma length_le_bytes (n : nat) (z : Z) : length (le_bytes n z) = n.
Proof.
  revert z. induction n as [|n IH]; intro z; simpl; [reflexivity|].
  now rewrite IH.
Qed.

Lemma len_le_bytes (n : nat) (z : Z) : len (le_bytes n z) = Z.of_nat n.
Proof. unfold len. now rewrite length_le_bytes. Qed.

Lemma le_value_range (l : list byte) : 0 <= le_value l < 2 ^ (8 * len l).
Proof.
  unfold len. induction l as [|x l IH]; cbn [le_value].
  - simpl. lia.
  - pose proof (Z_of_byte_range x) as Hx.
    replace (8 * Z.of_nat (length (x :: l))) with (8 + 8 * Z.of_nat (length l))
      by (cbn [length]; lia).
    rewrite Z.pow_add_r by lia. change (2 ^ 8) with 256.
    set (P := 2 ^ (8 * Z.of_nat (length l))) in *. lia.
Qed.

Lemma le_value_le_bytes (n : nat) (z : Z) :
  le_value (le_bytes n z) = z mod 2 ^ (8 * Z.of_nat n).
Proof.
  revert z. induction n as [|n IH]; intro z.
  - simpl. now rewrite Z.mod_1_r.
  - cbn [le_bytes le_value]. rewrite IH, Z_of_byte_of_Z.
    replace (8 * Z.of_nat (S n)) with (8 + 8 * Z.of_nat n) by lia.
    rewrite Z.pow_add_r by lia. change (2 ^ 8) with 256.
    assert (Hp : 0 < 2 ^ (8 * Z.of_nat n)) by (apply Z.pow_pos_nonneg; lia).
    rewrite Z.rem_mul_r by lia. reflexivity.
Qed.

Lemma le_bytes_le_value (l : list byte) : le_bytes (length l) (le_value l) = l.
Proof.
  induction l as [|x l IH]; [reflexivity|].
  cbn [length le_bytes le_value].
  pose proof (Z_of_byte_range x) as Hx.
  replace (Z_of_byte x + 256 * le_value l)
    with (Z_of_byte x + le_value l * 256) by lia.
  f_equal.
  - rewrite <- byte_of_Z_mod.
    rewrite Z.mod_add by lia.
    rewrite Z.mod_small by lia. apply byte_of_Z_of_byte.
  - rewrite Z.div_add by lia.
    rewrite Z.div_small by lia. exact IH.
Qed.

Lemma le_bytes_wrap (n : nat) (z : Z) :
  le_bytes n (wrap (8 * Z.of_nat n) z) = le_bytes n z.
Proof.
  unfold wrap. rewrite <- le_value_le_bytes.
  rewrite <- (length_le_bytes n z) at 1. apply le_bytes_le_value.
Qed.

Lemma wrap_small (w z : Z) : 0 <= z < 2 ^ w -> wrap w z = z.
Proof. intro H. unfold wrap. now apply Z.mod_small. Qed.

Lemma wrap_range (w z : Z) : 0 <= w -> 0 <= wrap w z < 2 ^ w.
Proof.
  intro H. unfold wrap. apply Z.mod_pos_bound. now apply Z.pow_pos_nonneg.
Qed.

(** Narrowing a [size_t] to a narrower unsigned type. *)
Lemma wrap_size_t (w z : Z) : 0 <= w <= 64 -> wrap w (size_t z) = wrap w z.
Proof.
  intro H. unfold size_t, wrap.
  replace (2 ^ 64) with (2 ^ w * 2 ^ (64 - w))
    by (rewrite <- Z.pow_add_r by lia; f_equal; lia).
  assert (0 < 2 ^ w) by (apply Z.pow_pos_nonneg; lia).
  assert (0 < 2 ^ (64 - w)) by (apply Z.pow_pos_nonneg; lia).
  rewrite Z.rem_mul_r by lia.
  rewrite (Z.mul_comm (2 ^ w)), Z.mod_add by lia.
  now rewrite Z.mod_mod by lia.
Qed.

Lemma len_app {A} (l k : list A) : len (l ++ k) = len l + len k.
Proof. unfold len. rewrite length_app. lia. Qed.

Lemma len_nonneg {A} (l : list A) : 0 <= len l.
Proof. unfold len. lia. Qed.

Lemma len_repeat {A} (x : A) (n : nat) : len (repeat x n) = Z.of_nat n.
Proof. unfold len. now rewrite repeat_length. Qed.

Lemma length_list_byte_of_string (s : string) :
  length (list_byte_of_string s) = String.length s.
Proof.
  unfold list_byte_of_string. rewrite length_map.
  induction s as [|c s IH]; simpl; [reflexivity|]. now rewrite IH.
Qed.

End ByteFacts.

(** ** Memory regions *)

Section MemoryFacts.

Lemma firstn_length_app {A} (p q : list A) : firstn (length p) (p ++ q) = p.
Proof.
  rewrite firstn_app, firstn_all, Nat.sub_diag. cbn [firstn]. apply app_nil_r.
Qed.

Lemma skipn_length_app {A} (p q : list A) : skipn (length p) (p ++ q) = q.
Proof.
  rewrite skipn_app, skipn_all, Nat.sub_diag. reflexivity.
Qed.

Lemma read_bytes_at (p bs s : list byte) :
  read_bytes (p ++ bs ++ s) (len p) (length bs) = Some bs.
Proof.
  unfold read_bytes.
  pose proof (len_nonneg p) as Hp. pose proof (len_nonneg s) as Hs.
  rewrite !len_app. fold (len bs).
  replace ((0 <=? len p) && (len p + len bs <=? len p + (len bs + len s)))
    with true by (symmetry; apply andb_true_iff; split; apply Z.leb_le; lia).
  f_equal. unfold len. rewrite Nat2Z.id.
  now rewrite skipn_length_app, firstn_length_app.
Qed.

Lemma read_bytes_split (mem : list byte) (pos : Z) (n : nat) (bs : list byte) :
  read_bytes mem pos n = Some bs ->
  exists p s, mem = p ++ bs ++ s /\ len p = pos /\ length bs = n.
Proof.
  unfold read_bytes, len. intro H.
  destruct ((0 <=? pos) && (pos + Z.of_nat n <=? Z.of_nat (length mem))) eqn:E;
    [|discriminate].
  apply andb_true_iff in E. destruct E as [E1 E2].
  apply Z.leb_le in E1. apply Z.leb_le in E2.
  injection H as <-.
  exists (firstn (Z.to_nat pos) mem), (skipn n (skipn (Z.to_nat pos) mem)).
  split; [|split].
  - now rewrite firstn_skipn, firstn_skipn.
  - rewrite length_firstn. lia.
  - rewrite length_firstn, length_skipn. lia.
Qed.

Lemma write_bytes_at (p old new s : list byte) :
  length old = length new ->
  write_bytes (p ++ old ++ s) (len p) new = Some (p ++ new ++ s).
Proof.
  intro Hl. unfold write_bytes.
  pose proof (len_nonneg p) as Hp. pose proof (len_nonneg s) as Hs.
  rewrite !len_app.
  assert (Hn : len old = len new) by (unfold len; now rewrite Hl).
  replace ((0 <=? len p) && (len p + len new <=? len p + (len old + len s)))
    with true by (symmetry; apply andb_true_iff; split; apply Z.leb_le; lia).
  f_equal. unfold len. rewrite Nat2Z.id.
  rewrite firstn_length_app. do 2 f_equal.
  rewrite <- Hl, <- (length_app p old), app_assoc.
  apply skipn_length_app.
Qed.

Lemma list8 (bs : list byte) :
  length bs = 8%nat ->
  exists b0 b1 b2 b3 b4 b5 b6 b7, bs = [b0; b1; b2; b3; b4; b5; b6; b7].
Proof.
  intro H.
  do 8 (destruct bs as [|? bs]; [discriminate|]).
  destruct bs; [|discriminate]. now repeat eexists.
Qed.

Lemma list4 (bs : list byte) :
  length bs = 4%nat -> exists b0 b1 b2 b3, bs = [b0; b1; b2; b3].
Proof.
  intro H.
  do 4 (destruct bs as [|? bs]; [discriminate|]).
  destruct bs; [|discriminate]. now repeat eexists.
Qed.

End MemoryFacts.

(** ** Field records in front memory *)

Section FieldFacts.

Lemma length_Field_bytes (f : Field) : length (Field_bytes f) = 8%nat.
Proof. reflexivity. Qed.

Lemma Field_of_bytes_ok (bs : list byte) : Field_ok (Field_of_bytes bs).
Proof.
  unfold Field_ok, Field_of_bytes; cbn [index size align offset].
  repeat split;
    match goal with
    | |- context [le_value ?l] =>
        pose proof (le_value_range l) as H; unfold len in H;
        assert (Hl : (length l <= length l)%nat) by lia;
        rewrite length_firstn in Hl at 2
    end.
  all: try lia.
  all: match goal with
       | H : _ <= _ < 2 ^ ?e |- _ < 2 ^ ?w =>
           assert (2 ^ e <= 2 ^ w) by (apply Z.pow_le_mono_r; lia); lia
       end.
Qed.

Lemma Field_of_bytes_Field_bytes (f : Field) :
  Field_ok f -> Field_of_bytes (Field_bytes f) = f.
Proof.
  intros (Hi & Hs & Ha & Ho). destruct f as [i s a o].
  cbn [index size align offset] in *.
  unfold Field_of_bytes, Field_bytes.
  cbn [index size align offset le_bytes app firstn skipn].
  change [byte_of_Z i; byte_of_Z (i / 256)] with (le_bytes 2 i).
  change [byte_of_Z s] with (le_bytes 1 s).
  change [byte_of_Z a] with (le_bytes 1 a).
  change [byte_of_Z o; byte_of_Z (o / 256); byte_of_Z (o / 256 / 256);
          byte_of_Z (o / 256 / 256 / 256)] with (le_bytes 4 o).
  rewrite !le_value_le_bytes.
  f_equal; apply Z.mod_small; assumption.
Qed.

Lemma Field_bytes_Field_of_bytes (bs : list byte) :
  length bs = 8%nat -> Field_bytes (Field_of_bytes bs) = bs.
Proof.
  intro H. destruct (list8 bs H) as (b0 & b1 & b2 & b3 & b4 & b5 & b6 & b7 & ->).
  unfold Field_bytes, Field_of_bytes.
  cbn [index size align offset firstn skipn].
  pose proof (le_bytes_le_value [b0; b1]) as H01.
  pose proof (le_bytes_le_value [b2]) as H2.
  pose proof (le_bytes_le_value [b3]) as H3.
  pose proof (le_bytes_le_value [b4; b5; b6; b7]) as H47.
  cbn [length] in H01, H2, H3, H47.
  rewrite H01, H2, H3, H47. reflexivity.
Qed.

End FieldFacts.

(** ** Straight-line methods *)

(** Unfolds the buffer operations and the monad in a goal about a run. *)
Ltac run :=
  unfold Reference, CHECK_LE, AddReferenceField, WriteReference, Finish,
    CreateString, LoadField, StartTable, StartVector, AddVectorValue,
    AddVectorReference,
    BackSize, FrontSize, WriteBack, WriteFront, AllocBack,
    bind, ret, fail; cbn [front back].

(** C10.  [Reference(reference, offset)] aborts on its check, before any
    field is recorded, when [reference] exceeds the back size; when
    [reference] is at most the back size the check passes and the reference
    field is recorded at slot [offset / 2], so the call does not abort. *)
Theorem Reference_checked (reference offset : Z) (b : InwardBuffer) :
  (len (back b) < reference ->
   Reference reference offset b = Fault CheckFailed) /\
  (reference <= len (back b) ->
   Reference reference offset b =
   Ok tt (mkBuffer
            (front b ++ Field_bytes (mkField (wrap 16 (offset / 2)) 0 0
                                             (wrap 32 reference)))
            (back b))).
Proof.
  split; intro H; run.
  - destruct (reference <=? len (back b)) eqn:E; [|reflexivity].
    apply Z.leb_le in E. lia.
  - destruct (reference <=? len (back b)) eqn:E; [reflexivity|].
    apply Z.leb_gt in E. lia.
Qed.

Lemma Reference_checked_witness :
  Reference 5 6 (mkBuffer [] [x01; x02]) = Fault CheckFailed /\
  Reference 2 6 (mkBuffer [] [x01; x02]) =
  Ok tt (mkBuffer [x03; x00; x00; x00; x02; x00; x00; x00] [x01; x02]).
Proof.
  split.
  - apply (proj1 (Reference_checked 5 6 (mkBuffer [] [x01; x02]))).
    vm_compute. reflexivity.
  - apply (proj2 (Reference_checked 2 6 (mkBuffer [] [x01; x02]))).
    vm_compute. discriminate.
Defined.

(** C5.  For a non-empty string [CreateString] leaves in back memory, in
    forward read order, the four bytes of the length, the bytes of the
    string and one zero byte, and returns the back size; for the empty
    string it writes nothing and returns the null reference 0. *)
Theorem CreateString_layout (str : string) (b : InwardBuffer) :
  (str = EmptyString -> CreateString str b = Ok 0 b) /\
  (str <> EmptyString ->
   exists b',
     CreateString str b = Ok (len (back b')) b' /\
     front b' = front b /\
     back b' = le_bytes 4 (Z.of_nat (String.length str))
               ++ list_byte_of_string str ++ [x00] ++ back b /\
     le_value (firstn 4 (back b')) = Z.of_nat (String.length str) mod 2 ^ 32 /\
     (Z.of_nat (String.length str) < 2 ^ 32 ->
      le_value (firstn 4 (back b')) = Z.of_nat (String.length str))).
Proof.
  split.
  - intros ->. reflexivity.
  - intro Hne.
    assert (W : forall z, le_bytes 4 (wrap 32 z) = le_bytes 4 z)
      by (intro z; exact (le_bytes_wrap 4 z)).
    exists (mkBuffer (front b)
              (le_bytes 4 (Z.of_nat (String.length str))
               ++ list_byte_of_string str ++ [x00] ++ back b)).
    cbn [front back].
    split; [|split; [reflexivity|split; [reflexivity|]]].
    + destruct str as [|c str]; [congruence|].
      run. cbn [String.length Nat.eqb]. rewrite W. reflexivity.
    + pose proof (firstn_length_app
                    (le_bytes 4 (Z.of_nat (String.length str)))) as F.
      rewrite length_le_bytes in F. rewrite F.
      rewrite le_value_le_bytes.
      split; [reflexivity|]. intro Hlt. apply Z.mod_small. lia.
Qed.

Lemma CreateString_layout_witness :
  CreateString EmptyString (mkBuffer [] []) = Ok 0 (mkBuffer [] []) /\
  exists b',
    CreateString "ab" (mkBuffer [] []) = Ok (len (back b')) b' /\
    front b' = [] /\
    back b' = [x02; x00; x00; x00; x61; x62; x00] /\
    le_value (firstn 4 (back b')) = 2.
Proof.
  split.
  - apply (proj1 (CreateString_layout EmptyString (mkBuffer [] []))). reflexivity.
  - destruct (proj2 (CreateString_layout "ab" (mkBuffer [] [])))
      as (b' & H1 & H2 & H3 & _ & H5); [discriminate|].
    exists b'. repeat split; try assumption.
    apply H5. vm_compute. reflexivity.
Defined.

Section RunFacts.

Lemma bind_Ok {A B} (m : M A) (k : A -> M B) (b b' : InwardBuffer) (a : A) :
  m b = Ok a b' -> bind m k b = k a b'.
Proof. intro H. unfold bind. now rewrite H. Qed.

Lemma bind_Fault {A B} (m : M A) (k : A -> M B) (b : InwardBuffer) (e : fault) :
  m b = Fault e -> bind m k b = Fault e.
Proof. intro H. unfold bind. now rewrite H. Qed.

Lemma LoadField_split (iter : Z) (b b' : InwardBuffer) (f : Field) :
  LoadField iter b = Ok f b' ->
  b' = b /\
  exists p bs s, front b = p ++ bs ++ s /\ len p = iter /\ length bs = 8%nat
                 /\ f = Field_of_bytes bs.
Proof.
  unfold LoadField, LoadFront, bind, ret. intro H.
  destruct (read_bytes (front b) iter 8) as [bs|] eqn:E; [|discriminate].
  injection H as <- <-. split; [reflexivity|].
  destruct (read_bytes_split _ _ _ _ E) as (p & s & H1 & H2 & H3).
  now exists p, bs, s.
Qed.

Lemma LoadField_at (p bs s k : list byte) :
  length bs = 8%nat ->
  LoadField (len p) (mkBuffer (p ++ bs ++ s) k)
  = Ok (Field_of_bytes bs) (mkBuffer (p ++ bs ++ s) k).
Proof.
  intro H. unfold LoadField, LoadFront, bind, ret. cbn [front].
  rewrite <- H. now rewrite read_bytes_at.
Qed.

Lemma firstn4_le_bytes (z : Z) (k : list byte) :
  firstn 4 (le_bytes 4 z ++ k) = le_bytes 4 z.
Proof. reflexivity. Qed.

Lemma le_bytes4_wrap (z : Z) : le_bytes 4 (wrap 32 z) = le_bytes 4 z.
Proof. exact (le_bytes_wrap 4 z). Qed.

Lemma le_bytes2_wrap (z : Z) : le_bytes 2 (wrap 16 z) = le_bytes 2 z.
Proof. exact (le_bytes_wrap 2 z). Qed.

Lemma le_value_le_bytes4 (z : Z) : le_value (le_bytes 4 z) = z mod 2 ^ 32.
Proof. exact (le_value_le_bytes 4 z). Qed.

Lemma le_value_le_bytes2 (z : Z) : le_value (le_bytes 2 z) = z mod 2 ^ 16.
Proof. exact (le_value_le_bytes 2 z). Qed.

(** What [WriteReference] leaves behind. *)
Lemma WriteReference_run (reference : Z) (b : InwardBuffer) :
  WriteReference reference b
  = Ok tt (mkBuffer (front b)
             (le_bytes 4 (len (back b) + 4 - reference) ++ back b)).
Proof.
  run. rewrite wrap_size_t by lia. now rewrite le_bytes4_wrap.
Qed.

Lemma Finish_run (root : Z) (b : InwardBuffer) :
  Finish root b
  = Ok (len (le_bytes 4 (len (back b) + 4 - root) ++ back b))
       (mkBuffer (front b)
          (le_bytes 4 (len (back b) + 4 - root) ++ back b)).
Proof.
  unfold Finish. now rewrite (bind_Ok _ _ _ _ _ (WriteReference_run _ _)).
Qed.

End RunFacts.

Section VectorFacts.

Lemma EraseFront_app (p q k : list byte) :
  EraseFront (len q) (mkBuffer (p ++ q) k) = Ok tt (mkBuffer p k).
Proof.
  unfold EraseFront. cbn [front back].
  pose proof (len_nonneg p). pose proof (len_nonneg q).
  rewrite len_app.
  replace ((0 <=? len q) && (len q <=? len p + len q)) with true
    by (symmetry; apply andb_true_iff; split; apply Z.leb_le; lia).
  do 2 f_equal. rewrite length_app. unfold len. rewrite Nat2Z.id.
  replace (length p + length q - length q)%nat with (length p) by lia.
  apply firstn_length_app.
Qed.

Lemma read_bytes_tail (p q : list byte) :
  read_bytes (p ++ q) (len p) (length q) = Some q.
Proof.
  pose proof (read_bytes_at p q []) as H. now rewrite app_nil_r in H.
Qed.

(** A front extent of at least [n] bytes ends in a run of [n] bytes. *)
Lemma split_tail (l : list byte) (n : nat) :
  (n <= length l)%nat -> exists p q, l = p ++ q /\ length q = n.
Proof.
  intro H. exists (firstn (length l - n) l), (skipn (length l - n) l).
  split; [now rewrite firstn_skipn|]. rewrite length_skipn. lia.
Qed.

Lemma EndVector_loop_run (n : nat) (b : InwardBuffer) :
  4 * Z.of_nat n <= len (front b) ->
  exists b1 slots,
    EndVector_loop n b = Ok tt b1 /\
    front b = front b1 ++ skipn (length (front b1)) (front b) /\
    len (front b1) = len (front b) - 4 * Z.of_nat n /\
    back b1 = slots ++ back b /\
    len slots = 4 * Z.of_nat n.
Proof.
  revert b. induction n as [|n IH]; intros b Hn.
  - exists b, []. cbn [EndVector_loop ret app].
    repeat split; try reflexivity; try lia.
    now rewrite skipn_all, app_nil_r.
  - destruct b as [fr bk]. cbn [front back] in *.
    destruct (split_tail fr 4) as (p & q & -> & Hq);
      [unfold len in Hn; lia|].
    destruct (list4 q Hq) as (q0 & q1 & q2 & q3 & ->).
    rewrite len_app in Hn. 
    destruct (IH (mkBuffer p (le_bytes 4 (len bk + 4 - le_value [q0; q1; q2; q3]) ++ bk)))
      as (b1 & slots & H1 & H2 & H3 & H4 & H5).
    { cbn [front]. change (len [q0; q1; q2; q3]) with 4 in Hn. lia. }
    cbn [front back] in *.
    exists b1, (slots ++ le_bytes 4 (len bk + 4 - le_value [q0; q1; q2; q3])).
    split; [|split; [|split; [|split]]].
    + cbn [EndVector_loop].
      unfold bind at 1. unfold FrontSize at 1. cbn [front].
      unfold bind at 1. unfold LoadFront at 1. cbn [front].
      replace (len (p ++ [q0; q1; q2; q3]) - 4) with (len p)
        by (rewrite len_app; change (len [q0; q1; q2; q3]) with 4; lia).
      pose proof (read_bytes_tail p [q0; q1; q2; q3]) as R.
      cbn [length] in R. rewrite R.
      rewrite (bind_Ok _ _ _ _ _ (WriteReference_run _ _)).
      cbn [front back].
      pose proof (EraseFront_app p [q0; q1; q2; q3]
                    (le_bytes 4 (len bk + 4 - le_value [q0; q1; q2; q3]) ++ bk))
        as E.
      change (len [q0; q1; q2; q3]) with 4 in E.
      rewrite (bind_Ok _ _ _ _ _ E).
      exact H1.
    + rewrite H2 at 1. rewrite <- app_assoc. f_equal.
      rewrite H2 at 2. rewrite <- app_assoc, skipn_length_app.
      reflexivity.
    + rewrite H3, len_app. change (len [q0; q1; q2; q3]) with 4. lia.
    + rewrite H4. now rewrite <- app_assoc.
    + rewrite len_app, len_le_bytes, H5. lia.
Qed.

End VectorFacts.

(** C6.  [EndVector(start, 0)] returns 0 and leaves the buffer as it is.
    For a non-zero count, once the pending references (if any) are written,
    it prepends the count as a 4-byte value and returns the back size
    measured after that write. *)
Theorem EndVector_count (start : Z) (b : InwardBuffer) :
  EndVector start 0 b = Ok 0 b /\
  (forall num : Z,
     0 < num ->
     start = len (front b) \/ 4 * num <= len (front b) ->
     exists b' slots,
       EndVector start num b = Ok (len (back b')) b' /\
       back b' = le_bytes 4 num ++ slots ++ back b /\
       le_value (firstn 4 (back b')) = num mod 2 ^ 32 /\
       (num < 2 ^ 32 -> le_value (firstn 4 (back b')) = num) /\
       (start = len (front b) -> slots = [] /\ front b' = front b)).
Proof.
  split.
  - unfold EndVector, bind, FrontSize, ret. cbn [Z.to_nat EndVector_loop Z.eqb].
    unfold ret. now destruct (negb (start =? len (front b))).
  - intros num Hnum Hfront.
    assert (Hz : (num =? 0) = false) by (apply Z.eqb_neq; lia).
    assert (Hv : forall k, le_value (firstn 4 (le_bytes 4 num ++ k)) = num mod 2 ^ 32)
      by (intro k; now rewrite firstn4_le_bytes, le_value_le_bytes4).
    destruct (Z.eq_dec start (len (front b))) as [He|Hne].
    + exists (mkBuffer (front b) (le_bytes 4 num ++ back b)), [].
      cbn [front back app].
      split; [|split; [reflexivity|split; [apply Hv|split]]].
      * unfold EndVector, bind, FrontSize, ret.
        rewrite He, Z.eqb_refl. cbn [negb]. rewrite Hz.
        run. now rewrite le_bytes4_wrap.
      * intro Hlt. rewrite Hv. apply Z.mod_small. lia.
      * intros _. split; reflexivity.
    + destruct Hfront as [Hs|Hroom]; [contradiction|].
      destruct (EndVector_loop_run (Z.to_nat num) b)
        as (b1 & slots & H1 & H2 & H3 & H4 & H5); [lia|].
      exists (mkBuffer (front b1) (le_bytes 4 num ++ back b1)), slots.
      cbn [front back].
      split; [|split; [now rewrite H4|split; [apply Hv|split]]].
      * unfold EndVector. unfold bind at 1. unfold FrontSize at 1.
        replace (start =? len (front b)) with false
          by (symmetry; now apply Z.eqb_neq).
        cbn [negb]. rewrite (bind_Ok _ _ _ _ _ H1). rewrite Hz.
        run. now rewrite le_bytes4_wrap.
      * intro Hlt. rewrite Hv. apply Z.mod_small. lia.
      * intro Hs. contradiction.
Qed.

Lemma EndVector_count_witness :
  exists b',
    EndVector 0 3 (mkBuffer [] [x0a; x14; x1e]) = Ok (len (back b')) b' /\
    le_value (firstn 4 (back b')) = 3 /\
    back b' = [x03; x00; x00; x00; x0a; x14; x1e].
Proof.
  destruct (proj2 (EndVector_count 0 (mkBuffer [] [x0a; x14; x1e])) 3)
    as (b' & slots & H1 & H2 & H3 & H4 & H5); [lia | left; reflexivity |].
  exists b'. split; [exact H1|]. split; [apply H4; lia|].
  destruct H5 as [Hs _]; [reflexivity|]. rewrite H2, Hs. reflexivity.
Defined.

(** ** Alignment of inline values *)

Section AlignFacts.

Lemma buffer_eta (b : InwardBuffer) : mkBuffer (front b) (back b) = b.
Proof. now destruct b. Qed.

Lemma repeat_snoc {A} (x : A) (n : nat) (l : list A) :
  repeat x n ++ x :: l = repeat x (S n) ++ l.
Proof.
  induction n as [|n IH]; [reflexivity|].
  cbn [repeat app] in *. now rewrite IH.
Qed.

(** The number of padding bytes [Prealign] writes. *)
Lemma padding_step (n a : Z) :
  0 < a -> n mod a <> 0 -> (- (n + 1)) mod a = (- n) mod a - 1.
Proof.
  intros Ha Hn.
  rewrite (Z.mod_opp_l_nz n a) by lia.
  pose proof (Z.mod_pos_bound n a Ha) as Hb.
  symmetry. apply (Z.mod_unique_pos _ _ (- (n / a) - 1)); [lia|].
  pose proof (Z.div_mod n a ltac:(lia)). nia.
Qed.

Lemma Prealign_loop_run (a : Z) (fuel : nat) (b : InwardBuffer) :
  0 < a ->
  (Z.to_nat ((- len (back b)) mod a) <= fuel)%nat ->
  Prealign_loop fuel a b
  = Ok tt (mkBuffer (front b)
             (repeat x00 (Z.to_nat ((- len (back b)) mod a)) ++ back b)).
Proof.
  intro Ha. revert b. induction fuel as [|fuel IH]; intros b Hfuel.
  - cbn [Prealign_loop]. replace (a =? 0) with false by (symmetry; apply Z.eqb_neq; lia).
    unfold bind, BackSize, ret.
    destruct (len (back b) mod a =? 0) eqn:E.
    + apply Z.eqb_eq in E. rewrite Z.mod_opp_l_z by lia.
      cbn. now rewrite buffer_eta.
    + apply Z.eqb_neq in E. rewrite Z.mod_opp_l_nz in Hfuel by lia.
      pose proof (Z.mod_pos_bound (len (back b)) a Ha). lia.
  - cbn [Prealign_loop]. replace (a =? 0) with false by (symmetry; apply Z.eqb_neq; lia).
    unfold bind at 1. unfold BackSize at 1.
    destruct (len (back b) mod a =? 0) eqn:E.
    + apply Z.eqb_eq in E. rewrite Z.mod_opp_l_z by lia.
      cbn. now rewrite buffer_eta.
    + apply Z.eqb_neq in E. cbn [negb].
      unfold bind, WriteBack. cbn [front back].
      change (le_bytes 1 0) with [x00]. cbn [app].
      pose proof (padding_step (len (back b)) a Ha E) as Hstep.
      pose proof (Z.mod_pos_bound (- (len (back b) + 1)) a Ha) as Hb.
      assert (Hl : len (x00 :: back b) = len (back b) + 1)
        by (unfold len; cbn [length]; lia).
      rewrite IH; cbn [front back]; rewrite Hl.
      * do 2 f_equal. rewrite repeat_snoc. f_equal. f_equal. lia.
      * lia.
Qed.

Lemma Prealign_run (a : Z) (b : InwardBuffer) :
  0 < a ->
  Prealign a b
  = Ok tt (mkBuffer (front b)
             (repeat x00 (Z.to_nat ((- len (back b)) mod a)) ++ back b)).
Proof.
  intro Ha. unfold Prealign. apply Prealign_loop_run; [exact Ha|].
  pose proof (Z.mod_pos_bound (- len (back b)) a Ha). lia.
Qed.

Lemma padded_len (n a : Z) : 0 < a -> 0 <= n -> (n + (- n) mod a) mod a = 0.
Proof.
  intros Ha Hn.
  rewrite Z.add_mod_idemp_r by lia.
  replace (n + - n) with 0 by lia. now apply Z.mod_0_l; lia.
Qed.

Lemma AddValueField_run (index : Z) (value : object) (b : InwardBuffer) :
  0 < alignof value ->
  let bk := bytes value
            ++ repeat x00 (Z.to_nat ((- len (back b)) mod alignof value))
            ++ back b in
  AddValueField index value b
  = Ok tt (mkBuffer
             (front b ++ Field_bytes (mkField (wrap 16 index)
                                              (wrap 8 (sizeof value))
                                              (wrap 8 (alignof value))
                                              (wrap 32 (len bk))))
             bk).
Proof.
  intros Ha bk. unfold AddValueField.
  rewrite (bind_Ok _ _ _ _ _ (Prealign_run _ _ Ha)).
  run. reflexivity.
Qed.

Lemma AddValueField_sized_run (index size align : Z) (b : InwardBuffer) :
  0 < align ->
  let bk := repeat x00 (Z.to_nat size)
            ++ repeat x00 (Z.to_nat ((- len (back b)) mod align))
            ++ back b in
  AddValueField_sized index size align b
  = Ok (len bk)
       (mkBuffer
          (front b ++ Field_bytes (mkField (wrap 16 index) (wrap 8 size)
                                           (wrap 8 align) (wrap 32 (len bk))))
          bk).
Proof.
  intros Ha bk. unfold AddValueField_sized.
  rewrite (bind_Ok _ _ _ _ _ (Prealign_run _ _ Ha)).
  run. reflexivity.
Qed.

End AlignFacts.


(** ** Vectors of inline values *)

Section VectorValueFacts.

Lemma for_each_app {A} (l k : list A) (body : A -> M unit) (b : InwardBuffer) :
  for_each (l ++ k) body b = (for_each l body;; for_each k body) b.
Proof.
  revert b. induction l as [|x l IH]; intro b; cbn [app for_each].
  - reflexivity.
  - unfold bind. destruct (body x b) as [[] b1|e]; [|reflexivity].
    rewrite IH. reflexivity.
Qed.

(** Writing the elements last to first leaves them first to last. *)
Lemma reversed_writes {A} (enc : A -> list byte) (l : list A) (b : InwardBuffer) :
  for_each (rev l) (fun x => WriteBack (enc x)) b
  = Ok tt (mkBuffer (front b) (concat (map enc l) ++ back b)).
Proof.
  revert b. induction l as [|x l IH]; intro b.
  - cbn. now rewrite buffer_eta.
  - cbn [rev]. rewrite for_each_app, (bind_Ok _ _ _ _ _ (IH b)).
    cbn [for_each map concat]. unfold bind, WriteBack, ret. cbn [front back].
    now rewrite <- app_assoc.
Qed.

Lemma vector_element_concat {A} (enc : A -> list byte) (w : nat) (l : list A)
      (d : A) (k : list byte) (i : nat) :
  Forall (fun x => length (enc x) = w) l ->
  (i < length l)%nat ->
  vector_element w i (concat (map enc l) ++ k) = enc (nth i l d).
Proof.
  unfold vector_element. intro Hall. revert i.
  induction Hall as [|x l Hx Hl IH]; intros i Hi; cbn [length] in Hi; [lia|].
  cbn [map concat]. rewrite <- app_assoc.
  destruct i as [|i].
  - cbn [Nat.mul skipn nth]. rewrite <- Hx. apply firstn_length_app.
  - cbn [nth]. replace (S i * w)%nat with (i * w + length (enc x))%nat by lia.
    rewrite <- skipn_skipn, skipn_length_app. apply IH. lia.
Qed.

Lemma EndVector_no_refs (b : InwardBuffer) (num : Z) :
  EndVector (len (front b)) num b
  = if num =? 0 then Ok 0 b
    else Ok (len (le_bytes 4 num ++ back b))
            (mkBuffer (front b) (le_bytes 4 num ++ back b)).
Proof.
  unfold EndVector, bind, FrontSize. rewrite Z.eqb_refl. cbn [negb].
  unfold ret. destruct (num =? 0); [reflexivity|].
  run. now rewrite le_bytes4_wrap.
Qed.

(** A vector of inline values: the elements, then the count, then the
    reference field. *)
Lemma vector_of_values_run {A} (enc : A -> list byte) (value : list A)
      (offset : Z) (b : InwardBuffer) :
  let bk := (if (len value =? 0) then [] else le_bytes 4 (len value))
            ++ concat (map enc value) ++ back b in
  (start <- StartVector;;
   for_each (rev value) (fun x => WriteBack (enc x));;
   reference <- EndVector start (len value);;
   AddReferenceField (offset / 2) reference) b
  = Ok tt (mkBuffer
             (front b ++ Field_bytes
                (mkField (wrap 16 (offset / 2)) 0 0
                   (wrap 32 (if len value =? 0 then 0 else len bk))))
             bk).
Proof.
  intro bk. unfold StartVector. unfold bind at 1. unfold FrontSize at 1.
  rewrite (bind_Ok _ _ _ _ _ (reversed_writes enc value b)).
  pose proof (EndVector_no_refs
                (mkBuffer (front b) (concat (map enc value) ++ back b))
                (len value)) as E.
  cbn [front back] in E. subst bk.
  destruct (len value =? 0); rewrite (bind_Ok _ _ _ _ _ E); reflexivity.
Qed.

End VectorValueFacts.

(** C7.  [VectorOfScalars] and [VectorOfStructs] write the elements from the
    last to the first; read forward, the finished vector holds the count and
    then the elements in input order: element [i] of the encoded vector is
    the representation of element [i] of the input. *)
Theorem vector_keeps_order (offset : Z) (b : InwardBuffer) :
  (forall (w : nat) (value : list Z),
     exists b',
       VectorOfScalars w value offset b = Ok tt b' /\
       forall i : nat,
         (i < length value)%nat ->
         back b' = le_bytes 4 (len value) ++ concat (map (le_bytes w) value)
                   ++ back b /\
         vector_element w i (skipn 4 (back b')) = le_bytes w (nth i value 0) /\
         le_value (vector_element w i (skipn 4 (back b')))
         = wrap (8 * Z.of_nat w) (nth i value 0)) /\
  (forall (w : nat) (value : list object) (d : object),
     Forall (fun t => length (bytes t) = w) value ->
     exists b',
       VectorOfStructs value offset b = Ok tt b' /\
       forall i : nat,
         (i < length value)%nat ->
         back b' = le_bytes 4 (len value) ++ concat (map bytes value)
                   ++ back b /\
         vector_element w i (skipn 4 (back b')) = bytes (nth i value d)).
Proof.
  assert (Hne : forall A (l : list A) i, (i < length l)%nat -> (len l =? 0) = false).
  { intros A l i Hi. apply Z.eqb_neq. unfold len. lia. }
  split.
  - intros w value.
    eexists (mkBuffer _ _). split.
    + unfold VectorOfScalars, AddVectorValue, scalar. cbn [bytes].
      apply (vector_of_values_run (le_bytes w) value offset b).
    + intros i Hi. cbn [back]. rewrite (Hne _ _ _ Hi).
      split; [reflexivity|].
      change (skipn 4 (le_bytes 4 (len value) ++ ?k)) with k.
      assert (Hel : vector_element w i (concat (map (le_bytes w) value) ++ back b)
                    = le_bytes w (nth i value 0)).
      { apply vector_element_concat; [|exact Hi].
        apply Forall_forall. intros x _. apply length_le_bytes. }
      cbn [le_bytes app skipn]. rewrite Hel.
      split; [reflexivity|]. apply le_value_le_bytes.
  - intros w value d Hall.
    eexists (mkBuffer _ _). split.
    + unfold VectorOfStructs, AddVectorValue.
      apply (vector_of_values_run bytes value offset b).
    + intros i Hi. cbn [back]. rewrite (Hne _ _ _ Hi).
      split; [reflexivity|].
      cbn [le_bytes app skipn].
      now apply vector_element_concat.
Qed.

Lemma vector_keeps_order_witness :
  exists b',
    VectorOfScalars 2 [10; 20; 30] 4 (mkBuffer [] []) = Ok tt b' /\
    back b' = [x03; x00; x00; x00; x0a; x00; x14; x00; x1e; x00] /\
    le_value (vector_element 2 1 (skipn 4 (back b'))) = 20.
Proof.
  destruct (proj1 (vector_keeps_order 4 (mkBuffer [] [])) 2%nat [10; 20; 30])
    as (b' & H1 & H2).
  exists b'. split; [exact H1|].
  destruct (H2 1%nat) as (H3 & H4 & H5); [cbn; lia|].
  split; [exact H3|exact H5].
Defined.

(** ** Unions and the top-level call *)

(** C8.  [Union] records the discriminant as an inline value at slot
    [(offset - 2) / 2]; for discriminant 0 it then records a null reference
    at slot [offset / 2], otherwise it builds the active variant as a nested
    table and records the position [EndTable] returned as the reference at
    slot [offset / 2]. *)
Theorem Union_fields (type : object) (SerializeFlatbuffer : Z -> M unit)
    (offset default_type_value : Z) (b : InwardBuffer) :
  2 <= offset < 2 ^ 16 ->
  0 < alignof type ->
  exists b1 pad,
    AddValueField ((offset - 2) / 2) type b = Ok tt b1 /\
    back b1 = bytes type ++ repeat x00 pad ++ back b /\
    front b1 = front b ++ Field_bytes
                 (mkField ((offset - 2) / 2) (wrap 8 (sizeof type))
                          (wrap 8 (alignof type)) (wrap 32 (len (back b1)))) /\
    (le_value (bytes type) = 0 ->
     Union type SerializeFlatbuffer offset default_type_value b
     = Ok tt (mkBuffer (front b1 ++ Field_bytes (mkField (offset / 2) 0 0 0))
                       (back b1))) /\
    (le_value (bytes type) <> 0 ->
     forall (reference : Z) (b2 : InwardBuffer),
       (start <- StartTable;;
        SerializeFlatbuffer (le_value (bytes type));;
        EndTable start) b1 = Ok reference b2 ->
       Union type SerializeFlatbuffer offset default_type_value b
       = Ok tt (mkBuffer
                  (front b2 ++ Field_bytes
                     (mkField (offset / 2) 0 0 (wrap 32 reference)))
                  (back b2))).
Proof.
  intros Hoff Ha.
  assert (Hslot : wrap 16 (offset / 2) = offset / 2).
  { apply wrap_small. split; [apply Z.div_pos; lia|].
    apply Z.div_lt_upper_bound; lia. }
  assert (Htype : wrap 16 (offset - 2) = offset - 2)
    by (apply wrap_small; lia).
  assert (Htslot : wrap 16 ((offset - 2) / 2) = (offset - 2) / 2).
  { apply wrap_small. split; [apply Z.div_pos; lia|].
    apply Z.div_lt_upper_bound; lia. }
  pose proof (AddValueField_run ((offset - 2) / 2) type b Ha) as Hadd.
  cbv zeta in Hadd. rewrite Htslot in Hadd.
  eexists (mkBuffer _ _), _. cbn [front back].
  split; [exact Hadd|]. split; [reflexivity|]. split; [reflexivity|].
  split.
  - intro Hz. unfold Union. rewrite Htype, (bind_Ok _ _ _ _ _ Hadd), Hz.
    cbn [Z.eqb]. run. rewrite Hslot. reflexivity.
  - intros Hnz reference b2 Hbuild. unfold Union.
    rewrite Htype, (bind_Ok _ _ _ _ _ Hadd).
    replace (le_value (bytes type) =? 0) with false
      by (symmetry; now apply Z.eqb_neq).
    unfold bind in Hbuild |- *.
    destruct (StartTable _) as [start b3|e]; [|discriminate].
    destruct (SerializeFlatbuffer _ b3) as [[] b4|e]; [|discriminate].
    rewrite Hbuild. run. rewrite Hslot. reflexivity.
Qed.

Lemma Union_fields_witness :
  (exists b',
     Union (scalar 1 0) (fun _ => ret tt) 6 0 (mkBuffer [] []) = Ok tt b' /\
     front b' = Field_bytes (mkField 2 1 1 1) ++ Field_bytes (mkField 3 0 0 0)) /\
  (exists b',
     Union (scalar 1 1) (fun t => Scalar (scalar 2 t) 4 0) 6 0 (mkBuffer [] [])
     = Ok tt b' /\
     front b' = Field_bytes (mkField 2 1 1 1) ++ Field_bytes (mkField 3 0 0 8)).
Proof.
  split.
  - destruct (Union_fields (scalar 1 0) (fun _ => ret tt) 6 0 (mkBuffer [] []))
      as (b1 & pad & H1 & H2 & H3 & H4 & _); [lia | cbn; lia |].
    vm_compute in H1. injection H1 as <-.
    eexists. split; [apply H4; reflexivity|]. reflexivity.
  - destruct (Union_fields (scalar 1 1) (fun t => Scalar (scalar 2 t) 4 0) 6 0
                (mkBuffer [] []))
      as (b1 & pad & H1 & H2 & H3 & _ & H5); [lia | cbn; lia |].
    vm_compute in H1. injection H1 as <-.
    eexists. split.
    + apply (H5 ltac:(discriminate) 8
               (mkBuffer [x02; x00; x01; x01; x01; x00; x00; x00]
                         [x06; x00; x02; x00; x04; x00; x06; x00; x00; x00;
                          x01; x00; x00; x01])).
      vm_compute. reflexivity.
    + reflexivity.
Defined.

(** ** The ledger of a table *)

Section LedgerFacts.

Lemma ledger_bytes_cons (f : Field) (fs : list Field) :
  ledger_bytes (f :: fs) = Field_bytes f ++ ledger_bytes fs.
Proof. reflexivity. Qed.

Lemma len_Field_bytes (f : Field) : len (Field_bytes f) = 8.
Proof. reflexivity. Qed.

Lemma len_cons {A} (x : A) (l : list A) : len (x :: l) = 1 + len l.
Proof. unfold len. cbn [length]. lia. Qed.

Lemma len_ledger_bytes (fs : list Field) : len (ledger_bytes fs) = 8 * len fs.
Proof.
  induction fs as [|f fs IH]; [reflexivity|].
  rewrite ledger_bytes_cons, len_app, IH, len_Field_bytes, len_cons. lia.
Qed.

Lemma LoadField_ledger (p rest k : list byte) (f : Field) :
  Field_ok f ->
  LoadField (len p) (mkBuffer (p ++ Field_bytes f ++ rest) k)
  = Ok f (mkBuffer (p ++ Field_bytes f ++ rest) k).
Proof.
  intro Hok. rewrite LoadField_at by reflexivity.
  now rewrite Field_of_bytes_Field_bytes.
Qed.

(** The store to [field->offset]. *)
Lemma StoreFront_offset (p rest k : list byte) (f : Field) (v : Z) :
  StoreFront (len p + 4) (le_bytes 4 v) (mkBuffer (p ++ Field_bytes f ++ rest) k)
  = Ok tt (mkBuffer
             (p ++ Field_bytes (mkField (index f) (size f) (align f) v) ++ rest)
             k).
Proof.
  unfold StoreFront. cbn [front back].
  set (h := le_bytes 2 (index f) ++ le_bytes 1 (size f) ++ le_bytes 1 (align f)).
  assert (Hf : forall o, Field_bytes (mkField (index f) (size f) (align f) o)
                         = h ++ le_bytes 4 o) by reflexivity.
  assert (Hf0 : Field_bytes f = h ++ le_bytes 4 (offset f))
    by (destruct f; reflexivity).
  rewrite Hf0, Hf, <- !app_assoc.
  replace (len p + 4) with (len (p ++ h)) by (rewrite len_app; reflexivity).
  rewrite !(app_assoc p h).
  now rewrite (write_bytes_at (p ++ h) (le_bytes 4 (offset f)) (le_bytes 4 v)).
Qed.

Lemma finalize_field_ok (f : Field) (bk : list byte) :
  Field_ok f -> Field_ok (fst (finalize_field f bk)).
Proof.
  intro Hok. unfold finalize_field.
  destruct (absent f); [exact Hok|].
  destruct (size f =? 0); [|exact Hok].
  cbn [fst]. destruct Hok as (Hi & Hs & Ha & Ho).
  repeat split; cbn [index size align offset]; try lia;
    apply (wrap_range 32); lia.
Qed.

Lemma finalize_field_index (f : Field) (bk : list byte) :
  index (fst (finalize_field f bk)) = index f.
Proof.
  unfold finalize_field.
  destruct (absent f); [reflexivity|]. now destruct (size f =? 0).
Qed.

Lemma Field_bytes_wrap_offset (i s a o : Z) :
  Field_bytes (mkField i s a (wrap 32 o)) = Field_bytes (mkField i s a o).
Proof.
  unfold Field_bytes. cbn [index size align offset].
  now rewrite (le_bytes4_wrap o).
Qed.

(** One turn of the loop of [WriteTable]. *)
Lemma WriteTable_body_run (p rest bk : list byte) (f : Field) (acc : TableSizes) :
  Field_ok f ->
  WriteTable_body (len p) acc (mkBuffer (p ++ Field_bytes f ++ rest) bk)
  = Ok (mkSizes (Z.max (max_field acc) (index f))
                (object_size acc + object_bytes f))
       (mkBuffer (p ++ Field_bytes (fst (finalize_field f bk)) ++ rest)
                 (snd (finalize_field f bk))).
Proof.
  intro Hok. unfold WriteTable_body.
  rewrite (bind_Ok _ _ _ _ _ (LoadField_ledger p rest bk f Hok)).
  unfold finalize_field, object_bytes, absent.
  destruct (size f =? 0) eqn:Es; destruct (offset f =? 0) eqn:Eo;
    cbn [andb fst snd].
  - unfold ret. now rewrite Z.add_0_r.
  - rewrite (bind_Ok _ _ _ _ _ (WriteReference_run _ _)). cbn [front back].
    unfold bind at 1. unfold BackSize at 1. cbn [back].
    rewrite (le_bytes4_wrap (len (le_bytes 4 (len bk + 4 - offset f) ++ bk))).
    rewrite (bind_Ok _ _ _ _ _ (StoreFront_offset _ _ _ _ _)).
    unfold ret. now rewrite Field_bytes_wrap_offset.
  - reflexivity.
  - reflexivity.
Qed.

Lemma fold_object_bytes (fs : list Field) (o : Z) :
  fold_left (fun a f => a + object_bytes f) fs o = o + table_object_size fs.
Proof.
  unfold table_object_size. revert o.
  induction fs as [|f fs IH]; intro o; cbn [fold_left]; [lia|].
  rewrite IH, (IH (0 + _)). lia.
Qed.

(** The loop of [WriteTable] over the records of a ledger. *)
Lemma WriteTable_loop_run (fs : list Field) :
  forall (p rest bk : list byte) (acc : TableSizes) (fuel : nat),
    Forall Field_ok fs ->
    (length fs <= fuel)%nat ->
    for_range fuel (len p) (len p + 8 * len fs) sizeof_Field WriteTable_body acc
      (mkBuffer (p ++ ledger_bytes fs ++ rest) bk)
    = Ok (mkSizes (fold_left (fun a f => Z.max a (index f)) fs (max_field acc))
                  (fold_left (fun a f => a + object_bytes f) fs (object_size acc)))
         (mkBuffer (p ++ ledger_bytes (fst (finalize fs bk)) ++ rest)
                   (snd (finalize fs bk))).
Proof.
  induction fs as [|f fs IH]; intros p rest bk acc fuel Hok Hfuel.
  - destruct fuel; cbn [for_range];
      replace (len p <? len p + 8 * len (@nil Field)) with false
        by (symmetry; apply Z.ltb_ge; unfold len; cbn; lia);
      now destruct acc.
  - destruct fuel as [|fuel]; [cbn [length] in Hfuel; lia|].
    inversion Hok as [|? ? Hf Hfs]; subst.
    cbn [for_range].
    replace (len p <? len p + 8 * len (f :: fs)) with true
      by (symmetry; apply Z.ltb_lt; unfold len; cbn [length]; lia).
    rewrite ledger_bytes_cons, <- app_assoc.
    rewrite (bind_Ok _ _ _ _ _ (WriteTable_body_run _ _ _ _ _ Hf)).
    cbn [finalize fold_left].
    destruct (finalize_field f bk) as [f' bk1] eqn:Ef. cbn [fst snd].
    destruct (finalize fs bk1) as [r' bk'] eqn:Er. cbn [fst snd].
    rewrite ledger_bytes_cons, <- app_assoc.
    rewrite !(app_assoc p).
    replace (len p + sizeof_Field) with (len (p ++ Field_bytes f'))
      by (rewrite len_app; reflexivity).
    replace (len p + 8 * len (f :: fs)) with (len (p ++ Field_bytes f') + 8 * len fs)
      by (rewrite len_app, len_Field_bytes; unfold len; cbn [length]; lia).
    rewrite IH; [|exact Hfs|cbn [length] in Hfuel; lia].
    rewrite Er. reflexivity.
Qed.

End LedgerFacts.

(** ** The vtable of a table *)

Section VTableFacts.

Lemma fold_max_field_le (fs : list Field) (m : Z) :
  m <= fold_left (fun a f => Z.max a (index f)) fs m /\
  Forall (fun f => index f <= fold_left (fun a f => Z.max a (index f)) fs m) fs.
Proof.
  revert m. induction fs as [|f fs IH]; intro m; cbn [fold_left].
  - split; [lia|constructor].
  - destruct (IH (Z.max m (index f))) as [H1 H2]. split; [lia|].
    constructor; [lia|exact H2].
Qed.

Lemma fold_max_field_bound (fs : list Field) (m c : Z) :
  m <= c -> Forall (fun f => index f <= c) fs ->
  fold_left (fun a f => Z.max a (index f)) fs m <= c.
Proof.
  revert m. induction fs as [|f fs IH]; intros m Hm Hall; cbn [fold_left].
  - exact Hm.
  - inversion Hall; subst. apply IH; [lia|assumption].
Qed.

Lemma table_max_field_range (fs : list Field) :
  Forall Field_ok fs -> 2 <= table_max_field fs < 2 ^ 16.
Proof.
  intro Hok. unfold table_max_field. split.
  - apply fold_max_field_le.
  - assert (H : fold_left (fun a f => Z.max a (index f)) fs 2 <= 2 ^ 16 - 1);
      [|lia].
    apply fold_max_field_bound; [lia|].
    eapply Forall_impl; [|exact Hok]. intros f (Hi & _). cbn beta. lia.
Qed.

Lemma finalize_front (fs : list Field) (bk : list byte) :
  map index (fst (finalize fs bk)) = map index fs /\
  length (fst (finalize fs bk)) = length fs /\
  (Forall Field_ok fs -> Forall Field_ok (fst (finalize fs bk))).
Proof.
  revert bk. induction fs as [|f fs IH]; intro bk; cbn [finalize].
  - repeat split. intros _. constructor.
  - pose proof (finalize_field_index f bk) as Hi.
    pose proof (finalize_field_ok f bk) as Ho.
    destruct (finalize_field f bk) as [f' bk1]. cbn [fst] in Hi, Ho.
    destruct (IH bk1) as (H1 & H2 & H3).
    destruct (finalize fs bk1) as [r' bk']. cbn [fst map length] in *.
    split; [now rewrite Hi, H1|]. split; [now rewrite H2|].
    intro Hall. inversion Hall; subst. constructor; auto.
Qed.

Lemma WriteTable_run (pre bk : list byte) (fs : list Field) :
  Forall Field_ok fs ->
  WriteTable (len pre) (len pre + 8 * len fs)
    (mkBuffer (pre ++ ledger_bytes fs) bk)
  = Ok (len (snd (finalize fs bk)) + 4, table_object_size fs,
        (table_max_field fs + 1) * 2)
       (mkBuffer (pre ++ ledger_bytes (fst (finalize fs bk)))
                 (le_bytes 4 ((table_max_field fs + 1) * 2)
                  ++ snd (finalize fs bk))).
Proof.
  intro Hok. unfold WriteTable.
  pose proof (WriteTable_loop_run fs pre [] bk (mkSizes 2 0)
                (Z.to_nat (len pre + 8 * len fs - len pre)) Hok) as Hloop.
  rewrite !app_nil_r in Hloop.
  rewrite (bind_Ok _ _ _ _ _ (Hloop ltac:(unfold len; lia))).
  cbn [max_field object_size]. fold (table_max_field fs). fold (table_object_size fs).
  run. rewrite (le_bytes4_wrap ((table_max_field fs + 1) * 2)).
  do 3 f_equal. rewrite len_app, len_le_bytes. lia.
Qed.

Lemma entries_bytes_app (l k : list Z) :
  entries_bytes (l ++ k) = entries_bytes l ++ entries_bytes k.
Proof. unfold entries_bytes. now rewrite map_app, concat_app. Qed.

Lemma len_entries_bytes (vt : list Z) : len (entries_bytes vt) = 2 * len vt.
Proof.
  induction vt as [|v vt IH]; [reflexivity|].
  change (entries_bytes (v :: vt)) with (le_bytes 2 v ++ entries_bytes vt).
  rewrite len_app, len_le_bytes, IH, len_cons. lia.
Qed.

Lemma entries_bytes_zeros (n : nat) :
  entries_bytes (repeat 0 n) = repeat x00 (2 * n).
Proof.
  induction n as [|n IH]; [reflexivity|].
  replace (2 * S n)%nat with (S (S (2 * n))) by lia.
  cbn [repeat]. rewrite <- IH. reflexivity.
Qed.

Lemma StoreBack_same (fr zs bk : list byte) :
  StoreBack (len (zs ++ bk)) 0 zs (mkBuffer fr (zs ++ bk))
  = Ok tt (mkBuffer fr (zs ++ bk)).
Proof.
  unfold StoreBack. cbn [front back].
  replace (len (zs ++ bk) - len (zs ++ bk) + 0) with (len (@nil byte))
    by (unfold len; cbn [length]; lia).
  pose proof (write_bytes_at [] zs zs bk eq_refl) as W.
  cbn [app] in W. now rewrite W.
Qed.

Lemma CreateVTable_run (n : nat) (object_size : Z) (b : InwardBuffer) :
  let vtable_size := 2 * Z.of_nat n + 4 in
  vtable_size < 2 ^ 64 ->
  CreateVTable vtable_size object_size b
  = Ok (len (back b) + (vtable_size - 4))
       (mkBuffer (front b)
          (entries_bytes (initial_vtable vtable_size object_size) ++ back b)).
Proof.
  intros vtable_size Hv. unfold CreateVTable.
  assert (Hsz : size_t (vtable_size - 2 * 2) = 2 * Z.of_nat n).
  { unfold size_t. rewrite wrap_small; subst vtable_size; lia. }
  rewrite Hsz. unfold bind at 1. unfold AllocBack at 1. cbn [front back].
  unfold bind at 1. unfold BackSize at 1. cbn [back].
  replace (Z.to_nat (2 * Z.of_nat n)) with (2 * n)%nat by lia.
  rewrite (bind_Ok _ _ _ _ _ (StoreBack_same _ _ _)).
  run. unfold initial_vtable.
  replace (Z.to_nat ((vtable_size - 4) / 2)) with n
    by (subst vtable_size;
        replace (2 * Z.of_nat n + 4 - 4) with (Z.of_nat n * 2) by lia;
        rewrite Z.div_mul by lia; lia).
  change (entries_bytes (wrap 16 vtable_size :: wrap 16 object_size :: repeat 0 n))
    with (le_bytes 2 (wrap 16 vtable_size) ++ le_bytes 2 (wrap 16 object_size)
          ++ entries_bytes (repeat 0 n)).
  rewrite entries_bytes_zeros, <- !app_assoc.
  do 2 f_equal. rewrite len_app, len_repeat. lia.
Qed.

Lemma set_entry_length (k : nat) (v : Z) (vt : list Z) :
  (k < length vt)%nat -> length (set_entry k v vt) = length vt.
Proof.
  intro H. unfold set_entry.
  rewrite length_app, length_firstn. cbn [length]. rewrite length_skipn. lia.
Qed.

Lemma nth_set_entry (k j : nat) (v : Z) (vt : list Z) :
  (k < length vt)%nat ->
  nth j (set_entry k v vt) 0 = if Nat.eqb j k then v else nth j vt 0.
Proof.
  intro H. unfold set_entry.
  assert (Hk : length (firstn k vt) = k) by (rewrite length_firstn; lia).
  destruct (Nat.eqb j k) eqn:E.
  - apply Nat.eqb_eq in E. subst j.
    rewrite app_nth2 by lia. rewrite Hk, Nat.sub_diag. reflexivity.
  - apply Nat.eqb_neq in E.
    destruct (Nat.lt_ge_cases j k) as [Hlt|Hge].
    + rewrite app_nth1 by lia. 
      rewrite <- (firstn_skipn k vt) at 2. now rewrite app_nth1 by lia.
    + rewrite app_nth2 by lia. rewrite Hk.
      destruct (j - k)%nat as [|d] eqn:Ed; [lia|]. cbn [nth].
      rewrite nth_skipn. f_equal. lia.
Qed.

Lemma split_at {A} (k : nat) (l : list A) :
  (k < length l)%nat ->
  exists p x t, l = p ++ x :: t /\ length p = k.
Proof.
  intro H. exists (firstn k l).
  destruct (skipn k l) as [|x t] eqn:E.
  - apply (f_equal (@length A)) in E. rewrite length_skipn in E.
    cbn [length] in E. lia.
  - exists x, t. split; [|rewrite length_firstn; lia].
    now rewrite <- E, firstn_skipn.
Qed.

Lemma set_entry_at (p t : list Z) (x v : Z) :
  set_entry (length p) v (p ++ x :: t) = p ++ v :: t.
Proof.
  unfold set_entry. rewrite firstn_length_app. f_equal. f_equal.
  change (S (length p)) with (1 + length p)%nat.
  now rewrite <- skipn_skipn, skipn_length_app.
Qed.

Lemma write_entry (vt : list Z) (rest : list byte) (k : nat) (v : Z) :
  (k < length vt)%nat ->
  write_bytes (entries_bytes vt ++ rest) (2 * Z.of_nat k) (le_bytes 2 v)
  = Some (entries_bytes (set_entry k v vt) ++ rest).
Proof.
  intro Hk. destruct (split_at k vt Hk) as (p & x & t & -> & <-).
  rewrite set_entry_at.
  change (x :: t) with ([x] ++ t). change (v :: t) with ([v] ++ t).
  rewrite !entries_bytes_app, <- !app_assoc.
  change (entries_bytes [x]) with (le_bytes 2 x ++ []).
  change (entries_bytes [v]) with (le_bytes 2 v ++ []).
  rewrite <- !app_assoc. cbn [app].
  replace (2 * Z.of_nat (length p)) with (len (entries_bytes p))
    by (rewrite len_entries_bytes; reflexivity).
  now apply write_bytes_at.
Qed.

(** The store [offsets[index - 2] = offset] lands on entry [index]. *)
Lemma StoreBack_entry (fr rest : list byte) (vt : list Z) (k v : Z) :
  0 <= k < len vt ->
  StoreBack (len rest + 2 * len vt - 4) (2 * (k - 2)) (le_bytes 2 v)
    (mkBuffer fr (entries_bytes vt ++ rest))
  = Ok tt (mkBuffer fr (entries_bytes (set_entry (Z.to_nat k) v vt) ++ rest)).
Proof.
  intro Hk. unfold StoreBack. cbn [front back].
  replace (len (entries_bytes vt ++ rest) - (len rest + 2 * len vt - 4)
           + 2 * (k - 2))
    with (2 * Z.of_nat (Z.to_nat k))
    by (rewrite len_app, len_entries_bytes; lia).
  rewrite write_entry; [reflexivity|]. unfold len in Hk. lia.
Qed.

End VTableFacts.

Section UpdateFacts.

Variable root : Z.

Lemma vtable_updates_length (fs : list Field) (vt : list Z) :
  slots_within (len vt) fs ->
  length (vtable_updates root fs vt) = length vt.
Proof.
  revert vt. induction fs as [|f fs IH]; intros vt Hin; [reflexivity|].
  inversion Hin as [|? ? Hf Hfs]; subst. cbn [vtable_updates].
  destruct (offset f =? 0); [now apply IH|].
  assert (Hl : length (set_entry (Z.to_nat (index f)) (wrap 16 (root - offset f)) vt)
               = length vt)
    by (apply set_entry_length; unfold len in Hf; lia).
  rewrite IH; [exact Hl|]. unfold slots_within, len in *. now rewrite Hl.
Qed.

(** Entries of slots that no present record names are left alone. *)
Lemma vtable_updates_other (fs : list Field) (vt : list Z) (k : nat) :
  slots_within (len vt) fs ->
  (forall g, In g fs -> index g = Z.of_nat k -> offset g = 0) ->
  nth k (vtable_updates root fs vt) 0 = nth k vt 0.
Proof.
  revert vt. induction fs as [|f fs IH]; intros vt Hin Hk; [reflexivity|].
  inversion Hin as [|? ? Hf Hfs]; subst. cbn [vtable_updates].
  assert (Hk' : forall g, In g fs -> index g = Z.of_nat k -> offset g = 0)
    by (intros g Hg; apply Hk; now right).
  destruct (offset f =? 0) eqn:E; [now apply IH|].
  apply Z.eqb_neq in E.
  assert (Hn : (Z.to_nat (index f) < length vt)%nat) by (unfold len in Hf; lia).
  rewrite IH; [| |exact Hk'].
  - rewrite nth_set_entry by exact Hn.
    destruct (Nat.eqb k (Z.to_nat (index f))) eqn:Ek; [|reflexivity].
    apply Nat.eqb_eq in Ek. exfalso. apply E, Hk; [now left|lia].
  - unfold slots_within, len in *. now rewrite set_entry_length.
Qed.

(** The entry of a present record that alone names its slot. *)
Lemma vtable_updates_present (fs : list Field) (vt : list Z) (f : Field) :
  slots_within (len vt) fs ->
  NoDup (map index fs) ->
  In f fs -> offset f <> 0 ->
  nth (Z.to_nat (index f)) (vtable_updates root fs vt) 0
  = wrap 16 (root - offset f).
Proof.
  revert vt. induction fs as [|g fs IH]; intros vt Hin Hnd Hf Ho; [contradiction|].
  inversion Hin as [|? ? Hg Hfs]; subst.
  inversion Hnd as [|? ? Hnotin Hnd']; subst.
  cbn [vtable_updates].
  destruct Hf as [->|Hf].
  - replace (offset f =? 0) with false by (symmetry; now apply Z.eqb_neq).
    assert (Hn : (Z.to_nat (index f) < length vt)%nat) by (unfold len in Hg; lia).
    rewrite vtable_updates_other.
    + rewrite nth_set_entry by exact Hn. now rewrite Nat.eqb_refl.
    + unfold slots_within, len in *. now rewrite set_entry_length.
    + intros g Hgin Hidx. exfalso. apply Hnotin.
      apply in_map_iff. exists g. split; [lia|exact Hgin].
  - destruct (offset g =? 0); [now apply IH|].
    apply IH; try assumption.
    unfold slots_within, len in *.
    rewrite set_entry_length; [exact Hfs|lia].
Qed.

Lemma UpdateVTable_body_run (p rest bkrest : list byte) (vt : list Z) (f : Field) :
  Field_ok f ->
  0 <= index f < len vt ->
  UpdateVTable_body root (len bkrest + 2 * len vt - 4) (len p) tt
    (mkBuffer (p ++ Field_bytes f ++ rest) (entries_bytes vt ++ bkrest))
  = Ok tt (mkBuffer (p ++ Field_bytes f ++ rest)
             (entries_bytes (vtable_updates root [f] vt) ++ bkrest)).
Proof.
  intros Hok Hidx. unfold UpdateVTable_body.
  rewrite (bind_Ok _ _ _ _ _ (LoadField_ledger p rest _ f Hok)).
  cbn [vtable_updates]. destruct (offset f =? 0); [reflexivity|].
  rewrite wrap_size_t by lia.
  now rewrite StoreBack_entry by exact Hidx.
Qed.

(** The loop of [UpdateVTable] over the records of a ledger. *)
Lemma UpdateVTable_loop_run (fs : list Field) :
  forall (p rest bkrest : list byte) (vt : list Z) (fuel : nat),
    Forall Field_ok fs ->
    slots_within (len vt) fs ->
    (length fs <= fuel)%nat ->
    for_range fuel (len p) (len p + 8 * len fs) sizeof_Field
      (UpdateVTable_body root (len bkrest + 2 * len vt - 4)) tt
      (mkBuffer (p ++ ledger_bytes fs ++ rest) (entries_bytes vt ++ bkrest))
    = Ok tt (mkBuffer (p ++ ledger_bytes fs ++ rest)
               (entries_bytes (vtable_updates root fs vt) ++ bkrest)).
Proof.
  induction fs as [|f fs IH]; intros p rest bkrest vt fuel Hok Hin Hfuel.
  - destruct fuel; cbn [for_range];
      replace (len p <? len p + 8 * len (@nil Field)) with false
        by (symmetry; apply Z.ltb_ge; unfold len; cbn; lia);
      reflexivity.
  - destruct fuel as [|fuel]; [cbn [length] in Hfuel; lia|].
    inversion Hok as [|? ? Hf Hfs]; subst.
    inversion Hin as [|? ? Hi His]; subst.
    cbn [for_range].
    replace (len p <? len p + 8 * len (f :: fs)) with true
      by (symmetry; apply Z.ltb_lt; rewrite len_cons; pose proof (len_nonneg fs); lia).
    rewrite ledger_bytes_cons, <- app_assoc.
    rewrite (bind_Ok _ _ _ _ _ (UpdateVTable_body_run _ _ _ _ _ Hf Hi)).
    cbn [vtable_updates].
    set (vt1 := if offset f =? 0 then vt
                else set_entry (Z.to_nat (index f)) (wrap 16 (root - offset f)) vt).
    assert (Hl : len vt1 = len vt).
    { subst vt1. destruct (offset f =? 0); [reflexivity|].
      unfold len. rewrite set_entry_length; [reflexivity|unfold len in Hi; lia]. }
    rewrite !(app_assoc p).
    replace (len p + sizeof_Field) with (len (p ++ Field_bytes f))
      by (rewrite len_app; reflexivity).
    replace (len p + 8 * len (f :: fs)) with (len (p ++ Field_bytes f) + 8 * len fs)
      by (rewrite len_app, len_Field_bytes, len_cons; lia).
    rewrite <- Hl. apply IH; [exact Hfs| |cbn [length] in Hfuel; lia].
    unfold slots_within. now rewrite Hl.
Qed.

End UpdateFacts.

Section EndTableFacts.

Lemma length_entries_bytes (vt : list Z) :
  length (entries_bytes vt) = (2 * length vt)%nat.
Proof. pose proof (len_entries_bytes vt) as H. unfold len in H. lia. Qed.

Lemma vtable_entry_at (vt : list Z) (rest : list byte) (k : nat) :
  (k < length vt)%nat ->
  vtable_entry (Z.of_nat k) (entries_bytes vt ++ rest) = wrap 16 (nth k vt 0).
Proof.
  intro Hk. destruct (split_at k vt Hk) as (p & x & t & -> & <-).
  rewrite nth_middle. unfold vtable_entry.
  change (x :: t) with ([x] ++ t).
  rewrite !entries_bytes_app, <- !app_assoc.
  replace (Z.to_nat (2 * Z.of_nat (length p))) with (length (entries_bytes p))
    by (rewrite length_entries_bytes; lia).
  rewrite skipn_length_app.
  change (firstn 2 (entries_bytes [x] ++ entries_bytes t ++ rest))
    with (le_bytes 2 x).
  apply le_value_le_bytes2.
Qed.

Lemma len_initial_vtable (m : Z) (object_size : Z) :
  2 <= m -> len (initial_vtable ((m + 1) * 2) object_size) = m + 1.
Proof.
  intro Hm. unfold initial_vtable. rewrite !len_cons, len_repeat.
  replace ((m + 1) * 2 - 4) with ((m - 1) * 2) by lia.
  rewrite Z.div_mul by lia. lia.
Qed.

Lemma nth_initial_vtable (vtable_size object_size : Z) (k : nat) :
  nth k (initial_vtable vtable_size object_size) 0
  = match k with
    | O => wrap 16 vtable_size
    | S O => wrap 16 object_size
    | _ => 0
    end.
Proof.
  unfold initial_vtable. destruct k as [|[|k]]; cbn [nth]; try reflexivity.
  apply nth_repeat.
Qed.

Lemma slots_within_finalize (fs : list Field) (bk : list byte) :
  Forall Field_ok fs ->
  slots_within (table_max_field fs + 1) (fst (finalize fs bk)).
Proof.
  intro Hok. unfold slots_within.
  destruct (finalize_front fs bk) as (Hidx & _ & Hok').
  specialize (Hok' Hok).
  pose proof (proj2 (fold_max_field_le fs 2)) as Hmax. fold (table_max_field fs) in Hmax.
  apply Forall_forall. intros g Hg.
  assert (Hin : In (index g) (map index fs))
    by (rewrite <- Hidx; now apply in_map).
  apply in_map_iff in Hin. destruct Hin as (f & Hf & Hfin).
  rewrite Forall_forall in Hmax. specialize (Hmax f Hfin).
  rewrite Forall_forall in Hok'. destruct (Hok' g Hg) as (Hi & _).
  lia.
Qed.

(** [EndTable] on a buffer whose front memory ends in the ledger [fs]. *)
Lemma EndTable_run (pre bk : list byte) (fs : list Field) :
  Forall Field_ok fs ->
  8 * len fs < 2 ^ 64 ->
  EndTable (len pre) (mkBuffer (pre ++ ledger_bytes fs) bk)
  = Ok (len (snd (finalize fs bk)) + 4)
       (mkBuffer pre
          (entries_bytes
             (vtable_updates (len (snd (finalize fs bk)) + 4)
                (fst (finalize fs bk))
                (initial_vtable ((table_max_field fs + 1) * 2)
                                (table_object_size fs)))
           ++ le_bytes 4 ((table_max_field fs + 1) * 2)
           ++ snd (finalize fs bk))).
Proof.
  intros Hok Hsz.
  pose proof (table_max_field_range fs Hok) as Hm.
  pose proof (len_nonneg fs) as Hfs.
  destruct (finalize_front fs bk) as (Hidx & Hlen & Hok').
  specialize (Hok' Hok).
  set (fs' := fst (finalize fs bk)) in *.
  set (bk' := snd (finalize fs bk)).
  set (m := table_max_field fs) in *.
  set (osz := table_object_size fs).
  unfold EndTable. unfold bind at 1. unfold FrontSize at 1. cbn [front].
  replace (len (pre ++ ledger_bytes fs)) with (len pre + 8 * len fs)
    by (rewrite len_app, len_ledger_bytes; reflexivity).
  rewrite (bind_Ok _ _ _ _ _ (WriteTable_run pre bk fs Hok)).
  fold fs' bk' m osz.
  (* CreateVTable *)
  pose proof (CreateVTable_run (Z.to_nat (m - 1)) osz
                (mkBuffer (pre ++ ledger_bytes fs')
                          (le_bytes 4 ((m + 1) * 2) ++ bk'))) as Hc.
  cbv zeta in Hc.
  replace (2 * Z.of_nat (Z.to_nat (m - 1)) + 4) with ((m + 1) * 2) in Hc by lia.
  rewrite (bind_Ok _ _ _ _ _ (Hc ltac:(lia))). cbn [front back].
  (* UpdateVTable *)
  set (vt := initial_vtable ((m + 1) * 2) osz).
  assert (Hvt : len vt = m + 1) by (apply len_initial_vtable; lia).
  assert (Hlen' : len fs' = len fs) by (unfold len; now rewrite Hlen).
  pose proof (UpdateVTable_loop_run (len bk' + 4) fs' pre []
                (le_bytes 4 ((m + 1) * 2) ++ bk') vt
                (Z.to_nat (len pre + 8 * len fs - len pre)) Hok') as Hu.
  rewrite !app_nil_r, Hvt, Hlen' in Hu.
  replace (len (le_bytes 4 ((m + 1) * 2) ++ bk') + 2 * (m + 1) - 4)
    with (len (le_bytes 4 ((m + 1) * 2) ++ bk') + ((m + 1) * 2 - 4)) in Hu by lia.
  unfold UpdateVTable.
  rewrite (bind_Ok _ _ _ _ _
             (Hu (slots_within_finalize fs bk Hok) ltac:(unfold len in *; lia))).
  (* EraseFront *)
  replace (size_t (len pre + 8 * len fs - len pre)) with (len (ledger_bytes fs'))
    by (rewrite len_ledger_bytes, Hlen'; unfold size_t; rewrite wrap_small; lia).
  rewrite (bind_Ok _ _ _ _ _ (EraseFront_app _ _ _)).
  reflexivity.
Qed.

End EndTableFacts.

Section TableFacts.


Lemma table_object_size_cons (f : Field) (fs : list Field) :
  table_object_size (f :: fs) = object_bytes f + table_object_size fs.
Proof.
  unfold table_object_size at 1. cbn [fold_left].
  now rewrite fold_object_bytes.
Qed.



(** Absent records add nothing to the object size. *)
Lemma table_object_size_present (fs : list Field) :
  table_object_size (filter (fun f => negb (absent f)) fs) = table_object_size fs.
Proof.
  induction fs as [|f fs IH]; [reflexivity|].
  cbn [filter]. rewrite table_object_size_cons.
  destruct (absent f) eqn:E; cbn [negb].
  - rewrite IH. unfold object_bytes. rewrite E. lia.
  - now rewrite table_object_size_cons, IH.
Qed.

(** Every record the loop of [WriteTable] leaves comes from a record of the
    ledger with the same slot, and is that record when it is absent. *)
Lemma finalize_origin (fs : list Field) (bk : list byte) (g' : Field) :
  In g' (fst (finalize fs bk)) ->
  exists g, In g fs /\ index g = index g' /\ (absent g = true -> g' = g).
Proof.
  revert bk. induction fs as [|f fs IH]; intros bk Hin; [contradiction|].
  cbn [finalize] in Hin.
  pose proof (finalize_field_index f bk) as Hi.
  assert (Ha : absent f = true -> fst (finalize_field f bk) = f)
    by (intro E; unfold finalize_field; now rewrite E).
  destruct (finalize_field f bk) as [f' bk1]. cbn [fst] in Hi, Ha.
  specialize (IH bk1).
  destruct (finalize fs bk1) as [r' bk']. cbn [fst] in *.
  destruct Hin as [<-|Hin].
  - exists f. split; [now left|]. split; [now rewrite Hi|].
    intro E. now apply Ha.
  - destruct (IH Hin) as (g & Hg & Hgi & Hga).
    exists g. split; [now right|]. now split.
Qed.

Lemma absent_offset (f : Field) : absent f = true -> offset f = 0.
Proof.
  unfold absent. intro H. apply andb_true_iff in H. destruct H as [_ H].
  now apply Z.eqb_eq.
Qed.

(** The object size [WriteTable] accumulates: the sizes of the records and
    4 bytes for every reference it finalizes. *)
Lemma table_object_size_sum (fs : list Field) :
  table_object_size fs
  = fold_right Z.add 0 (map size fs) + 4 * len (filter pending fs).
Proof.
  induction fs as [|f fs IH]; [reflexivity|].
  rewrite table_object_size_cons, IH. cbn [map fold_right filter].
  unfold object_bytes, absent, pending.
  destruct (size f =? 0) eqn:Es; destruct (offset f =? 0);
    cbn [andb negb]; try rewrite len_cons;
    try (apply Z.eqb_eq in Es; rewrite Es); lia.
Qed.

End TableFacts.




(** C3.  For a record of a reference field whose position is zero, the loop
    of [WriteTable] writes nothing and leaves the object size as it is, and
    the loop of [UpdateVTable] writes nothing; in the finished table the
    entry of a slot whose records are all absent is zero; and the object
    size [WriteTable] computes is the same for two ledgers that differ only
    in their absent records. *)
Theorem absent_reference_omitted :
  (forall (b : InwardBuffer) (iter : Z) (acc : TableSizes) (f : Field)
          (root_offset vtable_offset : Z),
     LoadField iter b = Ok f b -> size f = 0 -> offset f = 0 ->
     WriteTable_body iter acc b
     = Ok (mkSizes (Z.max (max_field acc) (index f)) (object_size acc)) b /\
     UpdateVTable_body root_offset vtable_offset iter tt b = Ok tt b) /\
  (forall (pre bk : list byte) (fs : list Field),
     Forall Field_ok fs ->
     8 * len fs < 2 ^ 64 ->
     exists root b',
       EndTable (len pre) (mkBuffer (pre ++ ledger_bytes fs) bk) = Ok root b' /\
       forall f,
         In f fs -> absent f = true -> 2 <= index f ->
         (forall g, In g fs -> index g = index f -> absent g = true) ->
         vtable_entry (index f) (back b') = 0) /\
  (forall (pre1 bk1 pre2 bk2 : list byte) (fs1 fs2 : list Field),
     Forall Field_ok fs1 -> Forall Field_ok fs2 ->
     filter (fun f => negb (absent f)) fs1
     = filter (fun f => negb (absent f)) fs2 ->
     exists object_size root1 vtable_size1 b1 root2 vtable_size2 b2,
       WriteTable (len pre1) (len pre1 + 8 * len fs1)
         (mkBuffer (pre1 ++ ledger_bytes fs1) bk1)
       = Ok (root1, object_size, vtable_size1) b1 /\
       WriteTable (len pre2) (len pre2 + 8 * len fs2)
         (mkBuffer (pre2 ++ ledger_bytes fs2) bk2)
       = Ok (root2, object_size, vtable_size2) b2 /\
       object_size = table_object_size (filter (fun f => negb (absent f)) fs1)).
Proof.
  split; [|split].
  - intros b iter acc f root_offset vtable_offset Hload Hs Ho.
    unfold WriteTable_body, UpdateVTable_body.
    rewrite !(bind_Ok _ _ _ _ _ Hload), Hs, Ho. split; reflexivity.
  - intros pre bk fs Hok Hsz.
    pose proof (table_max_field_range fs Hok) as Hm.
    pose proof (slots_within_finalize fs bk Hok) as Hin.
    set (m := table_max_field fs) in *.
    set (root := len (snd (finalize fs bk)) + 4).
    set (vt0 := initial_vtable ((m + 1) * 2) (table_object_size fs)).
    assert (Hvt0 : len vt0 = m + 1) by (apply len_initial_vtable; lia).
    assert (Hin0 : slots_within (len vt0) (fst (finalize fs bk)))
      by (now rewrite Hvt0).
    eexists _, (mkBuffer _ _).
    split; [apply (EndTable_run pre bk fs Hok Hsz)|].
    cbn [back]. fold m root vt0.
    intros f Hf Ha Hi Hall.
    assert (Hfm : index f <= m).
    { pose proof (proj2 (fold_max_field_le fs 2)) as Hmax.
      rewrite Forall_forall in Hmax. apply (Hmax f Hf). }
    rewrite <- (Z2Nat.id (index f)) at 1 by lia.
    rewrite vtable_entry_at.
    + rewrite vtable_updates_other; [|exact Hin0|].
      * unfold vt0. rewrite nth_initial_vtable.
        destruct (Z.to_nat (index f)) as [|[|n]] eqn:E; try lia; reflexivity.
      * intros g' Hg' Hgi.
        destruct (finalize_origin fs bk g' Hg') as (g & Hg & Hgidx & Hga).
        assert (Hgabs : absent g = true) by (apply Hall; [exact Hg|lia]).
        rewrite (Hga Hgabs). now apply absent_offset.
    + rewrite vtable_updates_length by exact Hin0. unfold len in Hvt0. lia.
  - intros pre1 bk1 pre2 bk2 fs1 fs2 Hok1 Hok2 Hsame.
    do 7 eexists.
    split; [apply (WriteTable_run pre1 bk1 fs1 Hok1)|].
    split.
    + rewrite <- (table_object_size_present fs1), Hsame,
        (table_object_size_present fs2).
      apply (WriteTable_run pre2 bk2 fs2 Hok2).
    + symmetry. apply table_object_size_present.
Qed.

Lemma absent_reference_omitted_witness :
  WriteTable_body 0 (mkSizes 2 0) (mkBuffer (Field_bytes (mkField 3 0 0 0)) [])
  = Ok (mkSizes 3 0) (mkBuffer (Field_bytes (mkField 3 0 0 0)) []) /\
  (exists root b',
     EndTable 0 (mkBuffer (ledger_bytes [mkField 2 1 1 1; mkField 3 0 0 0])
                          [x00])
     = Ok root b' /\
     vtable_entry 3 (back b') = 0) /\
  (exists root1 vtable_size1 b1 root2 vtable_size2 b2,
     WriteTable 0 16 (mkBuffer (ledger_bytes [mkField 2 1 1 1; mkField 3 0 0 0])
                               [x00])
     = Ok (root1, 1, vtable_size1) b1 /\
     WriteTable 0 8 (mkBuffer (ledger_bytes [mkField 2 1 1 1]) [x00])
     = Ok (root2, 1, vtable_size2) b2).
Proof.
  destruct absent_reference_omitted as (Hbody & Htable & Hsize).
  split; [|split].
  - apply (Hbody (mkBuffer (Field_bytes (mkField 3 0 0 0)) []) 0 (mkSizes 2 0)
             (mkField 3 0 0 0) 0 0); reflexivity.
  - destruct (Htable [] [x00] [mkField 2 1 1 1; mkField 3 0 0 0])
      as (root & b' & H1 & H2).
    + repeat constructor; cbn; lia.
    + cbn. lia.
    + exists root, b'. split; [exact H1|].
      apply (H2 (mkField 3 0 0 0)).
      * right. now left.
      * reflexivity.
      * cbn. lia.
      * intros g [<-|[<-|[]]]; [discriminate|reflexivity].
  - destruct (Hsize [] [x00] [] [x00]
                [mkField 2 1 1 1; mkField 3 0 0 0] [mkField 2 1 1 1])
      as (osz & r1 & v1 & b1 & r2 & v2 & b2 & H1 & H2 & H3).
    + repeat constructor; cbn; lia.
    + repeat constructor; cbn; lia.
    + reflexivity.
    + exists r1, v1, b1, r2, v2, b2.
      assert (Ho : osz = 1) by (rewrite H3; reflexivity).
      rewrite Ho in H1, H2. split; [exact H1|exact H2].
Defined.

(** ** Front memory across a table *)

Section FrontFacts.

Lemma bind_inv {A B} (m : M A) (k : A -> M B) (b b' : InwardBuffer) (y : B) :
  bind m k b = Ok y b' ->
  exists a b1, m b = Ok a b1 /\ k a b1 = Ok y b'.
Proof.
  unfold bind. destruct (m b) as [a b1|e]; [|discriminate].
  intro H. now exists a, b1.
Qed.

Lemma write_bytes_len (mem : list byte) (pos : Z) (bs mem' : list byte) :
  write_bytes mem pos bs = Some mem' -> len mem' = len mem.
Proof.
  unfold write_bytes.
  destruct ((0 <=? pos) && (pos + len bs <=? len mem)) eqn:E; [|discriminate].
  apply andb_true_iff in E. destruct E as [E1 E2].
  apply Z.leb_le in E1. apply Z.leb_le in E2.
  intro H. injection H as <-. unfold len in *.
  rewrite !length_app, length_firstn, length_skipn. lia.
Qed.

Lemma keeps_front_bind {A B} (m : M A) (k : A -> M B) :
  keeps_front m -> (forall a, keeps_front (k a)) -> keeps_front (bind m k).
Proof.
  intros Hm Hk b y b' H.
  destruct (bind_inv _ _ _ _ _ H) as (a & b1 & H1 & H2).
  rewrite (Hk a _ _ _ H2). exact (Hm _ _ _ H1).
Qed.

Lemma keeps_front_ret {A} (a : A) : keeps_front (ret a).
Proof. intros b x b' H. unfold ret in H. now injection H as _ <-. Qed.

Lemma keeps_front_for_range {St} (body : Z -> St -> M St) (step : Z) :
  (forall i s, keeps_front (body i s)) ->
  forall fuel iter last s, keeps_front (for_range fuel iter last step body s).
Proof.
  intros Hbody fuel. induction fuel as [|fuel IH]; intros iter last s;
    cbn [for_range]; destruct (iter <? last).
  - intros b a b' H. discriminate.
  - apply keeps_front_ret.
  - apply keeps_front_bind; [apply Hbody|]. intro s'. apply IH.
  - apply keeps_front_ret.
Qed.

Lemma keeps_front_BackSize : keeps_front BackSize.
Proof. intros b a b' H. unfold BackSize in H. now injection H as _ <-. Qed.

Lemma keeps_front_WriteBack (bs : list byte) : keeps_front (WriteBack bs).
Proof. intros b a b' H. unfold WriteBack in H. now injection H as _ <-. Qed.

Lemma keeps_front_AllocBack (n : Z) : keeps_front (AllocBack n).
Proof. intros b a b' H. unfold AllocBack in H. now injection H as _ <-. Qed.

Lemma keeps_front_StoreBack (pos off : Z) (bs : list byte) :
  keeps_front (StoreBack pos off bs).
Proof.
  intros b a b' H. unfold StoreBack in H.
  destruct (write_bytes _ _ _); [|discriminate]. now injection H as _ <-.
Qed.

Lemma keeps_front_StoreFront (pos : Z) (bs : list byte) :
  keeps_front (StoreFront pos bs).
Proof.
  intros b a b' H. unfold StoreFront in H.
  destruct (write_bytes _ _ _) as [f|] eqn:E; [|discriminate].
  injection H as _ <-. cbn [front]. exact (write_bytes_len _ _ _ _ E).
Qed.

Lemma keeps_front_LoadField (iter : Z) : keeps_front (LoadField iter).
Proof.
  intros b a b' H. unfold LoadField, LoadFront, bind, ret in H.
  destruct (read_bytes _ _ _); [|discriminate]. now injection H as _ <-.
Qed.

Lemma keeps_front_WriteReference (reference : Z) :
  keeps_front (WriteReference reference).
Proof.
  intros b a b' H. rewrite WriteReference_run in H. now injection H as _ <-.
Qed.

Lemma keeps_front_WriteTable (start end_ : Z) : keeps_front (WriteTable start end_).
Proof.
  unfold WriteTable.
  apply keeps_front_bind.
  - apply keeps_front_for_range. intros i s. unfold WriteTable_body.
    apply keeps_front_bind; [apply keeps_front_LoadField|]. intro f.
    destruct ((size f =? 0) && (offset f =? 0)); [apply keeps_front_ret|].
    destruct (size f =? 0); [|apply keeps_front_ret].
    apply keeps_front_bind; [apply keeps_front_WriteReference|]. intros _.
    apply keeps_front_bind; [apply keeps_front_BackSize|]. intro bs.
    apply keeps_front_bind; [apply keeps_front_StoreFront|]. intros _.
    apply keeps_front_ret.
  - intro acc.
    apply keeps_front_bind; [apply keeps_front_WriteBack|]. intros _.
    apply keeps_front_bind; [apply keeps_front_BackSize|]. intro r.
    apply keeps_front_ret.
Qed.

Lemma keeps_front_CreateVTable (vtable_size object_size : Z) :
  keeps_front (CreateVTable vtable_size object_size).
Proof.
  unfold CreateVTable.
  apply keeps_front_bind; [apply keeps_front_AllocBack|]. intros _.
  apply keeps_front_bind; [apply keeps_front_BackSize|]. intro bs.
  apply keeps_front_bind; [apply keeps_front_StoreBack|]. intros _.
  apply keeps_front_bind; [apply keeps_front_BackSize|]. intro v.
  apply keeps_front_bind; [apply keeps_front_WriteBack|]. intros _.
  apply keeps_front_bind; [apply keeps_front_WriteBack|]. intros _.
  apply keeps_front_ret.
Qed.

Lemma keeps_front_UpdateVTable (start end_ root_offset vtable_offset : Z) :
  keeps_front (UpdateVTable start end_ root_offset vtable_offset).
Proof.
  unfold UpdateVTable. apply keeps_front_for_range. intros i s.
  unfold UpdateVTable_body.
  apply keeps_front_bind; [apply keeps_front_LoadField|]. intro f.
  destruct (offset f =? 0); [apply keeps_front_ret|].
  apply keeps_front_StoreBack.
Qed.

(** [EndTable] leaves front memory at its mark, up to the wrap of the
    [size_t] difference it erases. *)
Lemma EndTable_front (start : Z) (b b' : InwardBuffer) (root : Z) :
  EndTable start b = Ok root b' ->
  (len (front b') - start) mod 2 ^ 64 = 0.
Proof.
  unfold EndTable. intro H.
  destruct (bind_inv _ _ _ _ _ H) as (e & b0 & He & H0). clear H.
  unfold FrontSize in He. injection He as <- <-.
  destruct (bind_inv _ _ _ _ _ H0) as ([[r osz] vsz] & b1 & H1 & H2). clear H0.
  destruct (bind_inv _ _ _ _ _ H2) as (vto & b2 & H3 & H4). clear H2.
  destruct (bind_inv _ _ _ _ _ H4) as ([] & b3 & H5 & H6). clear H4.
  destruct (bind_inv _ _ _ _ _ H6) as ([] & b4 & H7 & H8). clear H6.
  unfold ret in H8. injection H8 as _ <-.
  pose proof (keeps_front_WriteTable _ _ _ _ _ H1) as F1.
  pose proof (keeps_front_CreateVTable _ _ _ _ _ H3) as F2.
  pose proof (keeps_front_UpdateVTable _ _ _ _ _ _ _ H5) as F3.
  unfold EraseFront in H7.
  destruct ((0 <=? size_t (len (front b) - start))
            && (size_t (len (front b) - start) <=? len (front b3))) eqn:E;
    [|discriminate].
  apply andb_true_iff in E. destruct E as [E1 E2].
  apply Z.leb_le in E1. apply Z.leb_le in E2.
  injection H7 as <-. cbn [front].
  assert (Hl : len (firstn (length (front b3)
                            - Z.to_nat (size_t (len (front b) - start)))
                           (front b3))
               = len (front b) - size_t (len (front b) - start)).
  { unfold len in *. rewrite length_firstn. lia. }
  rewrite Hl. unfold size_t, wrap.
  set (d := len (front b) - start).
  pose proof (Z.div_mod d (2 ^ 64) ltac:(lia)) as Hd.
  replace (len (front b) - d mod 2 ^ 64 - start) with ((d / 2 ^ 64) * 2 ^ 64)
    by (subst d; lia).
  apply Z.mod_mul. lia.
Qed.

(** X1.  A call of [SerializeObject] that completes, with front sizes that
    are [size_t] values, finds the front size it started from and reports
    nothing, whatever the hook of the object did: the diagnostic for
    temporary memory left behind is never taken by a completed call. *)
Lemma SerializeObject_front (SerializeFlatbuffer : M unit) (b b' : InwardBuffer)
      (ptr : Z) (log : list string) :
  SerializeObject SerializeFlatbuffer b = Ok (ptr, log) b' ->
  len (front b) < 2 ^ 64 -> len (front b') < 2 ^ 64 ->
  len (front b') = len (front b) /\ log = [].
Proof.
  unfold SerializeObject. intros H Hb Hb'.
  destruct (bind_inv _ _ _ _ _ H) as (s & b0 & Hs & H0). clear H.
  unfold FrontSize in Hs. injection Hs as <- <-.
  destruct (bind_inv _ _ _ _ _ H0) as (ts & b1 & Hts & H1). clear H0.
  unfold StartTable, FrontSize in Hts. injection Hts as <- <-.
  destruct (bind_inv _ _ _ _ _ H1) as ([] & b2 & _ & H2). clear H1.
  destruct (bind_inv _ _ _ _ _ H2) as (te & b3 & Hend & H3). clear H2.
  destruct (bind_inv _ _ _ _ _ H3) as (p & b4 & Hfin & H4). clear H3.
  rewrite Finish_run in Hfin. injection Hfin as _ <-.
  unfold bind, FrontSize, BackSize, ret in H4. cbn [front back] in H4.
  injection H4 as _ Hlog <-. cbn [front] in *.
  pose proof (EndTable_front _ _ _ _ Hend) as Hmod.
  pose proof (len_nonneg (front b)). pose proof (len_nonneg (front b3)).
  assert (Heq : len (front b3) = len (front b)).
  { apply Z.mod_divide in Hmod; [|lia]. destruct Hmod as [q Hq]. nia. }
  split; [exact Heq|].
  rewrite <- Hlog, Heq, Z.eqb_refl. reflexivity.
Qed.

End FrontFacts.

(** ** The fuel of the loops is enough *)

Section FuelFacts.

Lemma no_fuel_fault_bind {A B} (m : M A) (k : A -> M B) :
  no_fuel_fault m -> (forall a, no_fuel_fault (k a)) -> no_fuel_fault (bind m k).
Proof.
  intros Hm Hk b. unfold bind.
  destruct (m b) as [a b1|e] eqn:E; [apply Hk|].
  intro H. injection H as ->. now apply (Hm b).
Qed.

Lemma no_fuel_fault_ret {A} (a : A) : no_fuel_fault (ret a).
Proof. intros b H. unfold ret in H. discriminate. Qed.

Lemma no_fuel_fault_for_range {St} (body : Z -> St -> M St) (step : Z) :
  0 < step ->
  (forall i s, no_fuel_fault (body i s)) ->
  forall (fuel : nat) (iter last : Z) (s : St),
    (Z.to_nat (last - iter) <= fuel)%nat ->
    no_fuel_fault (for_range fuel iter last step body s).
Proof.
  intros Hstep Hbody fuel.
  induction fuel as [|fuel IH]; intros iter last s Hfuel; cbn [for_range];
    destruct (iter <? last) eqn:E; try apply no_fuel_fault_ret.
  - apply Z.ltb_lt in E. lia.
  - apply no_fuel_fault_bind; [apply Hbody|]. intro s'. apply IH.
    apply Z.ltb_lt in E. lia.
Qed.

Lemma no_fuel_fault_LoadField (iter : Z) : no_fuel_fault (LoadField iter).
Proof.
  intros b. unfold LoadField, LoadFront, bind, ret.
  destruct (read_bytes _ _ _); discriminate.
Qed.

Lemma no_fuel_fault_StoreFront (pos : Z) (bs : list byte) :
  no_fuel_fault (StoreFront pos bs).
Proof. intros b. unfold StoreFront. destruct (write_bytes _ _ _); discriminate. Qed.

Lemma no_fuel_fault_StoreBack (pos off : Z) (bs : list byte) :
  no_fuel_fault (StoreBack pos off bs).
Proof. intros b. unfold StoreBack. destruct (write_bytes _ _ _); discriminate. Qed.

Lemma no_fuel_fault_WriteReference (reference : Z) :
  no_fuel_fault (WriteReference reference).
Proof. intros b. rewrite WriteReference_run. discriminate. Qed.

(** The loops of [WriteTable] and [UpdateVTable] end before their fuel. *)
Lemma no_fuel_fault_WriteTable (start end_ : Z) :
  no_fuel_fault (WriteTable start end_).
Proof.
  unfold WriteTable. apply no_fuel_fault_bind.
  - apply no_fuel_fault_for_range; [reflexivity| |lia].
    intros i s. unfold WriteTable_body.
    apply no_fuel_fault_bind; [apply no_fuel_fault_LoadField|]. intro f.
    destruct ((size f =? 0) && (offset f =? 0)); [apply no_fuel_fault_ret|].
    destruct (size f =? 0); [|apply no_fuel_fault_ret].
    apply no_fuel_fault_bind; [apply no_fuel_fault_WriteReference|]. intros _.
    apply no_fuel_fault_bind; [intros b; unfold BackSize; discriminate|]. intro bs.
    apply no_fuel_fault_bind; [apply no_fuel_fault_StoreFront|]. intros _.
    apply no_fuel_fault_ret.
  - intros acc b. unfold bind, WriteBack, BackSize, ret. discriminate.
Qed.

Lemma no_fuel_fault_UpdateVTable (start end_ root_offset vtable_offset : Z) :
  no_fuel_fault (UpdateVTable start end_ root_offset vtable_offset).
Proof.
  unfold UpdateVTable. apply no_fuel_fault_for_range; [reflexivity| |lia].
  intros i s. unfold UpdateVTable_body.
  apply no_fuel_fault_bind; [apply no_fuel_fault_LoadField|]. intro f.
  destruct (offset f =? 0); [apply no_fuel_fault_ret|].
  apply no_fuel_fault_StoreBack.
Qed.

(** The loop of [Prealign] ends before its fuel for every alignment. *)
Lemma no_fuel_fault_Prealign (alignment : Z) :
  0 <= alignment -> no_fuel_fault (Prealign alignment).
Proof.
  intros Ha b. destruct (Z.eq_dec alignment 0) as [->|Hne].
  - unfold Prealign. cbn. unfold fail. discriminate.
  - rewrite Prealign_run by lia. discriminate.
Qed.

End FuelFacts.

(** * Further properties of the writer *)

(** ** Layout of a finished table *)

Section LayoutFacts.

Lemma back_at_app (pos : Z) (n : nat) (new bk : list byte) :
  0 <= pos <= len bk ->
  back_at pos n (new ++ bk) = back_at pos n bk.
Proof.
  intro Hp. unfold back_at. rewrite len_app.
  replace (Z.to_nat (len new + len bk - pos))
    with (Z.to_nat (len bk - pos) + length new)%nat by (unfold len in *; lia).
  now rewrite <- skipn_skipn, skipn_length_app.
Qed.

Lemma back_at_head (n : nat) (bk : list byte) :
  back_at (len bk) n bk = firstn n bk.
Proof. unfold back_at. now rewrite Z.sub_diag. Qed.

Lemma pending_absent (f : Field) :
  pending f = true -> absent f = false /\ (size f =? 0) = true.
Proof.
  unfold pending, absent. intro H. apply andb_true_iff in H.
  destruct H as [Hs Ho]. rewrite Hs. apply negb_true_iff in Ho.
  now rewrite Ho.
Qed.

(** The loop of [WriteTable] only prepends to back memory, 4 bytes for
    every pending reference. *)
Lemma finalize_back (fs : list Field) (bk : list byte) :
  exists slots,
    snd (finalize fs bk) = slots ++ bk /\
    len slots = 4 * len (filter pending fs).
Proof.
  revert bk. induction fs as [|f fs IH]; intro bk.
  - exists []. split; reflexivity.
  - cbn [finalize filter].
    assert (Hp : pending f = (size f =? 0) && negb (offset f =? 0))
      by reflexivity.
    rewrite Hp. unfold finalize_field, absent.
    destruct (size f =? 0) eqn:Es; destruct (offset f =? 0) eqn:Eo;
      cbn [andb negb].
    + destruct (IH bk) as (sl & H1 & H2).
      destruct (finalize fs bk) as [r' bk']. cbn [snd] in *. now exists sl.
    + destruct (IH (le_bytes 4 (len bk + 4 - offset f) ++ bk))
        as (sl & H1 & H2).
      destruct (finalize fs _) as [r' bk']. cbn [snd] in *.
      exists (sl ++ le_bytes 4 (len bk + 4 - offset f)).
      split; [now rewrite H1, <- app_assoc|].
      rewrite len_app, len_le_bytes, H2, len_cons. lia.
    + destruct (IH bk) as (sl & H1 & H2).
      destruct (finalize fs bk) as [r' bk']. cbn [snd] in *. now exists sl.
    + destruct (IH bk) as (sl & H1 & H2).
      destruct (finalize fs bk) as [r' bk']. cbn [snd] in *. now exists sl.
Qed.

(** The slot of a pending reference: where it lies and what it holds. *)
Lemma finalize_slot (fs : list Field) :
  forall (bk : list byte) (i : nat) (f : Field),
    nth_error fs i = Some f -> pending f = true ->
    exists f' p,
      nth_error (fst (finalize fs bk)) i = Some f' /\
      index f' = index f /\ size f' = 0 /\
      offset f' = wrap 32 p /\
      len bk + 4 <= p <= len (snd (finalize fs bk)) /\
      back_at p 4 (snd (finalize fs bk)) = le_bytes 4 (p - offset f).
Proof.
  induction fs as [|g fs IH]; intros bk i f Hi Hp; [now destruct i|].
  cbn [finalize].
  destruct i as [|i]; cbn [nth_error] in Hi.
  - injection Hi as ->. destruct (pending_absent f Hp) as [Ha Hs].
    unfold finalize_field. rewrite Ha, Hs. cbv zeta.
    set (bk1 := le_bytes 4 (len bk + 4 - offset f) ++ bk).
    assert (Hl : len bk1 = len bk + 4)
      by (unfold bk1; rewrite len_app, len_le_bytes; lia).
    destruct (finalize_back fs bk1) as (sl & H1 & H2).
    destruct (finalize fs bk1) as [r' bk']. cbn [fst snd] in *.
    eexists _, (len bk1). split; [reflexivity|].
    cbn [index size offset]. apply Z.eqb_eq in Hs.
    split; [reflexivity|]. split; [exact Hs|]. split; [reflexivity|].
    subst bk'.
    split; [rewrite (len_app sl bk1); pose proof (len_nonneg sl); lia|].
    rewrite back_at_app by (pose proof (len_nonneg bk1); lia).
    rewrite back_at_head, Hl. unfold bk1.
    rewrite firstn4_le_bytes. reflexivity.
  - destruct (finalize_field g bk) as [g' bk1] eqn:Eg.
    assert (Hbk1 : len bk <= len bk1).
    { unfold finalize_field in Eg. cbv zeta in Eg.
      destruct (absent g); [injection Eg as _ <-; lia|].
      destruct (size g =? 0); injection Eg as _ <-; [|lia].
      rewrite !len_cons. lia. }
    destruct (IH bk1 i f Hi Hp) as (f' & p & H1 & H2 & H3 & H4 & H5 & H6).
    destruct (finalize fs bk1) as [r' bk']. cbn [fst snd] in *.
    exists f', p. cbn [nth_error]. repeat split; try assumption; lia.
Qed.

(** Inline records pass through the loop of [WriteTable] as they are. *)
Lemma finalize_inline (fs : list Field) (bk : list byte) (f : Field) :
  In f fs -> size f <> 0 -> In f (fst (finalize fs bk)).
Proof.
  revert bk. induction fs as [|g fs IH]; intros bk Hin Hs; [contradiction|].
  cbn [finalize].
  destruct (finalize_field g bk) as [g' bk1] eqn:Eg.
  specialize (IH bk1).
  destruct (finalize fs bk1) as [r' bk']. cbn [fst] in *.
  destruct Hin as [->|Hin]; [left|right; now apply IH].
  unfold finalize_field, absent in Eg.
  replace (size f =? 0) with false in Eg by (symmetry; now apply Z.eqb_neq).
  cbn [andb] in Eg. now injection Eg as <- _.
Qed.

End LayoutFacts.

(** X2.  [EndTable] on a ledger of whole records leaves the bytes already in
    back memory in place: it prepends 4 bytes for every pending reference,
    the 4 bytes of the offset to the vtable, and the vtable. *)
Theorem EndTable_grows_back (pre bk : list byte) (fs : list Field) :
  Forall Field_ok fs ->
  8 * len fs < 2 ^ 64 ->
  exists root b' new,
    EndTable (len pre) (mkBuffer (pre ++ ledger_bytes fs) bk) = Ok root b' /\
    front b' = pre /\
    back b' = new ++ bk /\
    root = len bk + 4 * len (filter pending fs) + 4 /\
    len new = 4 * len (filter pending fs) + 4 + (table_max_field fs + 1) * 2.
Proof.
  intros Hok Hsz.
  pose proof (table_max_field_range fs Hok) as Hm.
  destruct (finalize_back fs bk) as (sl & H1 & H2).
  pose proof (slots_within_finalize fs bk Hok) as Hin.
  set (m := table_max_field fs) in *.
  set (vt0 := initial_vtable ((m + 1) * 2) (table_object_size fs)).
  assert (Hvt0 : len vt0 = m + 1) by (apply len_initial_vtable; lia).
  eexists _, (mkBuffer _ _), _.
  split; [apply (EndTable_run pre bk fs Hok Hsz)|].
  cbn [front back]. fold m vt0. rewrite H1.
  split; [reflexivity|].
  split; [now rewrite !app_assoc|].
  split; [rewrite len_app, H2; lia|].
  rewrite !len_app, len_entries_bytes, len_le_bytes, H2.
  unfold len at 1. rewrite vtable_updates_length; [fold (len vt0); lia|].
  unfold slots_within. now rewrite Hvt0.
Qed.

Lemma EndTable_grows_back_witness :
  exists root b' new,
    EndTable 0 (mkBuffer (ledger_bytes [mkField 2 0 0 7; mkField 3 4 4 12])
                         [x02; x01; x00; x00; x00;
                          x02; x00; x00; x00; x61; x62; x00])
    = Ok root b' /\
    back b' = new ++ [x02; x01; x00; x00; x00;
                      x02; x00; x00; x00; x61; x62; x00] /\
    root = 20 /\ len new = 16.
Proof.
  destruct (EndTable_grows_back []
              [x02; x01; x00; x00; x00; x02; x00; x00; x00; x61; x62; x00]
              [mkField 2 0 0 7; mkField 3 4 4 12])
    as (root & b' & new & H1 & H2 & H3 & H4 & H5).
  - repeat constructor; cbn; lia.
  - cbn. lia.
  - exists root, b', new. repeat split; assumption.
Defined.

Section TableLayoutFacts.

(** The buffer [EndTable] leaves, with its vtable as a list of entries. *)
Lemma EndTable_shape (pre bk : list byte) (fs : list Field) :
  Forall Field_ok fs ->
  8 * len fs < 2 ^ 64 ->
  exists vt,
    vt = vtable_updates (len (snd (finalize fs bk)) + 4) (fst (finalize fs bk))
           (initial_vtable ((table_max_field fs + 1) * 2)
                           (table_object_size fs)) /\
    len vt = table_max_field fs + 1 /\
    EndTable (len pre) (mkBuffer (pre ++ ledger_bytes fs) bk)
    = Ok (len (snd (finalize fs bk)) + 4)
         (mkBuffer pre
            (entries_bytes vt
             ++ le_bytes 4 ((table_max_field fs + 1) * 2)
             ++ snd (finalize fs bk))).
Proof.
  intros Hok Hsz.
  pose proof (table_max_field_range fs Hok) as Hm.
  pose proof (slots_within_finalize fs bk Hok) as Hin.
  eexists. split; [reflexivity|]. split; [|apply (EndTable_run pre bk fs Hok Hsz)].
  pose proof (len_initial_vtable (table_max_field fs) (table_object_size fs)
                ltac:(lia)) as Hvt0.
  unfold len at 1. rewrite vtable_updates_length.
  - exact Hvt0.
  - unfold slots_within. now rewrite Hvt0.
Qed.

(** The entry of a slot that one present record names. *)
Lemma EndTable_entry (bk : list byte) (fs : list Field) (rest : list byte)
      (root : Z) (f : Field) :
  Forall Field_ok fs ->
  NoDup (map index fs) ->
  In f (fst (finalize fs bk)) -> offset f <> 0 ->
  vtable_entry (index f)
    (entries_bytes
       (vtable_updates root (fst (finalize fs bk))
          (initial_vtable ((table_max_field fs + 1) * 2)
                          (table_object_size fs)))
     ++ rest)
  = wrap 16 (root - offset f).
Proof.
  intros Hok Hnd Hf Ho.
  pose proof (table_max_field_range fs Hok) as Hm.
  pose proof (slots_within_finalize fs bk Hok) as Hin.
  destruct (finalize_front fs bk) as (Hidx & _ & _).
  pose proof (len_initial_vtable (table_max_field fs) (table_object_size fs)
                ltac:(lia)) as Hvt0.
  assert (Hin0 : slots_within
                   (len (initial_vtable ((table_max_field fs + 1) * 2)
                                        (table_object_size fs)))
                   (fst (finalize fs bk))) by (now rewrite Hvt0).
  assert (Hfi : 0 <= index f < table_max_field fs + 1).
  { unfold slots_within in Hin. rewrite Forall_forall in Hin. now apply Hin. }
  rewrite <- (Z2Nat.id (index f)) at 1 by lia.
  rewrite vtable_entry_at.
  - rewrite vtable_updates_present;
      [|exact Hin0|now rewrite Hidx|exact Hf|exact Ho].
    apply wrap_small, wrap_range. lia.
  - rewrite vtable_updates_length by exact Hin0. unfold len in Hvt0. lia.
Qed.

End TableLayoutFacts.

(** X3.  In a table finished by [EndTable], the slot written for a pending
    reference lies at the position the record is left with, and the value
    in it is that position minus the position of the referent: a reader
    that subtracts the value from the slot's position finds the referent. *)
Theorem EndTable_references_resolve (pre bk : list byte) (fs : list Field) :
  Forall Field_ok fs ->
  8 * len fs < 2 ^ 64 ->
  exists root b',
    EndTable (len pre) (mkBuffer (pre ++ ledger_bytes fs) bk) = Ok root b' /\
    forall (i : nat) (f : Field),
      nth_error fs i = Some f -> pending f = true ->
      exists f' p,
        nth_error (fst (finalize fs bk)) i = Some f' /\
        index f' = index f /\
        offset f' = wrap 32 p /\
        len bk + 4 <= p <= root - 4 /\
        le_value (back_at p 4 (back b')) = (p - offset f) mod 2 ^ 32 /\
        (offset f <= len bk -> p < 2 ^ 32 ->
         p - le_value (back_at p 4 (back b')) = offset f).
Proof.
  intros Hok Hsz.
  destruct (EndTable_shape pre bk fs Hok Hsz) as (vt & _ & Hvt & Hrun).
  eexists _, (mkBuffer _ _). split; [exact Hrun|]. cbn [back].
  intros i f Hi Hp.
  destruct (finalize_slot fs bk i f Hi Hp)
    as (f' & p & H1 & H2 & H3 & H4 & H5 & H6).
  assert (Hval : le_value
                   (back_at p 4
                      (entries_bytes vt
                       ++ le_bytes 4 ((table_max_field fs + 1) * 2)
                       ++ snd (finalize fs bk)))
                 = (p - offset f) mod 2 ^ 32).
  { pose proof (len_nonneg bk).
    rewrite back_at_app by (rewrite len_app, len_le_bytes; lia).
    rewrite back_at_app by lia. rewrite H6. apply le_value_le_bytes4. }
  exists f', p. split; [exact H1|]. split; [exact H2|]. split; [exact H4|].
  split; [lia|]. split; [exact Hval|].
  intros Ho Hlt. rewrite Hval.
  assert (Hf : Field_ok f).
  { rewrite Forall_forall in Hok. apply Hok. eapply nth_error_In. exact Hi. }
  destruct Hf as (_ & _ & _ & Hor).
  rewrite Z.mod_small by lia. lia.
Qed.

Lemma EndTable_references_resolve_witness :
  exists root b' p,
    EndTable 0 (mkBuffer (ledger_bytes [mkField 2 0 0 7; mkField 3 4 4 12])
                         [x02; x01; x00; x00; x00;
                          x02; x00; x00; x00; x61; x62; x00])
    = Ok root b' /\
    12 + 4 <= p <= root - 4 /\
    p - le_value (back_at p 4 (back b')) = 7.
Proof.
  destruct (EndTable_references_resolve []
              [x02; x01; x00; x00; x00; x02; x00; x00; x00; x61; x62; x00]
              [mkField 2 0 0 7; mkField 3 4 4 12])
    as (root & b' & H1 & H2).
  - repeat constructor; cbn; lia.
  - cbn. lia.
  - destruct (H2 0%nat (mkField 2 0 0 7) eq_refl eq_refl)
      as (f' & p & _ & _ & _ & Hp & _ & Hex).
    exists root, b', p. split; [exact H1|]. split; [exact Hp|].
    apply Hex; [cbn [offset]; unfold len; cbn [length]; lia|].
    assert (Hr : root = 20) by (vm_compute in H1; now injection H1 as <- _).
    change (len [x02; x01; x00; x00; x00; x02; x00; x00; x00; x61; x62; x00])
      with 12 in Hp. lia.
Defined.

(** X4.  A table finished by [EndTable] starts with the distance from its
    position to the first byte of its vtable, and the vtable is the region
    [EndTable] wrote last: it begins at the back size [EndTable] leaves. *)
Theorem EndTable_vtable_link (pre bk : list byte) (fs : list Field) :
  Forall Field_ok fs ->
  8 * len fs < 2 ^ 64 ->
  exists root b',
    EndTable (len pre) (mkBuffer (pre ++ ledger_bytes fs) bk) = Ok root b' /\
    le_value (back_at root 4 (back b')) = (table_max_field fs + 1) * 2 /\
    root + le_value (back_at root 4 (back b')) = len (back b').
Proof.
  intros Hok Hsz.
  pose proof (table_max_field_range fs Hok) as Hm.
  destruct (EndTable_shape pre bk fs Hok Hsz) as (vt & _ & Hvt & Hrun).
  eexists _, (mkBuffer _ _). split; [exact Hrun|]. cbn [back].
  set (bk' := snd (finalize fs bk)).
  set (so := le_bytes 4 ((table_max_field fs + 1) * 2)).
  assert (Hroot : len (so ++ bk') = len bk' + 4)
    by (unfold so; rewrite len_app, len_le_bytes; lia).
  assert (Hval : le_value (back_at (len bk' + 4) 4 (entries_bytes vt ++ so ++ bk'))
                 = (table_max_field fs + 1) * 2).
  { rewrite back_at_app by (rewrite Hroot; pose proof (len_nonneg bk'); lia).
    rewrite <- Hroot, back_at_head. unfold so.
    rewrite firstn4_le_bytes, le_value_le_bytes4.
    apply Z.mod_small. lia. }
  split; [exact Hval|].
  rewrite Hval, len_app, len_entries_bytes, Hroot, Hvt. lia.
Qed.

Lemma EndTable_vtable_link_witness :
  exists root b',
    EndTable 0 (mkBuffer (ledger_bytes [mkField 2 0 0 7; mkField 3 4 4 12])
                         [x02; x01; x00; x00; x00;
                          x02; x00; x00; x00; x61; x62; x00])
    = Ok root b' /\
    le_value (back_at root 4 (back b')) = 8 /\
    root + 8 = len (back b').
Proof.
  destruct (EndTable_vtable_link []
              [x02; x01; x00; x00; x00; x02; x00; x00; x00; x61; x62; x00]
              [mkField 2 0 0 7; mkField 3 4 4 12])
    as (root & b' & H1 & H2 & H3).
  - repeat constructor; cbn; lia.
  - cbn. lia.
  - exists root, b'. split; [exact H1|].
    rewrite H2 in H3. split; [exact H2|exact H3].
Defined.

(** X5.  In a table finished by [EndTable] an inline field is found through
    the vtable: the entry of its slot is the distance from the table's
    position back to the position recorded for the field, and the bytes
    there are the bytes that lay at that position before [EndTable]. *)
Theorem EndTable_inline_lookup (pre bk : list byte) (fs : list Field) :
  Forall Field_ok fs ->
  NoDup (map index fs) ->
  8 * len fs < 2 ^ 64 ->
  exists root b',
    EndTable (len pre) (mkBuffer (pre ++ ledger_bytes fs) bk) = Ok root b' /\
    forall (f : Field) (n : nat),
      In f fs -> size f <> 0 -> offset f <> 0 -> offset f <= len bk ->
      vtable_entry (index f) (back b') = wrap 16 (root - offset f) /\
      (root - offset f < 2 ^ 16 ->
       back_at (root - vtable_entry (index f) (back b')) n (back b')
       = back_at (offset f) n bk).
Proof.
  intros Hok Hnd Hsz.
  destruct (EndTable_shape pre bk fs Hok Hsz) as (vt & Hvtdef & Hvt & Hrun).
  destruct (finalize_back fs bk) as (sl & Hsl & _).
  eexists _, (mkBuffer _ _). split; [exact Hrun|]. cbn [back].
  intros f n Hf Hs Ho Hle.
  assert (Hentry : vtable_entry (index f)
                     (entries_bytes vt
                      ++ le_bytes 4 ((table_max_field fs + 1) * 2)
                      ++ snd (finalize fs bk))
                   = wrap 16 (len (snd (finalize fs bk)) + 4 - offset f)).
  { rewrite Hvtdef. apply EndTable_entry; try assumption.
    now apply finalize_inline. }
  split; [exact Hentry|]. intro Hfit. rewrite Hentry.
  assert (Hfok : Field_ok f) by (rewrite Forall_forall in Hok; now apply Hok).
  destruct Hfok as (_ & _ & _ & Hor).
  assert (Hlen : len bk <= len (snd (finalize fs bk)))
    by (rewrite Hsl, len_app; pose proof (len_nonneg sl); lia).
  rewrite wrap_small by lia.
  replace (len (snd (finalize fs bk)) + 4
           - (len (snd (finalize fs bk)) + 4 - offset f)) with (offset f) by lia.
  rewrite back_at_app by (rewrite len_app, len_le_bytes; lia).
  rewrite back_at_app by lia.
  rewrite Hsl. apply back_at_app. lia.
Qed.

Lemma EndTable_inline_lookup_witness :
  exists root b',
    EndTable 0 (mkBuffer (ledger_bytes [mkField 2 0 0 7; mkField 3 4 4 12])
                         [x02; x01; x00; x00; x00;
                          x02; x00; x00; x00; x61; x62; x00])
    = Ok root b' /\
    vtable_entry 3 (back b') = 8 /\
    back_at (root - vtable_entry 3 (back b')) 4 (back b')
    = [x02; x01; x00; x00].
Proof.
  destruct (EndTable_inline_lookup []
              [x02; x01; x00; x00; x00; x02; x00; x00; x00; x61; x62; x00]
              [mkField 2 0 0 7; mkField 3 4 4 12])
    as (root & b' & H1 & H2).
  - repeat constructor; cbn; lia.
  - repeat constructor; cbn; intuition discriminate.
  - cbn. lia.
  - exists root, b'. split; [exact H1|].
    assert (Hr : root = 20) by (vm_compute in H1; now injection H1 as <- _).
    destruct (H2 (mkField 3 4 4 12) 4%nat) as [E1 E2];
      [right; now left|discriminate|discriminate
      |cbn [offset]; unfold len; cbn [length]; lia|].
    cbn [index offset] in E1, E2. rewrite Hr in E1, E2.
    split; [rewrite E1; reflexivity|].
    rewrite Hr, E2; [reflexivity|lia].
Defined.


(** ** Equal code paths and edge cases *)

Section PathFacts.

Lemma for_each_ext {A} (l : list A) (f g : A -> M unit) :
  (forall x b, f x b = g x b) ->
  forall b, for_each l f b = for_each l g b.
Proof.
  intro H. induction l as [|x l IH]; intro b; cbn [for_each]; [reflexivity|].
  unfold bind. rewrite H. destruct (g x b) as [[] b1|e]; [apply IH|reflexivity].
Qed.

Lemma bind_ext {A B} (m : M A) (k k' : A -> M B) (b : InwardBuffer) :
  (forall a b1, k a b1 = k' a b1) -> bind m k b = bind m k' b.
Proof. intro H. unfold bind. destruct (m b); [apply H|reflexivity]. Qed.

(** Reserving bytes and writing a value into them is writing the value. *)
Lemma alloc_then_store (bs : list byte) (b : InwardBuffer) :
  (AllocBack (len bs);; ptr <- BackSize;; StoreBack ptr 0 bs) b
  = WriteBack bs b.
Proof.
  unfold bind, AllocBack, BackSize, StoreBack, WriteBack. cbn [front back].
  replace (len (repeat x00 (Z.to_nat (len bs)) ++ back b)
           - len (repeat x00 (Z.to_nat (len bs)) ++ back b) + 0)
    with (len (@nil byte)) by (unfold len; cbn [length]; lia).
  pose proof (write_bytes_at [] (repeat x00 (Z.to_nat (len bs))) bs (back b))
    as W.
  cbn [app] in W. rewrite W; [reflexivity|].
  rewrite repeat_length. unfold len. lia.
Qed.

(** Reserving the bytes with the sized [AddValueField] and writing the value
    through the returned pointer is the same as writing the value at once. *)
Lemma sized_then_store (value : object) (offset : Z) (b : InwardBuffer) :
  0 < alignof value ->
  NativeStruct value offset b = AddValueField (offset / 2) value b.
Proof.
  intro Ha. unfold NativeStruct.
  pose proof (AddValueField_run (offset / 2) value b Ha) as Hs.
  pose proof (AddValueField_sized_run (offset / 2) (sizeof value)
                (alignof value) b Ha) as Hn.
  cbv zeta in Hs, Hn. rewrite Hs, (bind_Ok _ _ _ _ _ Hn).
  set (pad := repeat x00 (Z.to_nat ((- len (back b)) mod alignof value))) in *.
  assert (Hl : len (repeat x00 (Z.to_nat (sizeof value)) ++ pad ++ back b)
               = len (bytes value ++ pad ++ back b)).
  { rewrite !len_app, len_repeat. unfold sizeof, len. lia. }
  unfold StoreBack. cbn [front back].
  replace (len (repeat x00 (Z.to_nat (sizeof value)) ++ pad ++ back b)
           - len (repeat x00 (Z.to_nat (sizeof value)) ++ pad ++ back b) + 0)
    with (len (@nil byte)) by (unfold len; cbn [length]; lia).
  pose proof (write_bytes_at [] (repeat x00 (Z.to_nat (sizeof value)))
                (bytes value) (pad ++ back b)) as W.
  cbn [app] in W. rewrite W; [now rewrite Hl|].
  rewrite repeat_length. unfold sizeof, len. lia.
Qed.

End PathFacts.

(** X6.  [NativeStruct] leaves the buffer exactly as [Struct] does for a
    value with the same size, alignment and bytes: reserving the bytes with
    the sized [AddValueField] and writing the value through the returned
    pointer is the same as writing the value at once. *)
Theorem NativeStruct_as_Struct (value : object) (offset : Z) (b : InwardBuffer) :
  0 < alignof value ->
  NativeStruct value offset b = Struct value offset b.
Proof. intro Ha. unfold Struct. now apply sized_then_store. Qed.

Lemma NativeStruct_as_Struct_witness :
  NativeStruct (mkObject 4 [x01; x02; x03; x04]) 6 (mkBuffer [] [x07])
  = Struct (mkObject 4 [x01; x02; x03; x04]) 6 (mkBuffer [] [x07]).
Proof.
  apply (NativeStruct_as_Struct (mkObject 4 [x01; x02; x03; x04]) 6
           (mkBuffer [] [x07])).
  cbn. lia.
Defined.

(** X7.  [VectorOfNativeStructs] leaves the buffer exactly as
    [VectorOfStructs] does on the same elements. *)
Theorem VectorOfNativeStructs_as_VectorOfStructs
    (value : list object) (offset : Z) (b : InwardBuffer) :
  VectorOfNativeStructs value offset b = VectorOfStructs value offset b.
Proof.
  unfold VectorOfNativeStructs, VectorOfStructs.
  apply bind_ext. intros start b1.
  unfold bind at 1 3.
  rewrite (for_each_ext (rev value) _ (fun t => AddVectorValue t));
    [reflexivity|].
  intros t b2. apply alloc_then_store.
Qed.

(** X8.  Every [VectorOf...] method given an empty vector writes nothing to
    back memory and records a null reference, a record that [EndTable]
    treats as an absent field. *)
Theorem empty_vector_is_null (offset : Z) (b : InwardBuffer) :
  let null := mkField (wrap 16 (offset / 2)) 0 0 0 in
  let b' := mkBuffer (front b ++ Field_bytes null) (back b) in
  absent null = true /\
  (forall w, VectorOfScalars w [] offset b = Ok tt b') /\
  VectorOfStrings [] offset b = Ok tt b' /\
  VectorOfStructs [] offset b = Ok tt b' /\
  VectorOfNativeStructs [] offset b = Ok tt b' /\
  VectorOfTables [] offset b = Ok tt b'.
Proof.
  intros null b'.
  assert (H : forall body : M unit,
             (forall x, body x = Ok tt x) ->
             (start <- StartVector;; body;;
              reference <- EndVector start (len (@nil Z));;
              AddReferenceField (offset / 2) reference) b = Ok tt b').
  { intros body Hb. unfold StartVector. unfold bind at 1. unfold FrontSize at 1.
    unfold bind at 1. rewrite Hb.
    pose proof (EndVector_no_refs b 0) as E. cbn [Z.eqb] in E.
    rewrite (bind_Ok _ _ _ _ _ E). reflexivity. }
  split; [reflexivity|].
  repeat split; try intro w; apply (H (ret tt)); reflexivity.
Qed.

(** X9.  [Prealign] writes zero bytes only, fewer than [alignment] of them
    and no more than needed: the back size it leaves is the first multiple
    of [alignment] at or above the one it found, and an aligned back size is
    left as it is. *)
Theorem Prealign_minimal (alignment : Z) (b : InwardBuffer) :
  0 < alignment ->
  exists pad : nat,
    Prealign alignment b
    = Ok tt (mkBuffer (front b) (repeat x00 pad ++ back b)) /\
    Z.of_nat pad < alignment /\
    (len (back b) + Z.of_nat pad) mod alignment = 0 /\
    (forall k, 0 <= k < Z.of_nat pad -> (len (back b) + k) mod alignment <> 0) /\
    (len (back b) mod alignment = 0 -> pad = 0%nat).
Proof.
  intro Ha.
  pose proof (Z.mod_pos_bound (- len (back b)) alignment Ha) as Hb.
  pose proof (len_nonneg (back b)) as Hn.
  exists (Z.to_nat ((- len (back b)) mod alignment)).
  rewrite Z2Nat.id by lia.
  split; [now apply Prealign_run|]. split; [lia|].
  split; [now apply padded_len|].
  split.
  - intros k Hk Hz.
    assert (Hd : (k - (- len (back b)) mod alignment) mod alignment = 0).
    { rewrite Zminus_mod, Z.mod_mod by lia.
      rewrite <- Zminus_mod.
      replace (k - - len (back b)) with (len (back b) + k) by lia.
      exact Hz. }
    apply Z.mod_divide in Hd; [|lia]. destruct Hd as [q Hq].
    assert (Hr : - alignment < q * alignment < 0) by lia.
    assert (Hq0 : q <= -1 \/ 0 <= q) by lia.
    destruct Hq0 as [Hq0|Hq0]; nia.
  - intro Hz. rewrite Z.mod_opp_l_z by lia. reflexivity.
Qed.

Lemma Prealign_minimal_witness :
  exists pad : nat,
    Prealign 8 (mkBuffer [] [x01; x02; x03])
    = Ok tt (mkBuffer [] (repeat x00 pad ++ [x01; x02; x03])) /\
    Z.of_nat pad < 8 /\ (3 + Z.of_nat pad) mod 8 = 0.
Proof.
  destruct (Prealign_minimal 8 (mkBuffer [] [x01; x02; x03]))
    as (pad & H1 & H2 & H3 & H4 & H5); [lia|].
  exists pad. split; [exact H1|]. split; [exact H2|exact H3].
Defined.

(** ** Vectors of references *)

Section VectorRefFacts.

Lemma le_bytes4_congr (a c : Z) :
  a mod 2 ^ 32 = c mod 2 ^ 32 -> le_bytes 4 a = le_bytes 4 c.
Proof.
  intro H. rewrite <- (le_bytes4_wrap a), <- (le_bytes4_wrap c).
  unfold wrap. now rewrite H.
Qed.

Lemma refs_bytes_app (l k : list Z) :
  refs_bytes (l ++ k) = refs_bytes l ++ refs_bytes k.
Proof. unfold refs_bytes. now rewrite map_app, concat_app. Qed.

Lemma len_refs_bytes (l : list Z) : len (refs_bytes l) = 4 * len l.
Proof.
  induction l as [|r l IH]; [reflexivity|].
  change (refs_bytes (r :: l)) with (le_bytes 4 r ++ refs_bytes l).
  rewrite len_app, len_le_bytes, IH, len_cons. lia.
Qed.

Lemma write_refs_app (l k : list Z) (bk : list byte) :
  write_refs (l ++ k) bk = write_refs k (write_refs l bk).
Proof.
  revert bk. induction l as [|r l IH]; intro bk; [reflexivity|].
  cbn [app write_refs]. apply IH.
Qed.

(** The loop of [EndVector] over the pending references of a vector. *)
Lemma EndVector_loop_refs (refs : list Z) :
  forall (p bk : list byte),
    EndVector_loop (length refs) (mkBuffer (p ++ refs_bytes refs) bk)
    = Ok tt (mkBuffer p (write_refs (rev refs) bk)).
Proof.
  induction refs as [|r rs IH] using rev_ind; intros p bk.
  - cbn. now rewrite app_nil_r.
  - rewrite length_app, Nat.add_1_r, rev_app_distr. cbn [length rev app].
    cbn [EndVector_loop write_refs].
    rewrite refs_bytes_app, app_assoc.
    change (refs_bytes [r]) with (le_bytes 4 r ++ []). rewrite app_nil_r.
    unfold bind at 1. unfold FrontSize at 1. cbn [front].
    unfold bind at 1. unfold LoadFront at 1. cbn [front].
    replace (len ((p ++ refs_bytes rs) ++ le_bytes 4 r) - 4)
      with (len (p ++ refs_bytes rs))
      by (rewrite (len_app (p ++ refs_bytes rs)), len_le_bytes; lia).
    pose proof (read_bytes_tail (p ++ refs_bytes rs) (le_bytes 4 r)) as R.
    rewrite length_le_bytes in R. rewrite R.
    rewrite (bind_Ok _ _ _ _ _ (WriteReference_run _ _)). cbn [front back].
    pose proof (EraseFront_app (p ++ refs_bytes rs) (le_bytes 4 r)
                  (le_bytes 4 (len bk + 4 - le_value (le_bytes 4 r)) ++ bk)) as E.
    rewrite len_le_bytes in E. change (Z.of_nat 4) with 4 in E.
    rewrite (bind_Ok _ _ _ _ _ E).
    rewrite IH.
    assert (Hc : le_bytes 4 (len bk + 4 - le_value (le_bytes 4 r))
                 = le_bytes 4 (len bk + 4 - r)).
    { apply le_bytes4_congr. rewrite le_value_le_bytes4.
      now rewrite Zminus_mod_idemp_r. }
    now rewrite Hc.
Qed.

Lemma len_ref_slots (refs : list Z) (L : Z) :
  len (ref_slots refs L) = 4 * len refs.
Proof.
  induction refs as [|r t IH]; [reflexivity|].
  cbn [ref_slots]. rewrite len_app, len_le_bytes, IH, len_cons. lia.
Qed.

Lemma ref_slots_snoc (refs : list Z) (r L : Z) :
  ref_slots (refs ++ [r]) L
  = ref_slots refs (L + 4) ++ le_bytes 4 (L + 4 - r).
Proof.
  induction refs as [|x t IH].
  - cbn [app ref_slots]. rewrite app_nil_r. do 2 f_equal.
  - cbn [app ref_slots]. rewrite IH, <- app_assoc. do 2 f_equal.
    rewrite !len_cons, len_app, len_cons. unfold len at 2. cbn [length]. lia.
Qed.

(** The loop leaves the slots in the order of the references. *)
Lemma write_refs_slots (refs : list Z) :
  forall bk, write_refs (rev refs) bk = ref_slots refs (len bk) ++ bk.
Proof.
  induction refs as [|r rs IH] using rev_ind; intro bk; [reflexivity|].
  rewrite rev_app_distr. cbn [rev app write_refs].
  rewrite IH, ref_slots_snoc, <- app_assoc.
  rewrite len_app, len_le_bytes.
  replace (Z.of_nat 4 + len bk) with (len bk + 4) by lia. reflexivity.
Qed.

(** Slot [i] lies [4 * (n - i)] bytes above the old back memory. *)
Lemma ref_slots_at (refs : list Z) :
  forall (bk : list byte) (i : nat),
    (i < length refs)%nat ->
    back_at (len bk + 4 * (len refs - Z.of_nat i)) 4
      (ref_slots refs (len bk) ++ bk)
    = le_bytes 4 (len bk + 4 * (len refs - Z.of_nat i) - nth i refs 0).
Proof.
  induction refs as [|r t IH]; intros bk i Hi; [cbn [length] in Hi; lia|].
  cbn [length] in Hi. destruct i as [|i].
  - replace (len bk + 4 * (len (r :: t) - Z.of_nat 0))
      with (len (ref_slots (r :: t) (len bk) ++ bk))
      by (rewrite len_app, len_ref_slots; lia).
    rewrite back_at_head. cbn [ref_slots nth].
    rewrite <- app_assoc, firstn4_le_bytes. do 2 f_equal.
    rewrite !len_app, len_le_bytes, len_ref_slots, len_cons. lia.
  - cbn [ref_slots nth]. rewrite <- app_assoc.
    replace (len (r :: t) - Z.of_nat (S i)) with (len t - Z.of_nat i)
      by (rewrite len_cons; lia).
    rewrite back_at_app.
    + apply IH. lia.
    + rewrite len_app, len_ref_slots. unfold len. lia.
Qed.

End VectorRefFacts.

(** X10.  [EndVector] on the pending references of a vector writes one slot
    for each, in the order of the references, then the count; slot [i] lies
    [4 * (n - i)] bytes above the back memory it found and holds its own
    position minus reference [i]; the entries are erased from front memory,
    which is back at the mark. *)
Theorem EndVector_references (pre bk : list byte) (refs : list Z) :
  refs <> [] ->
  exists b',
    EndVector (len pre) (len refs) (mkBuffer (pre ++ refs_bytes refs) bk)
    = Ok (len (back b')) b' /\
    front b' = pre /\
    back b' = le_bytes 4 (len refs) ++ ref_slots refs (len bk) ++ bk /\
    forall i : nat,
      (i < length refs)%nat ->
      let p := len bk + 4 * (len refs - Z.of_nat i) in
      back_at p 4 (back b') = le_bytes 4 (p - nth i refs 0) /\
      (0 <= nth i refs 0 <= len bk -> p < 2 ^ 32 ->
       p - le_value (back_at p 4 (back b')) = nth i refs 0).
Proof.
  intro Hne.
  assert (Hn : 0 < len refs) by (destruct refs; [congruence|rewrite len_cons; pose proof (len_nonneg refs); lia]).
  exists (mkBuffer pre (le_bytes 4 (len refs) ++ ref_slots refs (len bk) ++ bk)).
  cbn [front back].
  assert (Hat : forall i : nat,
             (i < length refs)%nat ->
             back_at (len bk + 4 * (len refs - Z.of_nat i)) 4
               (le_bytes 4 (len refs) ++ ref_slots refs (len bk) ++ bk)
             = le_bytes 4 (len bk + 4 * (len refs - Z.of_nat i) - nth i refs 0)).
  { intros i Hi. rewrite back_at_app; [now apply ref_slots_at|].
    rewrite len_app, len_ref_slots. unfold len. lia. }
  split; [|split; [reflexivity|split; [reflexivity|]]].
  - unfold EndVector. unfold bind at 1. unfold FrontSize at 1. cbn [front].
    replace (len pre =? len (pre ++ refs_bytes refs)) with false
      by (symmetry; apply Z.eqb_neq; rewrite len_app, len_refs_bytes; lia).
    cbn [negb].
    replace (Z.to_nat (len refs)) with (length refs) by (unfold len; lia).
    rewrite (bind_Ok _ _ _ _ _ (EndVector_loop_refs refs pre bk)).
    replace (len refs =? 0) with false by (symmetry; apply Z.eqb_neq; lia).
    run. rewrite (le_bytes4_wrap (len refs)), write_refs_slots. reflexivity.
  - intros i Hi. split; [now apply Hat|].
    intros Hr Hp. rewrite Hat by exact Hi.
    rewrite le_value_le_bytes4, Z.mod_small; unfold len in *; lia.
Qed.

Lemma EndVector_references_witness :
  exists b',
    EndVector 0 2 (mkBuffer (refs_bytes [7; 3]) [x02; x00; x00; x00; x61; x62; x00])
    = Ok (len (back b')) b' /\
    front b' = [] /\
    15 - le_value (back_at 15 4 (back b')) = 7 /\
    11 - le_value (back_at 11 4 (back b')) = 3.
Proof.
  destruct (EndVector_references [] [x02; x00; x00; x00; x61; x62; x00] [7; 3])
    as (b' & H1 & H2 & H3 & H4); [discriminate|].
  exists b'. split; [exact H1|]. split; [exact H2|].
  split.
  - apply (proj2 (H4 0%nat ltac:(cbn; lia))); [cbn; unfold len; cbn; lia|reflexivity].
  - apply (proj2 (H4 1%nat ltac:(cbn; lia))); [cbn; unfold len; cbn; lia|reflexivity].
Defined.

(** ** Front memory below the mark *)

Section BelowFacts.

Lemma keeps_below_bind {A B} (s : Z) (m : M A) (k : A -> M B) :
  keeps_below s m -> (forall a, keeps_below s (k a)) -> keeps_below s (bind m k).
Proof.
  intros Hm Hk b y b' H.
  destruct (bind_inv _ _ _ _ _ H) as (a & b1 & H1 & H2).
  rewrite (Hk a _ _ _ H2). exact (Hm _ _ _ H1).
Qed.

Lemma keeps_below_same {A} (s : Z) (m : M A) :
  (forall b a b', m b = Ok a b' -> front b' = front b) -> keeps_below s m.
Proof. intros H b a b' E. now rewrite (H b a b' E). Qed.

Lemma keeps_below_ret {A} (s : Z) (a : A) : keeps_below s (ret a).
Proof.
  apply keeps_below_same. intros b x b' H. unfold ret in H.
  now injection H as _ <-.
Qed.

Lemma keeps_below_LoadField (s iter : Z) : keeps_below s (LoadField iter).
Proof.
  apply keeps_below_same. intros b a b' H.
  unfold LoadField, LoadFront, bind, ret in H.
  destruct (read_bytes _ _ _); [|discriminate]. now injection H as _ <-.
Qed.

Lemma keeps_below_WriteReference (s reference : Z) :
  keeps_below s (WriteReference reference).
Proof.
  apply keeps_below_same. intros b a b' H. rewrite WriteReference_run in H.
  now injection H as _ <-.
Qed.

Lemma keeps_below_StoreBack (s pos off : Z) (bs : list byte) :
  keeps_below s (StoreBack pos off bs).
Proof.
  apply keeps_below_same. intros b a b' H. unfold StoreBack in H.
  destruct (write_bytes _ _ _); [|discriminate]. now injection H as _ <-.
Qed.

(** A store at or above the mark leaves the bytes below it. *)
Lemma keeps_below_StoreFront (s pos : Z) (bs : list byte) :
  0 <= s <= pos -> keeps_below s (StoreFront pos bs).
Proof.
  intros Hs b a b' H. unfold StoreFront, write_bytes in H.
  destruct ((0 <=? pos) && (pos + len bs <=? len (front b))) eqn:E;
    [|discriminate].
  apply andb_true_iff in E. destruct E as [E1 E2].
  apply Z.leb_le in E1. apply Z.leb_le in E2.
  injection H as _ <-. cbn [front].
  rewrite firstn_app.
  assert (Hl : length (firstn (Z.to_nat pos) (front b)) = Z.to_nat pos).
  { rewrite length_firstn. pose proof (len_nonneg bs). unfold len in *. lia. }
  rewrite Hl. replace (Z.to_nat s - Z.to_nat pos)%nat with 0%nat by lia.
  cbn [firstn]. rewrite app_nil_r, firstn_firstn.
  f_equal. lia.
Qed.

Lemma keeps_below_for_range {St} (s step : Z) (body : Z -> St -> M St) :
  0 <= step ->
  (forall i x, s <= i -> keeps_below s (body i x)) ->
  forall fuel iter last x,
    s <= iter -> keeps_below s (for_range fuel iter last step body x).
Proof.
  intros Hstep Hbody fuel.
  induction fuel as [|fuel IH]; intros iter last x Hi; cbn [for_range];
    destruct (iter <? last).
  - intros b a b' H. discriminate.
  - apply keeps_below_ret.
  - apply keeps_below_bind; [now apply Hbody|]. intro x'. apply IH. lia.
  - apply keeps_below_ret.
Qed.

Lemma keeps_below_WriteTable (start end_ : Z) :
  0 <= start -> keeps_below start (WriteTable start end_).
Proof.
  intro Hs. unfold WriteTable. apply keeps_below_bind.
  - apply keeps_below_for_range; [unfold sizeof_Field; lia| |lia].
    intros i x Hi. unfold WriteTable_body.
    apply keeps_below_bind; [apply keeps_below_LoadField|]. intro f.
    destruct ((size f =? 0) && (offset f =? 0)); [apply keeps_below_ret|].
    destruct (size f =? 0); [|apply keeps_below_ret].
    apply keeps_below_bind; [apply keeps_below_WriteReference|]. intros _.
    apply keeps_below_bind.
    { apply keeps_below_same. intros b a b' H. unfold BackSize in H.
      now injection H as _ <-. }
    intro bs.
    apply keeps_below_bind; [apply keeps_below_StoreFront; lia|]. intros _.
    apply keeps_below_ret.
  - intro acc. apply keeps_below_same. intros b a b' H.
    unfold bind, WriteBack, BackSize, ret in H. now injection H as _ <-.
Qed.

Lemma keeps_below_CreateVTable (s vtable_size object_size : Z) :
  keeps_below s (CreateVTable vtable_size object_size).
Proof.
  unfold CreateVTable.
  apply keeps_below_bind.
  { apply keeps_below_same. intros b a b' H. unfold AllocBack in H.
    now injection H as _ <-. }
  intros _. apply keeps_below_bind.
  { apply keeps_below_same. intros b a b' H. unfold BackSize in H.
    now injection H as _ <-. }
  intro bs. apply keeps_below_bind; [apply keeps_below_StoreBack|]. intros _.
  apply keeps_below_same. intros b a b' H.
  unfold bind, WriteBack, BackSize, ret in H. now injection H as _ <-.
Qed.

Lemma keeps_below_UpdateVTable (s start end_ root_offset vtable_offset : Z) :
  keeps_below s (UpdateVTable start end_ root_offset vtable_offset).
Proof.
  unfold UpdateVTable.
  assert (H : forall fuel iter last x,
             keeps_below s (for_range fuel iter last sizeof_Field
                              (UpdateVTable_body root_offset vtable_offset) x)).
  { induction fuel as [|fuel IH]; intros iter last x; cbn [for_range];
      destruct (iter <? last); try apply keeps_below_ret.
    - intros b a b' E. discriminate.
    - apply keeps_below_bind; [|intro x'; apply IH].
      unfold UpdateVTable_body.
      apply keeps_below_bind; [apply keeps_below_LoadField|]. intro f.
      destruct (offset f =? 0); [apply keeps_below_ret|].
      apply keeps_below_StoreBack. }
  apply H.
Qed.

End BelowFacts.

(** X11.  Whenever [EndTable(start)] returns, for a mark and a front size
    that are [size_t] values, the mark is within front memory and front
    memory is cut back to exactly its first [start] bytes, with those bytes
    as they were: [EndTable] erases what lies above its mark and touches
    nothing below it, whatever front memory holds. *)
Theorem EndTable_restores_front (start : Z) (b b' : InwardBuffer) (root : Z) :
  EndTable start b = Ok root b' ->
  0 <= start < 2 ^ 64 ->
  len (front b) < 2 ^ 64 ->
  start <= len (front b) /\
  front b' = firstn (Z.to_nat start) (front b).
Proof.
  unfold EndTable. intros H Hs He.
  destruct (bind_inv _ _ _ _ _ H) as (e & b0 & Hfs & H0). clear H.
  unfold FrontSize in Hfs. injection Hfs as <- <-.
  destruct (bind_inv _ _ _ _ _ H0) as ([[r osz] vsz] & b1 & H1 & H2). clear H0.
  destruct (bind_inv _ _ _ _ _ H2) as (vto & b2 & H3 & H4). clear H2.
  destruct (bind_inv _ _ _ _ _ H4) as ([] & b3 & H5 & H6). clear H4.
  destruct (bind_inv _ _ _ _ _ H6) as ([] & b4 & H7 & H8). clear H6.
  unfold ret in H8. injection H8 as _ <-.
  pose proof (keeps_front_WriteTable _ _ _ _ _ H1) as F1.
  pose proof (keeps_front_CreateVTable _ _ _ _ _ H3) as F2.
  pose proof (keeps_front_UpdateVTable _ _ _ _ _ _ _ H5) as F3.
  pose proof (keeps_below_WriteTable start (len (front b)) ltac:(lia) _ _ _ H1)
    as B1.
  pose proof (keeps_below_CreateVTable start _ _ _ _ _ H3) as B2.
  pose proof (keeps_below_UpdateVTable start _ _ _ _ _ _ _ H5) as B3.
  unfold EraseFront in H7.
  destruct ((0 <=? size_t (len (front b) - start))
            && (size_t (len (front b) - start) <=? len (front b3))) eqn:E;
    [|discriminate].
  apply andb_true_iff in E. destruct E as [_ E2]. apply Z.leb_le in E2.
  injection H7 as <-. cbn [front].
  pose proof (len_nonneg (front b)) as Hn.
  assert (Hle : start <= len (front b)).
  { destruct (Z_le_gt_dec start (len (front b))) as [Hle|Hgt]; [exact Hle|].
    exfalso. unfold size_t, wrap in E2.
    assert (Hm : (len (front b) - start) mod 2 ^ 64
                 = len (front b) - start + 2 ^ 64).
    { symmetry. apply (Z.mod_unique_pos _ _ (-1)); lia. }
    lia. }
  split; [exact Hle|].
  assert (Hsz : size_t (len (front b) - start) = len (front b) - start)
    by (unfold size_t; apply wrap_small; lia).
  rewrite Hsz.
  replace (length (front b3) - Z.to_nat (len (front b) - start))%nat
    with (Z.to_nat start) by (unfold len in *; lia).
  now rewrite B3, B2, B1.
Qed.

Lemma EndTable_restores_front_witness :
  exists root b',
    EndTable 4 (mkBuffer ([x09; x09; x09; x09] ++ Field_bytes (mkField 2 1 1 1))
                         [x07])
    = Ok root b' /\
    front b' = [x09; x09; x09; x09].
Proof.
  assert (H : EndTable 4 (mkBuffer ([x09; x09; x09; x09]
                                    ++ Field_bytes (mkField 2 1 1 1)) [x07])
              = Ok 5 (mkBuffer [x09; x09; x09; x09]
                        [x06; x00; x01; x00; x04; x00;
                         x06; x00; x00; x00; x07]))
    by (vm_compute; reflexivity).
  eexists _, _. split; [exact H|].
  apply (EndTable_restores_front 4 _ _ _ H); [lia|vm_compute; reflexivity].
Defined.

Lemma SerializeObject_front_witness :
  exists ptr b',
    SerializeObject (Scalar (scalar 4 1) 4 0) (mkBuffer [x09] [])
    = Ok (ptr, []) b' /\
    len (front b') = 1.
Proof.
  assert (H : SerializeObject (Scalar (scalar 4 1) 4 0) (mkBuffer [x09] [])
              = Ok (18, [])
                  (mkBuffer [x09]
                     [x0a; x00; x00; x00; x06; x00; x04; x00; x04; x00;
                      x06; x00; x00; x00; x01; x00; x00; x00]))
    by (vm_compute; reflexivity).
  eexists _, _. split; [exact H|].
  apply (SerializeObject_front _ _ _ _ _ H); vm_compute; reflexivity.
Defined.

(** ** Positions handed back to the caller *)

Section PositionFacts.

Lemma grows_back_bind {A B} (m : M A) (k : A -> M B) :
  grows_back m -> (forall a, grows_back (k a)) -> grows_back (bind m k).
Proof.
  intros Hm Hk b y b' H.
  destruct (bind_inv _ _ _ _ _ H) as (a & b1 & H1 & H2).
  pose proof (Hm _ _ _ H1). pose proof (Hk a _ _ _ H2). lia.
Qed.

Lemma grows_back_same {A} (m : M A) :
  (forall b a b', m b = Ok a b' -> len (back b') = len (back b)) ->
  grows_back m.
Proof. intros H b a b' E. rewrite (H b a b' E). lia. Qed.

Lemma grows_back_ret {A} (a : A) : grows_back (ret a).
Proof.
  apply grows_back_same. intros b x b' H. unfold ret in H.
  now injection H as _ <-.
Qed.

Lemma grows_back_BackSize : grows_back BackSize.
Proof.
  apply grows_back_same. intros b x b' H. unfold BackSize in H.
  now injection H as _ <-.
Qed.

Lemma grows_back_WriteBack (bs : list byte) : grows_back (WriteBack bs).
Proof.
  intros b a b' H. unfold WriteBack in H. injection H as _ <-. cbn [back].
  rewrite len_app. pose proof (len_nonneg bs). lia.
Qed.

Lemma grows_back_AllocBack (n : Z) : grows_back (AllocBack n).
Proof.
  intros b a b' H. unfold AllocBack in H. injection H as _ <-. cbn [back].
  rewrite len_app, len_repeat. lia.
Qed.

Lemma grows_back_StoreBack (pos off : Z) (bs : list byte) :
  grows_back (StoreBack pos off bs).
Proof.
  apply grows_back_same. intros b a b' H. unfold StoreBack in H.
  destruct (write_bytes _ _ _) as [k|] eqn:E; [|discriminate].
  injection H as _ <-. cbn [back]. exact (write_bytes_len _ _ _ _ E).
Qed.

Lemma grows_back_LoadField (iter : Z) : grows_back (LoadField iter).
Proof.
  apply grows_back_same. intros b a b' H.
  unfold LoadField, LoadFront, bind, ret in H.
  destruct (read_bytes _ _ _); [|discriminate]. now injection H as _ <-.
Qed.

Lemma grows_back_for_range {St} (step : Z) (body : Z -> St -> M St) :
  (forall i x, grows_back (body i x)) ->
  forall fuel iter last x, grows_back (for_range fuel iter last step body x).
Proof.
  intros Hbody fuel.
  induction fuel as [|fuel IH]; intros iter last x; cbn [for_range];
    destruct (iter <? last); try apply grows_back_ret.
  - intros b a b' H. discriminate.
  - apply grows_back_bind; [apply Hbody|]. intro x'. apply IH.
Qed.

Lemma grows_back_CreateVTable (vtable_size object_size : Z) :
  grows_back (CreateVTable vtable_size object_size).
Proof.
  unfold CreateVTable.
  apply grows_back_bind; [apply grows_back_AllocBack|]. intros _.
  apply grows_back_bind; [apply grows_back_BackSize|]. intro bs.
  apply grows_back_bind; [apply grows_back_StoreBack|]. intros _.
  apply grows_back_bind; [apply grows_back_BackSize|]. intro v.
  apply grows_back_bind; [apply grows_back_WriteBack|]. intros _.
  apply grows_back_bind; [apply grows_back_WriteBack|]. intros _.
  apply grows_back_ret.
Qed.

Lemma grows_back_UpdateVTable (start end_ root_offset vtable_offset : Z) :
  grows_back (UpdateVTable start end_ root_offset vtable_offset).
Proof.
  unfold UpdateVTable. apply grows_back_for_range. intros i x.
  unfold UpdateVTable_body.
  apply grows_back_bind; [apply grows_back_LoadField|]. intro f.
  destruct (offset f =? 0); [apply grows_back_ret|].
  apply grows_back_StoreBack.
Qed.

Lemma grows_back_EraseFront (n : Z) : grows_back (EraseFront n).
Proof.
  apply grows_back_same. intros b a b' H. unfold EraseFront in H.
  destruct (_ && _); [|discriminate]. now injection H as _ <-.
Qed.

(** The position [WriteTable] returns is the back size it leaves. *)
Lemma WriteTable_root (start end_ : Z) (b b' : InwardBuffer) (r : Z * Z * Z) :
  WriteTable start end_ b = Ok r b' -> fst (fst r) = len (back b').
Proof.
  unfold WriteTable. intro H.
  destruct (bind_inv _ _ _ _ _ H) as (acc & b1 & _ & H1).
  unfold bind, WriteBack, BackSize, ret in H1. cbn [back] in H1.
  now injection H1 as <- <-.
Qed.

Lemma Reference_accepts (p offset : Z) (b : InwardBuffer) :
  p <= len (back b) ->
  Reference p offset b
  = Ok tt (mkBuffer
             (front b ++ Field_bytes (mkField (wrap 16 (offset / 2)) 0 0
                                              (wrap 32 p)))
             (back b)).
Proof.
  intro H. run.
  destruct (p <=? len (back b)) eqn:E; [reflexivity|].
  apply Z.leb_gt in E. lia.
Qed.

End PositionFacts.

(** X12.  A position returned by [CreateString], [EndVector] or [EndTable]
    never exceeds the back size left by that call, so [Reference] called
    with it on the buffer it comes from passes its check and records the
    field. *)
Theorem returned_positions_pass_check (offset : Z) (b b' : InwardBuffer)
    (p : Z) :
  ((exists str, CreateString str b = Ok p b') \/
   (exists start num, EndVector start num b = Ok p b') \/
   (exists start, EndTable start b = Ok p b')) ->
  p <= len (back b') /\
  Reference p offset b'
  = Ok tt (mkBuffer
             (front b' ++ Field_bytes (mkField (wrap 16 (offset / 2)) 0 0
                                               (wrap 32 p)))
             (back b')).
Proof.
  intro H.
  assert (Hp : p <= len (back b')).
  { destruct H as [[str H]|[[start [num H]]|[start H]]].
    - unfold CreateString in H.
      destruct (String.length str =? 0)%nat.
      + unfold ret in H. injection H as <- <-. apply len_nonneg.
      + unfold bind, WriteBack, BackSize in H. cbn [back] in H.
        injection H as <- <-. cbn [back]. lia.
    - unfold EndVector in H.
      destruct (bind_inv _ _ _ _ _ H) as (e & b0 & _ & H0). clear H.
      destruct (bind_inv _ _ _ _ _ H0) as ([] & b1 & _ & H1). clear H0.
      destruct (num =? 0).
      + unfold ret in H1. injection H1 as <- <-. apply len_nonneg.
      + unfold bind, WriteBack, BackSize in H1. cbn [back] in H1.
        injection H1 as <- <-. cbn [back]. lia.
    - unfold EndTable in H.
      destruct (bind_inv _ _ _ _ _ H) as (e & b0 & _ & H0). clear H.
      destruct (bind_inv _ _ _ _ _ H0) as ([[r osz] vsz] & b1 & H1 & H2).
      clear H0.
      destruct (bind_inv _ _ _ _ _ H2) as (vto & b2 & H3 & H4). clear H2.
      destruct (bind_inv _ _ _ _ _ H4) as ([] & b3 & H5 & H6). clear H4.
      destruct (bind_inv _ _ _ _ _ H6) as ([] & b4 & H7 & H8). clear H6.
      unfold ret in H8. injection H8 as <- <-.
      pose proof (WriteTable_root _ _ _ _ _ H1) as Hr. cbn [fst] in Hr.
      pose proof (grows_back_CreateVTable _ _ _ _ _ H3).
      pose proof (grows_back_UpdateVTable _ _ _ _ _ _ _ H5).
      pose proof (grows_back_EraseFront _ _ _ _ H7). lia. }
  split; [exact Hp|]. now apply Reference_accepts.
Qed.

Lemma returned_positions_pass_check_witness :
  exists b1,
    Reference 7 4 (mkBuffer [] [x02; x00; x00; x00; x61; x62; x00]) = Ok tt b1.
Proof.
  eexists.
  apply (returned_positions_pass_check 4 (mkBuffer [] [])
           (mkBuffer [] [x02; x00; x00; x00; x61; x62; x00]) 7).
  left. exists "ab"%string. vm_compute. reflexivity.
Defined.

(** X13.  [String] of an empty string writes nothing to back memory and
    records a null reference, which [EndTable] treats as an absent field;
    of any other string it records the position at which a reader finds the
    length, the bytes and the terminator. *)
Theorem String_field (value : string) (offset : Z) (b : InwardBuffer) :
  (value = EmptyString ->
   absent (mkField (wrap 16 (offset / 2)) 0 0 0) = true /\
   String value offset b
   = Ok tt (mkBuffer (front b ++ Field_bytes (mkField (wrap 16 (offset / 2)) 0 0 0))
                     (back b))) /\
  (value <> EmptyString ->
   exists b',
     String value offset b = Ok tt b' /\
     front b' = front b ++ Field_bytes
                  (mkField (wrap 16 (offset / 2)) 0 0 (wrap 32 (len (back b')))) /\
     back_at (len (back b')) (4 + String.length value + 1) (back b')
     = le_bytes 4 (Z.of_nat (String.length value))
       ++ list_byte_of_string value ++ [x00] /\
     len (back b') = len (back b) + 4 + Z.of_nat (String.length value) + 1).
Proof.
  split.
  - intros ->. split; reflexivity.
  - intro Hne.
    set (obj := le_bytes 4 (Z.of_nat (String.length value))
                ++ list_byte_of_string value ++ [x00]).
    assert (Hlo : length obj = (4 + String.length value + 1)%nat).
    { unfold obj. rewrite !length_app, length_le_bytes,
        length_list_byte_of_string. cbn [length]. lia. }
    exists (mkBuffer
              (front b ++ Field_bytes
                 (mkField (wrap 16 (offset / 2)) 0 0
                    (wrap 32 (len (obj ++ back b)))))
              (obj ++ back b)).
    cbn [front back].
    split; [|split; [reflexivity|split]].
    + destruct value as [|c value]; [congruence|].
      unfold String. run. cbn [String.length Nat.eqb].
      rewrite (le_bytes4_wrap (Z.of_nat (S (String.length value)))).
      unfold obj. cbn [String.length]. rewrite <- !app_assoc. reflexivity.
    + rewrite back_at_head, <- Hlo. apply firstn_length_app.
    + rewrite len_app. unfold len at 1. rewrite Hlo. lia.
Qed.

Lemma String_field_witness :
  exists b',
    String "ab" 4 (mkBuffer [] []) = Ok tt b' /\
    front b' = Field_bytes (mkField 2 0 0 7) /\
    back_at 7 7 (back b') = [x02; x00; x00; x00; x61; x62; x00].
Proof.
  destruct (proj2 (String_field "ab" 4 (mkBuffer [] [])))
    as (b' & H1 & H2 & H3 & H4); [discriminate|].
  exists b'. split; [exact H1|].
  change (len (back (mkBuffer [] []))) with 0 in H4.
  cbn [String.length Z.of_nat] in H4.
  assert (Hl : len (back b') = 7) by (rewrite H4; reflexivity).
  rewrite Hl in H2, H3. split; [exact H2|exact H3].
Defined.

(** ** Vectors of strings *)

Section StringVectorFacts.

Lemma write_strings_cons (s : string) (t : list string) (bk : list byte) :
  write_strings (s :: t) bk
  = let bk1 := if (String.length s =? 0)%nat then bk
               else le_bytes 4 (Z.of_nat (String.length s))
                    ++ list_byte_of_string s ++ [x00] ++ bk in
    ((if (String.length s =? 0)%nat then 0 else len bk1)
       :: fst (write_strings t bk1),
     snd (write_strings t bk1)).
Proof.
  cbn [write_strings]. cbv zeta.
  now destruct (write_strings t _).
Qed.

(** The loop of [VectorOfStrings]: every string is created and its position
    recorded in front memory. *)
Lemma strings_run (strs : list string) :
  forall (fr bk : list byte),
    for_each strs (fun str => r <- CreateString str;; AddVectorReference r)
      (mkBuffer fr bk)
    = Ok tt (mkBuffer (fr ++ refs_bytes (fst (write_strings strs bk)))
                      (snd (write_strings strs bk))).
Proof.
  induction strs as [|s t IH]; intros fr bk.
  - cbn. now rewrite app_nil_r.
  - rewrite write_strings_cons. cbv zeta. cbn [fst snd for_each].
    unfold bind at 1. unfold bind at 1. unfold CreateString.
    destruct (String.length s =? 0)%nat.
    + unfold ret at 1. unfold AddVectorReference, WriteFront. cbn [front back].
      rewrite IH.
      change (refs_bytes (0 :: ?l)) with (le_bytes 4 0 ++ refs_bytes l).
      now rewrite <- app_assoc.
    + unfold bind, WriteBack, BackSize, AddVectorReference, WriteFront.
      cbn [front back].
      rewrite (le_bytes4_wrap (Z.of_nat (String.length s))).
      change (le_bytes 1 0) with [x00]. cbn [app].
      set (bk1 := le_bytes 4 (Z.of_nat (String.length s))
                  ++ list_byte_of_string s ++ x00 :: bk).
      rewrite (le_bytes4_wrap (len bk1)), IH.
      change (refs_bytes (len bk1 :: ?l)) with (le_bytes 4 (len bk1) ++ refs_bytes l).
      now rewrite <- app_assoc.
Qed.

Lemma write_strings_back (strs : list string) :
  forall bk, exists new,
    snd (write_strings strs bk) = new ++ bk /\
    length (fst (write_strings strs bk)) = length strs.
Proof.
  induction strs as [|s t IH]; intro bk.
  - exists []. split; reflexivity.
  - rewrite write_strings_cons. cbv zeta. cbn [fst snd length].
    destruct (String.length s =? 0)%nat.
    + destruct (IH bk) as (new & H1 & H2). exists new. now rewrite H2.
    + destruct (IH (le_bytes 4 (Z.of_nat (String.length s))
                    ++ list_byte_of_string s ++ [x00] ++ bk))
        as (new & H1 & H2).
      exists (new ++ le_bytes 4 (Z.of_nat (String.length s))
              ++ list_byte_of_string s ++ [x00]).
      rewrite H1, H2, <- !app_assoc. split; reflexivity.
Qed.

(** Where string [i] lies in the back memory the loop leaves. *)
Lemma write_strings_at (strs : list string) :
  forall (bk : list byte) (i : nat),
    (i < length strs)%nat ->
    let s := nth i strs EmptyString in
    let q := nth i (fst (write_strings strs bk)) 0 in
    (s = EmptyString -> q = 0) /\
    (s <> EmptyString ->
     0 < q <= len (snd (write_strings strs bk)) /\
     back_at q (4 + String.length s + 1) (snd (write_strings strs bk))
     = le_bytes 4 (Z.of_nat (String.length s))
       ++ list_byte_of_string s ++ [x00]).
Proof.
  induction strs as [|s t IH]; intros bk i Hi; [cbn [length] in Hi; lia|].
  rewrite write_strings_cons. cbv zeta. cbn [fst snd].
  destruct i as [|i]; cbn [nth].
  - destruct s as [|c s]; cbn [String.length Nat.eqb].
    + split; [reflexivity|congruence].
    + split; [discriminate|]. intros _.
      set (obj := le_bytes 4 (Z.of_nat (S (String.length s)))
                  ++ list_byte_of_string (String.String c s) ++ [x00]).
      assert (Hlo : length obj = (4 + S (String.length s) + 1)%nat).
      { unfold obj. rewrite !length_app, length_le_bytes,
          length_list_byte_of_string. cbn [length String.length]. lia. }
      replace (le_bytes 4 (Z.of_nat (S (String.length s)))
               ++ list_byte_of_string (String.String c s) ++ [x00] ++ bk)
        with (obj ++ bk) by (unfold obj; now rewrite <- !app_assoc).
      destruct (write_strings_back t (obj ++ bk)) as (new & H1 & _).
      rewrite H1. split.
      * assert (Hlobj : len obj = 4 + Z.of_nat (S (String.length s)) + 1)
          by (unfold len; rewrite Hlo; lia).
        rewrite !len_app, Hlobj.
        pose proof (len_nonneg new). pose proof (len_nonneg bk). lia.
      * rewrite back_at_app by (pose proof (len_nonneg (obj ++ bk)); lia).
        rewrite back_at_head, <- Hlo.
        apply firstn_length_app.
  - cbn [length] in Hi. apply IH. lia.
Qed.

End StringVectorFacts.

(** X14.  [VectorOfStrings] on a non-empty vector creates the strings, then
    writes one slot for each in the order of the vector, then the count, and
    records the position of the vector.  Slot [i] lies [4 + 4 * i] bytes
    into the vector and holds its own position minus the position of string
    [i], where the length, the bytes and the terminator of the string lie;
    for an empty string that position is 0, the end of the buffer. *)
Theorem VectorOfStrings_layout (value : list string) (offset : Z)
    (b : InwardBuffer) :
  value <> [] ->
  exists b' new,
    VectorOfStrings value offset b = Ok tt b' /\
    front b' = front b ++ Field_bytes
                 (mkField (wrap 16 (offset / 2)) 0 0 (wrap 32 (len (back b')))) /\
    back b' = new ++ back b /\
    firstn 4 (back b') = le_bytes 4 (len value) /\
    forall i : nat,
      (i < length value)%nat ->
      let s := nth i value EmptyString in
      let p := len (back b') - 4 - 4 * Z.of_nat i in
      exists q,
        back_at p 4 (back b') = le_bytes 4 (p - q) /\
        (s = EmptyString -> q = 0) /\
        (s <> EmptyString ->
         0 < q < p /\
         back_at q (4 + String.length s + 1) (back b')
         = le_bytes 4 (Z.of_nat (String.length s))
           ++ list_byte_of_string s ++ [x00]).
Proof.
  intro Hne.
  destruct (write_strings_back value (back b)) as (new & Hnew & Hlen).
  set (ps := fst (write_strings value (back b))) in *.
  set (bk' := snd (write_strings value (back b))) in *.
  assert (Hps : ps <> []) by (destruct ps; [destruct value; [congruence|discriminate]|discriminate]).
  assert (Hlps : len ps = len value) by (unfold len; now rewrite Hlen).
  pose proof (EndVector_loop_refs ps (front b) bk') as Hloop.
  set (bkf := le_bytes 4 (len value) ++ ref_slots ps (len bk') ++ bk').
  assert (Hlbkf : len bkf = 4 + 4 * len value + len bk')
    by (unfold bkf; rewrite !len_app, len_le_bytes, len_ref_slots, Hlps; lia).
  exists (mkBuffer
            (front b ++ Field_bytes
               (mkField (wrap 16 (offset / 2)) 0 0 (wrap 32 (len bkf))))
            bkf),
         (le_bytes 4 (len value) ++ ref_slots ps (len bk') ++ new).
  cbn [front back].
  assert (Hn : 0 < len value)
    by (destruct value; [congruence|rewrite len_cons; pose proof (len_nonneg value); lia]).
  split; [|split; [reflexivity|split; [|split; [reflexivity|]]]].
  - unfold VectorOfStrings, StartVector. unfold bind at 1. unfold FrontSize at 1.
    destruct b as [fr bk]. cbn [front back] in *.
    rewrite (bind_Ok _ _ _ _ _ (strings_run value fr bk)). fold ps bk'.
    unfold EndVector. unfold bind at 1. unfold bind at 1.
    unfold FrontSize at 1. cbn [front].
    replace (len fr =? len (fr ++ refs_bytes ps)) with false
      by (symmetry; apply Z.eqb_neq; rewrite len_app, len_refs_bytes; lia).
    cbn [negb].
    replace (Z.to_nat (len value)) with (length ps) by (unfold len; lia).
    unfold bind at 1. rewrite Hloop.
    replace (len value =? 0) with false by (symmetry; apply Z.eqb_neq; lia).
    run. rewrite (le_bytes4_wrap (len value)), write_refs_slots. reflexivity.
  - unfold bkf. rewrite Hnew, <- !app_assoc. reflexivity.
  - intros i Hi.
    destruct (write_strings_at value (back b) i Hi) as [He Hs].
    fold ps bk' in He, Hs.
    exists (nth i ps 0).
    assert (Hp : len bkf - 4 - 4 * Z.of_nat i
                 = len bk' + 4 * (len ps - Z.of_nat i)) by (rewrite Hlbkf, Hlps; lia).
    rewrite Hp.
    assert (Hi' : (i < length ps)%nat) by lia.
    split.
    + unfold bkf. rewrite back_at_app.
      * now apply ref_slots_at.
      * rewrite len_app, len_ref_slots. unfold len. lia.
    + split; [exact He|]. intro Hsn. destruct (Hs Hsn) as [Hq Hat].
      split; [unfold len in *; lia|].
      unfold bkf. rewrite back_at_app
        by (rewrite len_app; pose proof (len_nonneg (ref_slots ps (len bk'))); lia).
      rewrite back_at_app by lia. exact Hat.
Qed.

Lemma VectorOfStrings_layout_witness :
  exists b',
    VectorOfStrings ["a"; ""; "bb"]%string 4 (mkBuffer [] []) = Ok tt b' /\
    firstn 4 (back b') = [x03; x00; x00; x00] /\
    exists q, back_at (len (back b') - 4 - 8) 4 (back b')
              = le_bytes 4 (len (back b') - 4 - 8 - q) /\
              back_at q 7 (back b') = [x02; x00; x00; x00; x62; x62; x00].
Proof.
  destruct (VectorOfStrings_layout ["a"; ""; "bb"]%string 4 (mkBuffer [] []))
    as (b' & new & H1 & H2 & H3 & H4 & H5); [discriminate|].
  exists b'. split; [exact H1|]. split; [exact H4|].
  destruct (H5 2%nat ltac:(cbn; lia)) as (q & Hq1 & _ & Hq3).
  exists q. split; [exact Hq1|].
  apply Hq3. discriminate.
Defined.

(** ** Hooks that write fields *)

Section HookFacts.

Lemma ledger_bytes_app (l k : list Field) :
  ledger_bytes (l ++ k) = ledger_bytes l ++ ledger_bytes k.
Proof. unfold ledger_bytes. now rewrite map_app, concat_app. Qed.

Lemma ledger_bytes_one (f : Field) : ledger_bytes [f] = Field_bytes f.
Proof. unfold ledger_bytes. cbn [map concat]. apply app_nil_r. Qed.

Lemma wrapped_Field_ok (i s a o : Z) :
  Field_ok (mkField (wrap 16 i) (wrap 8 s) (wrap 8 a) (wrap 32 o)).
Proof.
  unfold Field_ok. cbn [index size align offset].
  repeat split; try (apply wrap_range; lia);
    match goal with |- _ < _ => apply wrap_range; lia | _ => idtac end.
Qed.

Lemma reference_Field_ok (i o : Z) :
  Field_ok (mkField (wrap 16 i) 0 0 (wrap 32 o)).
Proof. exact (wrapped_Field_ok i 0 0 o). Qed.

(** A run that appends one record and prepends [new]. *)
Lemma writes_one (m : M unit) :
  (forall b, exists f new,
      Field_ok f /\
      m b = Ok tt (mkBuffer (front b ++ Field_bytes f) (new ++ back b))) ->
  writes_fields 1 m.
Proof.
  intros H b. destruct (H b) as (f & new & Hf & Hm).
  exists [f], new. rewrite ledger_bytes_one.
  split; [reflexivity|]. split; [now constructor|exact Hm].
Qed.

Lemma writes_fields_ret : writes_fields 0 (ret tt).
Proof.
  intro b. exists [], []. cbn [ledger_bytes map concat app].
  rewrite app_nil_r. split; [reflexivity|]. split; [constructor|].
  now destruct b.
Qed.


Lemma writes_AddValueField (index : Z) (value : object) :
  0 < alignof value -> writes_fields 1 (AddValueField index value).
Proof.
  intro Ha. apply writes_one. intro b.
  pose proof (AddValueField_run index value b Ha) as H. cbv zeta in H.
  eexists _, (bytes value ++ repeat x00 _).
  split; [apply wrapped_Field_ok|]. rewrite H, <- app_assoc. reflexivity.
Qed.


(** A reference field whose referent is produced by [m], which only
    prepends to back memory and leaves front memory alone. *)
Lemma writes_reference (m : M Z) (offset : Z) :
  (forall b, exists r new, m b = Ok r (mkBuffer (front b) (new ++ back b))) ->
  writes_fields 1 (reference <- m;; AddReferenceField (offset / 2) reference).
Proof.
  intro H. apply writes_one. intro b.
  destruct (H b) as (r & new & Hm).
  eexists _, new. split; [apply reference_Field_ok|].
  rewrite (bind_Ok _ _ _ _ _ Hm). reflexivity.
Qed.

Lemma CreateString_prepends (str : string) (b : InwardBuffer) :
  exists r new, CreateString str b = Ok r (mkBuffer (front b) (new ++ back b)).
Proof.
  unfold CreateString. destruct (String.length str =? 0)%nat.
  - exists 0, []. unfold ret. now destruct b.
  - exists (len (le_bytes 4 (wrap 32 (Z.of_nat (String.length str)))
                 ++ list_byte_of_string str ++ le_bytes 1 0 ++ back b)),
           (le_bytes 4 (wrap 32 (Z.of_nat (String.length str)))
            ++ list_byte_of_string str ++ le_bytes 1 0).
    rewrite <- !app_assoc. reflexivity.
Qed.

(** [EndVector] on the pending references [refs]. *)
Lemma EndVector_refs_run (fr bk : list byte) (refs : list Z) :
  exists r new,
    EndVector (len fr) (len refs) (mkBuffer (fr ++ refs_bytes refs) bk)
    = Ok r (mkBuffer fr (new ++ bk)).
Proof.
  destruct refs as [|x t].
  - exists 0, []. cbn [refs_bytes map concat app]. rewrite app_nil_r.
    pose proof (EndVector_no_refs (mkBuffer fr bk) 0) as E. exact E.
  - set (refs := x :: t).
    assert (Hn : 0 < len refs)
      by (unfold refs; rewrite len_cons; pose proof (len_nonneg t); lia).
    eexists _, (le_bytes 4 (len refs) ++ ref_slots refs (len bk)).
    unfold EndVector. unfold bind at 1. unfold FrontSize at 1. cbn [front].
    replace (len fr =? len (fr ++ refs_bytes refs)) with false
      by (symmetry; apply Z.eqb_neq; rewrite len_app, len_refs_bytes; lia).
    cbn [negb].
    replace (Z.to_nat (len refs)) with (length refs) by (unfold len; lia).
    rewrite (bind_Ok _ _ _ _ _ (EndVector_loop_refs refs fr bk)).
    replace (len refs =? 0) with false by (symmetry; apply Z.eqb_neq; lia).
    run. rewrite (le_bytes4_wrap (len refs)), write_refs_slots, <- !app_assoc.
    reflexivity.
Qed.

(** A table built from a hook that writes fields, followed by whatever
    uses the position of the table. *)
Lemma table_build {B} (n : nat) (hook : M unit) (k : Z -> M B)
      (b : InwardBuffer) :
  writes_fields n hook ->
  8 * Z.of_nat n < 2 ^ 64 ->
  exists root vtable new,
    (start <- StartTable;; hook;; r <- EndTable start;; k r) b
    = k root (mkBuffer (front b) (vtable ++ new ++ back b)) /\
    root = len (new ++ back b) /\
    4 <= len new /\
    le_value (firstn 4 new) = len vtable /\
    6 <= len vtable <= 2 ^ 17.
Proof.
  intros Hw Hn.
  destruct (Hw b) as (fs & new & Hl & Hok & Hrun).
  assert (Hsz : 8 * len fs < 2 ^ 64) by (unfold len; rewrite Hl; exact Hn).
  destruct (EndTable_shape (front b) (new ++ back b) fs Hok Hsz)
    as (vt & _ & Hvt & Het).
  destruct (finalize_back fs (new ++ back b)) as (sl & Hsl & _).
  pose proof (table_max_field_range fs Hok) as Hm.
  exists (len (snd (finalize fs (new ++ back b))) + 4),
         (entries_bytes vt),
         (le_bytes 4 ((table_max_field fs + 1) * 2) ++ sl ++ new).
  split; [|split; [|split; [|split]]].
  - unfold StartTable. unfold bind at 1. unfold FrontSize at 1.
    rewrite (bind_Ok _ _ _ _ _ Hrun), (bind_Ok _ _ _ _ _ Het), Hsl,
      <- ?app_assoc.
    reflexivity.
  - rewrite Hsl, <- !app_assoc, (len_app (le_bytes 4 _)), len_le_bytes. lia.
  - rewrite len_app, len_le_bytes. pose proof (len_nonneg (sl ++ new)). lia.
  - rewrite firstn4_le_bytes, le_value_le_bytes4.
    rewrite len_entries_bytes, Hvt.
    replace (2 * (table_max_field fs + 1)) with ((table_max_field fs + 1) * 2)
      by lia.
    apply Z.mod_small. lia.
  - rewrite len_entries_bytes, Hvt. lia.
Qed.

End HookFacts.

Section HookVectorFacts.

(** A vector of inline values records one reference field. *)
Lemma writes_vector_of_values {A} (enc : A -> list byte) (value : list A)
      (offset : Z) :
  writes_fields 1
    (start <- StartVector;;
     for_each (rev value) (fun x => WriteBack (enc x));;
     reference <- EndVector start (len value);;
     AddReferenceField (offset / 2) reference).
Proof.
  apply writes_one. intro b.
  pose proof (vector_of_values_run enc value offset b) as H. cbv zeta in H.
  eexists _, ((if len value =? 0 then [] else le_bytes 4 (len value))
              ++ concat (map enc value)).
  split; [apply reference_Field_ok|]. rewrite H, <- app_assoc. reflexivity.
Qed.

(** A vector of references: the loop leaves one pending reference per
    element, [EndVector] resolves them, one reference field is recorded. *)
Lemma writes_vector_of_references {A} (value : list A) (body : A -> M unit)
      (offset : Z) :
  (forall x, In x value -> forall fr bk, exists r new,
      body x (mkBuffer fr bk)
      = Ok tt (mkBuffer (fr ++ le_bytes 4 r) (new ++ bk))) ->
  writes_fields 1
    (start <- StartVector;;
     for_each value body;;
     reference <- EndVector start (len value);;
     AddReferenceField (offset / 2) reference).
Proof.
  intro Hbody.
  assert (Hloop : forall l, incl l value -> forall fr bk, exists refs new,
             length refs = length l /\
             for_each l body (mkBuffer fr bk)
             = Ok tt (mkBuffer (fr ++ refs_bytes refs) (new ++ bk))).
  { induction l as [|x l IH]; intros Hl fr bk.
    - exists [], []. cbn [refs_bytes map concat app for_each].
      rewrite app_nil_r. split; reflexivity.
    - destruct (Hbody x (Hl x (in_eq x l)) fr bk) as (r & new1 & H1).
      destruct (IH (fun y Hy => Hl y (in_cons x y l Hy))
                  (fr ++ le_bytes 4 r) (new1 ++ bk))
        as (refs & new2 & L & H2).
      exists (r :: refs), (new2 ++ new1). split; [cbn [length]; lia|].
      cbn [for_each]. rewrite (bind_Ok _ _ _ _ _ H1), H2.
      change (refs_bytes (r :: refs)) with (le_bytes 4 r ++ refs_bytes refs).
      rewrite <- !app_assoc. reflexivity. }
  apply writes_one. intro b.
  destruct (Hloop value (incl_refl value) (front b) (back b))
    as (refs & new1 & L & H1).
  destruct (EndVector_refs_run (front b) (new1 ++ back b) refs)
    as (r & new2 & H2).
  eexists _, (new2 ++ new1). split; [apply reference_Field_ok|].
  unfold StartVector. unfold bind at 1. unfold FrontSize at 1.
  destruct b as [fr bk]. cbn [front back] in *.
  rewrite (bind_Ok _ _ _ _ _ H1).
  replace (len value) with (len refs) by (unfold len; now rewrite L).
  rewrite (bind_Ok _ _ _ _ _ H2), <- app_assoc. reflexivity.
Qed.

End HookVectorFacts.

(** X15.  Each field method that takes no hook completes, appends exactly one
    well-formed field record to the ledger in front memory, and only
    prepends to back memory; the value methods need a positive alignment. *)
Theorem field_methods_write_one_record (offset : Z) :
  (forall value default_value,
      0 < alignof value -> writes_fields 1 (Scalar value offset default_value)) /\
  (forall value, 0 < alignof value -> writes_fields 1 (Struct value offset)) /\
  (forall value,
      0 < alignof value -> writes_fields 1 (NativeStruct value offset)) /\
  (forall value, writes_fields 1 (String value offset)) /\
  (forall w value, writes_fields 1 (VectorOfScalars w value offset)) /\
  (forall value, writes_fields 1 (VectorOfStrings value offset)) /\
  (forall value, writes_fields 1 (VectorOfStructs value offset)) /\
  (forall value, writes_fields 1 (VectorOfNativeStructs value offset)).
Proof.
  split; [|split; [|split; [|split; [|split; [|split; [|split]]]]]].
  - intros value d Ha. now apply writes_AddValueField.
  - intros value Ha. now apply writes_AddValueField.
  - intros value Ha b.
    destruct (writes_AddValueField (offset / 2) value Ha b) as (fs & new & H).
    exists fs, new. now rewrite sized_then_store.
  - intro value. apply writes_reference. apply CreateString_prepends.
  - intros w value.
    exact (writes_vector_of_values (fun x => bytes (scalar w x)) value offset).
  - intro value. apply writes_vector_of_references.
    intros str _ fr bk.
    destruct (CreateString_prepends str (mkBuffer fr bk)) as (r & new & H).
    exists r, new. rewrite (bind_Ok _ _ _ _ _ H).
    unfold AddVectorReference, WriteFront. cbn [front back].
    now rewrite (le_bytes4_wrap r).
  - intro value. exact (writes_vector_of_values bytes value offset).
  - intros value b.
    destruct (writes_vector_of_values bytes value offset b) as (fs & new & H).
    exists fs, new.
    replace (VectorOfNativeStructs value offset b)
      with (VectorOfStructs value offset b); [exact H|].
    symmetry. unfold VectorOfNativeStructs, VectorOfStructs.
    apply bind_ext. intros start b1. unfold bind at 1 3.
    rewrite (for_each_ext (rev value) _ (fun t => AddVectorValue t));
      [reflexivity|].
    intros t b2. apply alloc_then_store.
Qed.

Lemma field_methods_write_one_record_witness :
  writes_fields 1 (Scalar (mkObject 4 [x01; x00; x00; x00]) 4 0) /\
  writes_fields 1 (Struct (mkObject 4 [x01; x00; x00; x00]) 4) /\
  writes_fields 1 (NativeStruct (mkObject 4 [x01; x00; x00; x00]) 4).
Proof.
  destruct (field_methods_write_one_record 4) as (H1 & H2 & H3 & _).
  split; [|split].
  - apply H1. cbn. lia.
  - apply H2. cbn. lia.
  - apply H3. cbn. lia.
Defined.




(** X17.  [SerializeObject] on a hook that writes fields completes without a
    diagnostic and returns the back size; front memory is as before the
    call, the earlier back memory is kept below the new bytes, and the new
    bytes start with the root reference, whose value leads over the vtable
    to the table, which begins with the length of that vtable. *)
Theorem SerializeObject_completes (n : nat) (hook : M unit) (b : InwardBuffer) :
  writes_fields n hook ->
  8 * Z.of_nat n < 2 ^ 64 ->
  exists b' vtable table,
    SerializeObject hook b = Ok (len (back b'), []) b' /\
    front b' = front b /\
    back b' = le_bytes 4 (4 + len vtable) ++ vtable ++ table ++ back b /\
    le_value (firstn 4 (back b')) = 4 + len vtable /\
    le_value (firstn 4 table) = len vtable.
Proof.
  intros Hw Hn.
  destruct (table_build n hook
              (fun table_end =>
                 Finish table_end;;
                 end_ <- FrontSize;;
                 (let log := if negb (len (front b) =? end_)
                             then LOG_DFATAL
                                    "Unexpected temporary memory left behind."
                             else [] in
                  ptr <- BackSize;; ret (ptr, log))) b Hw Hn)
    as (root & vt & new & H & Hroot & Hlen & Hlink & Hv).
  exists (mkBuffer (front b) (le_bytes 4 (4 + len vt) ++ vt ++ new ++ back b)),
         vt, new.
  cbn [front back].
  split; [|split; [reflexivity|split; [reflexivity|split; [|exact Hlink]]]].
  - refine (eq_trans H _). rewrite (bind_Ok _ _ _ _ _ (Finish_run _ _)). cbn [front back].
    replace (len (vt ++ new ++ back b) + 4 - root) with (4 + len vt)
      by (rewrite Hroot, (len_app vt); lia).
    unfold bind, FrontSize, BackSize, ret. cbn [front back].
    rewrite Z.eqb_refl. reflexivity.
  - rewrite firstn4_le_bytes, le_value_le_bytes4. apply Z.mod_small. lia.
Qed.

Lemma SerializeObject_completes_witness :
  exists b' vtable table,
    SerializeObject (Scalar (mkObject 4 [x01; x00; x00; x00]) 4 0)
                    (mkBuffer [] [x09])
    = Ok (len (back b'), []) b' /\
    front b' = [] /\
    back b' = le_bytes 4 (4 + len vtable) ++ vtable ++ table ++ [x09] /\
    le_value (firstn 4 (back b')) = 4 + len vtable /\
    le_value (firstn 4 table) = len vtable.
Proof.
  apply (SerializeObject_completes 1
           (Scalar (mkObject 4 [x01; x00; x00; x00]) 4 0) (mkBuffer [] [x09])).
  - apply writes_AddValueField. cbn. lia.
  - cbn. lia.
Defined.

(** ** Tables of inline fields *)

Section InlineFacts.

(** The records and the bytes a run of [Struct] calls leaves. *)
Lemma inline_fields_run (fields : list (Z * object)) :
  Forall (fun f => 0 < alignof (snd f)) fields ->
  forall fr bk, exists fs new,
    inline_fields fields (mkBuffer fr bk)
    = Ok tt (mkBuffer (fr ++ ledger_bytes fs) (new ++ bk)) /\
    Forall Field_ok fs /\
    map index fs = map (fun f => wrap 16 (fst f / 2)) fields /\
    forall off v, In (off, v) fields ->
      exists f p,
        In f fs /\ index f = wrap 16 (off / 2) /\
        size f = wrap 8 (sizeof v) /\ offset f = wrap 32 p /\
        len bk + sizeof v <= p <= len (new ++ bk) /\
        back_at p (length (bytes v)) (new ++ bk) = bytes v.
Proof.
  induction fields as [|[off v] fields IH]; intros Ha fr bk.
  - exists [], []. cbn [ledger_bytes map concat app]. rewrite app_nil_r.
    repeat split; [constructor|contradiction].
  - inversion Ha as [|? ? Hv Hrest]; subst. cbn [snd] in Hv.
    pose proof (AddValueField_run (off / 2) v (mkBuffer fr bk) Hv) as H1.
    cbv zeta in H1. cbn [front back] in H1.
    set (pad := repeat x00 (Z.to_nat ((- len bk) mod alignof v))) in *.
    set (f := mkField (wrap 16 (off / 2)) (wrap 8 (sizeof v))
                (wrap 8 (alignof v)) (wrap 32 (len (bytes v ++ pad ++ bk)))) in *.
    destruct (IH Hrest (fr ++ Field_bytes f) (bytes v ++ pad ++ bk))
      as (fs & new & H2 & Hok & Hidx & Hin).
    assert (Hassoc : (new ++ bytes v ++ pad) ++ bk
                     = new ++ bytes v ++ pad ++ bk)
      by now rewrite <- !app_assoc.
    exists (f :: fs), (new ++ bytes v ++ pad).
    split; [|split; [|split]].
    + unfold inline_fields in *. cbn [for_each fst snd]. unfold Struct at 1.
      rewrite (bind_Ok _ _ _ _ _ H1), H2.
      change (ledger_bytes (f :: fs)) with (Field_bytes f ++ ledger_bytes fs).
      now rewrite <- !app_assoc.
    + constructor; [apply wrapped_Field_ok|exact Hok].
    + cbn [map fst]. now rewrite Hidx.
    + intros off' v' [E|Hi].
      * injection E as <- <-. exists f, (len (bytes v ++ pad ++ bk)).
        split; [now left|]. split; [reflexivity|]. split; [reflexivity|].
        split; [reflexivity|]. rewrite Hassoc. split.
        -- rewrite !len_app. unfold sizeof.
           pose proof (len_nonneg new). pose proof (len_nonneg pad). lia.
        -- rewrite back_at_app by (pose proof (len_nonneg (bytes v ++ pad ++ bk)); lia).
           rewrite back_at_head. apply firstn_length_app.
      * destruct (Hin off' v' Hi) as (g & p & G1 & G2 & G3 & G4 & G5 & G6).
        exists g, p. split; [now right|]. rewrite Hassoc.
        repeat (split; [assumption|]). split; [|exact G6].
        rewrite !len_app in G5. pose proof (len_nonneg (bytes v)).
        pose proof (len_nonneg pad). rewrite !len_app. lia.
Qed.

End InlineFacts.

(** X18.  A table of inline fields reads back: after [StartTable], one
    [Struct] call per field and [EndTable], the vtable entry of every field
    is not zero, and the bytes it leads to from the table's position are the
    bytes of the value written for that field. *)
Theorem inline_table_round_trip (fields : list (Z * object)) (b : InwardBuffer) :
  Forall (fun f => 4 <= fst f < 2 ^ 16 /\ 0 < alignof (snd f)
                   /\ 0 < sizeof (snd f) < 2 ^ 8) fields ->
  NoDup (map (fun f => fst f / 2) fields) ->
  8 * len fields < 2 ^ 64 ->
  exists root b',
    (start <- StartTable;; inline_fields fields;; EndTable start) b
    = Ok root b' /\
    front b' = front b /\
    (len (back b') < 2 ^ 32 -> root - len (back b) < 2 ^ 16 ->
     forall off v, In (off, v) fields ->
       vtable_entry (off / 2) (back b') <> 0 /\
       back_at (root - vtable_entry (off / 2) (back b')) (length (bytes v))
               (back b')
       = bytes v).
Proof.
  intros Hall Hnd Hsz. destruct b as [fr bk]. cbn [front back].
  assert (Ha : Forall (fun f => 0 < alignof (snd f)) fields)
    by (eapply Forall_impl; [|exact Hall]; intros f (_ & H & _); exact H).
  destruct (inline_fields_run fields Ha fr bk)
    as (fs & new & Hrun & Hok & Hidx & Hin).
  assert (Hidx' : map index fs = map (fun f => fst f / 2) fields).
  { rewrite Hidx. apply map_ext_in. intros f Hf.
    rewrite Forall_forall in Hall. destruct (Hall f Hf) as (Ho & _).
    apply wrap_small. split; [apply Z.div_pos; lia|].
    apply Z.div_lt_upper_bound; lia. }
  assert (Hlen : len fs = len fields).
  { unfold len. f_equal.
    rewrite <- (length_map index fs), Hidx, length_map. reflexivity. }
  destruct (EndTable_shape fr (new ++ bk) fs Hok
              ltac:(rewrite Hlen; exact Hsz))
    as (vt & Hvtdef & Hvt & Het).
  destruct (finalize_back fs (new ++ bk)) as (sl & Hsl & _).
  eexists _, (mkBuffer _ _). split; [|split; [reflexivity|]].
  - unfold StartTable. unfold bind at 1. unfold FrontSize at 1.
    cbn [front back].
    rewrite (bind_Ok _ _ _ _ _ Hrun). exact Het.
  - cbn [back]. intros H32 H16 off v Hi.
    destruct (Hin off v Hi) as (f & p & F1 & F2 & F3 & F4 & F5 & F6).
    rewrite Forall_forall in Hall.
    destruct (Hall (off, v) Hi) as (Ho & _ & Hs). cbn [fst snd] in Ho, Hs.
    assert (Hi2 : index f = off / 2).
    { rewrite F2. apply wrap_small. split; [apply Z.div_pos; lia|].
      apply Z.div_lt_upper_bound; lia. }
    rewrite !len_app, len_le_bytes in H32.
    pose proof (len_nonneg (entries_bytes vt)) as Hvn.
    assert (Hbig : len (new ++ bk) <= len (snd (finalize fs (new ++ bk))))
      by (rewrite Hsl, (len_app sl); pose proof (len_nonneg sl); lia).
    pose proof (len_nonneg bk) as Hbn.
    assert (Hp : offset f = p) by (rewrite F4; apply wrap_small; lia).
    assert (Hentry : vtable_entry (off / 2)
                       (entries_bytes vt
                        ++ le_bytes 4 ((table_max_field fs + 1) * 2)
                        ++ snd (finalize fs (new ++ bk)))
                     = len (snd (finalize fs (new ++ bk))) + 4 - p).
    { rewrite <- Hi2, Hvtdef, EndTable_entry; try assumption.
      - rewrite Hp. apply wrap_small. lia.
      - now rewrite Hidx'.
      - apply finalize_inline; [exact F1|]. rewrite F3, wrap_small; lia.
      - lia. }
    rewrite Hentry. split; [lia|].
    replace (len (snd (finalize fs (new ++ bk))) + 4
             - (len (snd (finalize fs (new ++ bk))) + 4 - p)) with p by lia.
    rewrite back_at_app by (rewrite len_app, len_le_bytes; lia).
    rewrite back_at_app by lia.
    rewrite Hsl, back_at_app by lia. exact F6.
Qed.

Lemma inline_table_round_trip_witness :
  exists root b',
    (start <- StartTable;;
     inline_fields [(4, mkObject 1 [x07]); (6, mkObject 4 [x01; x02; x03; x04])];;
     EndTable start) (mkBuffer [] [])
    = Ok root b' /\
    front b' = [] /\
    vtable_entry 2 (back b') <> 0 /\
    back_at (root - vtable_entry 2 (back b')) 1 (back b') = [x07] /\
    vtable_entry 3 (back b') <> 0 /\
    back_at (root - vtable_entry 3 (back b')) 4 (back b')
    = [x01; x02; x03; x04].
Proof.
  destruct (inline_table_round_trip
              [(4, mkObject 1 [x07]); (6, mkObject 4 [x01; x02; x03; x04])]
              (mkBuffer [] []))
    as (root & b' & H1 & H2 & H3).
  - repeat constructor; cbn; lia.
  - repeat constructor; cbn; intuition discriminate.
  - cbn. lia.
  - exists root, b'. split; [exact H1|]. split; [exact H2|].
    assert (E : root = 12 /\ len (back b') = 20).
    { vm_compute in H1. injection H1 as <- <-. split; reflexivity. }
    destruct E as [Er El].
    assert (G : forall off v,
               In (off, v)
                  [(4, mkObject 1 [x07]); (6, mkObject 4 [x01; x02; x03; x04])] ->
               vtable_entry (off / 2) (back b') <> 0 /\
               back_at (root - vtable_entry (off / 2) (back b'))
                       (length (bytes v)) (back b') = bytes v).
    { apply H3; [rewrite El; lia|rewrite Er; cbn; lia]. }
    destruct (G 4 (mkObject 1 [x07])) as [A1 A2]; [now left|].
    destruct (G 6 (mkObject 4 [x01; x02; x03; x04])) as [B1 B2];
      [right; now left|].
    repeat split; assumption.
Defined.

(** X19.  The size of a field record is one byte, so a value whose size is a
    multiple of 256 is recorded with size 0: [EndTable] then takes the
    record for a reference, prepends a 4-byte reference to the value, and
    points the vtable entry of the field at that reference rather than at
    the value, whose bytes lie 4 bytes further from the table's position. *)
Theorem size_256_value_taken_for_reference
    (value : object) (off : Z) (b : InwardBuffer) :
  0 < alignof value ->
  0 < sizeof value ->
  sizeof value mod 2 ^ 8 = 0 ->
  4 <= off < 2 ^ 16 ->
  len (back b) + sizeof value + alignof value + 8 < 2 ^ 32 ->
  exists root b',
    (start <- StartTable;; Struct value off;; EndTable start) b
    = Ok root b' /\
    vtable_entry (off / 2) (back b') = 4 /\
    back_at (root - 4) 4 (back b') = le_bytes 4 4 /\
    back_at (root - 8) (length (bytes value)) (back b') = bytes value.
Proof.
  intros Ha Hs Hm Ho H32. destruct b as [fr bk]. cbn [front back] in *.
  pose proof (AddValueField_run (off / 2) value (mkBuffer fr bk) Ha) as H1.
  cbv zeta in H1. cbn [front back] in H1.
  set (pad := repeat x00 (Z.to_nat ((- len bk) mod alignof value))) in *.
  set (bk1 := bytes value ++ pad ++ bk) in *.
  assert (Hpad : 0 <= len pad < alignof value).
  { unfold pad. rewrite len_repeat.
    pose proof (Z.mod_pos_bound (- len bk) (alignof value) Ha). lia. }
  assert (Hb1 : 0 < len bk1 < 2 ^ 32 - 8).
  { unfold bk1. rewrite !len_app. unfold sizeof in *.
    pose proof (len_nonneg bk). lia. }
  assert (Hi : 2 <= off / 2 < 2 ^ 16).
  { split; [apply Z.div_le_lower_bound; lia|].
    apply Z.div_lt_upper_bound; lia. }
  assert (Hf : mkField (wrap 16 (off / 2)) (wrap 8 (sizeof value))
                 (wrap 8 (alignof value)) (wrap 32 (len bk1))
               = mkField (off / 2) 0 (wrap 8 (alignof value)) (len bk1)).
  { f_equal; [apply wrap_small; lia|exact Hm|apply wrap_small; lia]. }
  rewrite Hf in H1. clear Hf.
  set (f := mkField (off / 2) 0 (wrap 8 (alignof value)) (len bk1)) in *.
  assert (Hok : Forall Field_ok [f]).
  { constructor; [|constructor]. unfold Field_ok, f.
    cbn [index size align offset].
    pose proof (wrap_range 8 (alignof value)). lia. }
  destruct (EndTable_shape fr bk1 [f] Hok ltac:(cbn; lia))
    as (vt & Hvtdef & Hvt & Het).
  assert (Hfin : finalize [f] bk1
                 = ([mkField (off / 2) 0 (wrap 8 (alignof value))
                       (len bk1 + 4)],
                    le_bytes 4 4 ++ bk1)).
  { cbn [finalize]. unfold finalize_field, absent, f.
    cbn [index size align offset].
    replace (len bk1 =? 0) with false by (symmetry; apply Z.eqb_neq; lia).
    cbn [andb Z.eqb]. cbv zeta.
    replace (len bk1 + 4 - len bk1) with 4 by lia.
    rewrite len_app, len_le_bytes.
    rewrite (wrap_small 32) by lia.
    replace (Z.of_nat 4 + len bk1) with (len bk1 + 4) by lia. reflexivity. }
  rewrite Hfin in Het, Hvtdef. cbn [fst snd] in Het, Hvtdef.
  assert (Hroot : len (le_bytes 4 4 ++ bk1) + 4 = len bk1 + 8)
    by (rewrite len_app, len_le_bytes; lia).
  eexists _, (mkBuffer _ _). split; [|split; [|split]].
  - unfold StartTable. unfold bind at 1. unfold FrontSize at 1.
    cbn [front back]. unfold Struct.
    change (ledger_bytes [f]) with (Field_bytes f ++ []) in Het.
    rewrite app_nil_r in Het.
    rewrite (bind_Ok _ _ _ _ _ H1). exact Het.
  - cbn [back].
    pose proof (EndTable_entry bk1 [f]
                  (le_bytes 4 ((table_max_field [f] + 1) * 2)
                   ++ le_bytes 4 4 ++ bk1)
                  (len (le_bytes 4 4 ++ bk1) + 4)
                  (mkField (off / 2) 0 (wrap 8 (alignof value))
                     (len bk1 + 4)) Hok) as E.
    rewrite Hfin in E. cbn [fst index offset] in E.
    rewrite Hvtdef, E.
    + rewrite Hroot. replace (len bk1 + 8 - (len bk1 + 4)) with 4 by lia.
      reflexivity.
    + repeat constructor. intros [].
    + now left.
    + lia.
  - cbn [back]. rewrite Hroot.
    set (slot := le_bytes 4 4 ++ bk1) in *.
    pose proof (len_nonneg slot) as Hn.
    replace (len bk1 + 8 - 4) with (len slot) by lia.
    rewrite back_at_app by (rewrite len_app, len_le_bytes; lia).
    rewrite back_at_app by lia.
    rewrite back_at_head. apply (firstn_length_app (le_bytes 4 4)).
  - cbn [back]. rewrite Hroot.
    replace (len bk1 + 8 - 8) with (len bk1) by lia.
    rewrite back_at_app by (rewrite !len_app, !len_le_bytes; lia).
    rewrite back_at_app by (rewrite len_app, len_le_bytes; lia).
    rewrite back_at_app by lia.
    rewrite back_at_head. unfold bk1. apply firstn_length_app.
Qed.

Lemma size_256_value_taken_for_reference_witness :
  exists root b',
    (start <- StartTable;;
     Struct (mkObject 1 (repeat x07 256)) 4;;
     EndTable start) (mkBuffer [] [])
    = Ok root b' /\
    vtable_entry 2 (back b') = 4 /\
    back_at (root - 4) 4 (back b') = [x04; x00; x00; x00] /\
    back_at (root - 8) 256 (back b') = repeat x07 256.
Proof.
  apply (size_256_value_taken_for_reference (mkObject 1 (repeat x07 256)) 4
           (mkBuffer [] [])).
  - cbn. lia.
  - reflexivity.
  - reflexivity.
  - lia.
  - vm_compute. reflexivity.
Defined.

(** ** References finalized by [EndTable] *)

Section ReferenceFacts.

(** What one turn of the loop of [WriteTable] adds to back memory. *)
Lemma finalize_field_len (g : Field) (bk : list byte) :
  len (snd (finalize_field g bk))
  = len bk + (if pending g then 4 else 0).
Proof.
  unfold finalize_field, absent, pending.
  destruct (size g =? 0); destruct (offset g =? 0); cbn [andb negb snd];
    try lia.
  rewrite len_app, len_le_bytes. lia.
Qed.

(** The record and the slot of a pending reference, at the back size the
    loop of [WriteTable] reaches with it. *)
Lemma finalize_pending_at (fs : list Field) :
  forall (bk : list byte) (i : nat) (f : Field),
    nth_error fs i = Some f -> pending f = true ->
    let p := len bk + 4 * len (filter pending (firstn (S i) fs)) in
    nth_error (fst (finalize fs bk)) i
    = Some (mkField (index f) (size f) (align f) (wrap 32 p)) /\
    len bk + 4 <= p <= len (snd (finalize fs bk)) /\
    back_at p 4 (snd (finalize fs bk)) = le_bytes 4 (p - offset f).
Proof.
  induction fs as [|g fs IH]; intros bk i f Hi Hp; [now destruct i|].
  destruct i as [|i]; cbn [nth_error] in Hi.
  - injection Hi as ->. cbn [firstn filter]. rewrite Hp.
    replace (len bk + 4 * len [f]) with (len bk + 4)
      by (unfold len; cbn [length]; lia).
    cbv zeta. cbn [finalize].
    destruct (pending_absent f Hp) as [Ha Hs].
    unfold finalize_field. rewrite Ha, Hs. cbv zeta.
    set (bk1 := le_bytes 4 (len bk + 4 - offset f) ++ bk).
    assert (Hl : len bk1 = len bk + 4)
      by (unfold bk1; rewrite len_app, len_le_bytes; lia).
    destruct (finalize_back fs bk1) as (sl & H1 & H2).
    destruct (finalize fs bk1) as [r' bk']. cbn [fst snd nth_error] in *.
    subst bk'. rewrite Hl. split; [reflexivity|]. split.
    + rewrite (len_app sl bk1). pose proof (len_nonneg sl). lia.
    + rewrite <- Hl.
      rewrite back_at_app by (pose proof (len_nonneg bk1); lia).
      rewrite back_at_head, Hl. unfold bk1. now rewrite firstn4_le_bytes.
  - pose proof (finalize_field_len g bk) as Hg.
    cbn [finalize].
    destruct (finalize_field g bk) as [g' bk1]. cbn [snd] in Hg.
    pose proof (IH bk1 i f Hi Hp) as H. cbv zeta in H.
    destruct H as (H1 & H2 & H3).
    destruct (finalize fs bk1) as [r' bk']. cbn [fst snd nth_error] in *.
    assert (E : len bk + 4 * len (filter pending (firstn (S (S i)) (g :: fs)))
                = len bk1 + 4 * len (filter pending (firstn (S i) fs))).
    { change (firstn (S (S i)) (g :: fs)) with (g :: firstn (S i) fs).
      cbn [filter]. rewrite Hg. destruct (pending g); [rewrite len_cons|]; lia. }
    cbv zeta. rewrite E. split; [exact H1|]. split; [|exact H3].
    destruct (pending g); lia.
Qed.

(** Record [i] of a ledger in front memory. *)
Lemma LoadField_nth (pre k : list byte) (fs : list Field) (i : nat) (f : Field) :
  Forall Field_ok fs ->
  nth_error fs i = Some f ->
  LoadField (len pre + 8 * Z.of_nat i) (mkBuffer (pre ++ ledger_bytes fs) k)
  = Ok f (mkBuffer (pre ++ ledger_bytes fs) k).
Proof.
  intros Hok Hi.
  destruct (nth_error_split fs i Hi) as (l1 & l2 & -> & Hl).
  apply Forall_app in Hok. destruct Hok as [_ Hok].
  inversion Hok as [|? ? Hf _]; subst.
  rewrite ledger_bytes_app, ledger_bytes_cons, app_assoc.
  replace (len pre + 8 * Z.of_nat (length l1)) with (len (pre ++ ledger_bytes l1))
    by (rewrite len_app, len_ledger_bytes; unfold len; lia).
  now apply LoadField_ledger.
Qed.

End ReferenceFacts.

(** C1.  [EndTable] finalizes every record of its ledger that has size 0
    and a non-zero position.  For record [i] of the ledger, [p] is the back
    size right after its slot is written: the old back size plus 4 bytes for
    each such record up to and including [i].  The 4 bytes at position [p],
    both after [WriteTable] and in the table [EndTable] leaves, hold [p]
    minus the recorded position of the referent (as a [uint32_t]); the
    record in front memory is left with position [p]; the object size
    [WriteTable] returns counts 4 bytes for each such record.  [Finish]
    writes the root reference by the same computation: the back size after
    the 4 bytes are written minus the position of the root. *)
Theorem EndTable_finalizes_references (pre bk : list byte) (fs : list Field) :
  Forall Field_ok fs ->
  8 * len fs < 2 ^ 64 ->
  (exists root bw be,
     WriteTable (len pre) (len pre + 8 * len fs)
       (mkBuffer (pre ++ ledger_bytes fs) bk)
     = Ok (root,
           fold_right Z.add 0 (map size fs) + 4 * len (filter pending fs),
           (table_max_field fs + 1) * 2) bw /\
     EndTable (len pre) (mkBuffer (pre ++ ledger_bytes fs) bk) = Ok root be /\
     root = len bk + 4 * len (filter pending fs) + 4 /\
     forall (i : nat) (f : Field),
       nth_error fs i = Some f -> size f = 0 -> offset f <> 0 ->
       let p := len bk + 4 * len (filter pending (firstn (S i) fs)) in
       len bk + 4 <= p <= root - 4 /\
       back_at p 4 (back bw) = le_bytes 4 (p - offset f) /\
       back_at p 4 (back be) = le_bytes 4 (p - offset f) /\
       le_value (back_at p 4 (back be)) = (p - offset f) mod 2 ^ 32 /\
       (offset f <= p < 2 ^ 32 ->
        le_value (back_at p 4 (back be)) = p - offset f) /\
       LoadField (len pre + 8 * Z.of_nat i) bw
       = Ok (mkField (index f) 0 (align f) (wrap 32 p)) bw) /\
  (forall (root : Z) (b : InwardBuffer),
     exists r,
       Finish root b = Ok (len (back r)) r /\
       front r = front b /\
       len (back r) = len (back b) + 4 /\
       back r = le_bytes 4 (len (back r) - root) ++ back b /\
       le_value (firstn 4 (back r)) = (len (back r) - root) mod 2 ^ 32 /\
       (0 <= root <= len (back r) -> len (back r) < 2 ^ 32 ->
        le_value (firstn 4 (back r)) = len (back r) - root)).
Proof.
  intros Hok Hsz. split.
  - destruct (EndTable_shape pre bk fs Hok Hsz) as (vt & _ & _ & Het).
    destruct (finalize_back fs bk) as (sl & Hsl & Hsll).
    destruct (finalize_front fs bk) as (_ & _ & Hok').
    specialize (Hok' Hok).
    eexists _, (mkBuffer _ _), (mkBuffer _ _).
    split; [|split; [exact Het|split]].
    + rewrite <- table_object_size_sum. now apply WriteTable_run.
    + rewrite Hsl, len_app. lia.
    + intros i f Hi Hs Ho. cbn [back].
      assert (Hp : pending f = true).
      { unfold pending. apply andb_true_iff. split; [now apply Z.eqb_eq|].
        apply negb_true_iff. now apply Z.eqb_neq. }
      pose proof (finalize_pending_at fs bk i f Hi Hp) as H. cbv zeta in H.
      destruct H as (H1 & H2 & H3).
      set (p := len bk + 4 * len (filter pending (firstn (S i) fs))) in *.
      pose proof (len_nonneg bk) as Hbk.
      assert (Hf : Field_ok f)
        by (rewrite Forall_forall in Hok; apply Hok;
            now apply (nth_error_In fs i)).
      destruct Hf as (_ & _ & _ & Hfo).
      assert (Hb : back_at p 4
                     (entries_bytes vt
                      ++ le_bytes 4 ((table_max_field fs + 1) * 2)
                      ++ snd (finalize fs bk))
                   = le_bytes 4 (p - offset f)).
      { rewrite back_at_app by (rewrite len_app, len_le_bytes; lia).
        rewrite back_at_app by lia. exact H3. }
      split; [lia|]. split; [rewrite back_at_app by lia; exact H3|].
      split; [exact Hb|]. rewrite Hb, le_value_le_bytes4.
      split; [reflexivity|]. split; [intro Hr; apply Z.mod_small; lia|].
      rewrite <- Hs. apply LoadField_nth; assumption.
  - intros root b.
    exists (mkBuffer (front b) (le_bytes 4 (len (back b) + 4 - root) ++ back b)).
    cbn [front back].
    assert (Hlen : len (le_bytes 4 (len (back b) + 4 - root) ++ back b)
                   = len (back b) + 4)
      by (rewrite len_app, len_le_bytes; lia).
    split; [apply Finish_run|]. split; [reflexivity|].
    split; [exact Hlen|]. rewrite Hlen, firstn4_le_bytes, le_value_le_bytes4.
    split; [reflexivity|]. split; [reflexivity|].
    intros Hr Hs. apply Z.mod_small. lia.
Qed.

Lemma EndTable_finalizes_references_witness :
  (exists root be,
     EndTable 0 (mkBuffer (ledger_bytes [mkField 2 0 0 7])
                          [x02; x00; x00; x00; x61; x62; x00])
     = Ok root be /\
     root = 15 /\
     back_at 11 4 (back be) = [x04; x00; x00; x00] /\
     le_value (back_at 11 4 (back be)) = 11 - 7) /\
  (exists r,
     Finish 15 (mkBuffer [] (repeat x00 21)) = Ok 25 r /\
     le_value (firstn 4 (back r)) = 25 - 15).
Proof.
  destruct (EndTable_finalizes_references []
              [x02; x00; x00; x00; x61; x62; x00] [mkField 2 0 0 7])
    as [(root & bw & be & _ & H2 & H3 & H4) H5].
  - repeat constructor; cbn; lia.
  - cbn. lia.
  - split.
    + exists root, be. split; [exact H2|]. split; [exact H3|].
      destruct (H4 0%nat (mkField 2 0 0 7))
        as (_ & _ & E1 & _ & E2 & _);
        [reflexivity|reflexivity|discriminate|].
      split; [exact E1|]. apply E2. cbn. lia.
    + destruct (H5 15 (mkBuffer [] (repeat x00 21)))
        as (r & F1 & _ & F3 & _ & _ & F6).
      assert (Hl : len (back r) = 25) by (rewrite F3; reflexivity).
      exists r. rewrite Hl in F1, F6. split; [exact F1|].
      apply F6; lia.
Defined.


